(** * A shallow embedding of ADS_set.h: a B+ tree set of keys.

    Keys are modelled as [Z] ([key_compare] is [Z.ltb], [key_equal] is
    [Z.eqb]) and [size_type] as [nat].

    Ownership follows the source: an [InternalNode] uniquely owns its
    children, so internal nodes are plain values of the inductive type
    [Node].  Leaves ([ExternalNode]) are also reachable through the
    non-owning [left_neighbour]/[right_neighbour] pointers of other leaves,
    through [left_leaf] and through iterators; a leaf therefore carries a
    handle ([nat]), its keys live at its place in the tree, and the two
    neighbour pointers of every live leaf live in a heap [gmap nat Links]
    indexed by the handle.  [new ExternalNode] picks a handle that is not
    live ([fresh (dom h)]), [delete] on a leaf removes its handle.

    Arrays are modelled by their logical content: the [node_size] first
    slots of [values], and the [node_size + 1] first slots of [children].
    Whatever the source does that is undefined (a [dynamic_cast] that yields
    [nullptr], a read of a slot that holds no logical content, a dangling
    handle) makes the modelled operation return [None]. *)

From Stdlib Require Import ZArith Lia Sorting Permutation.
From stdpp Require Import base list gmap sorting.

#[local] Set Warnings "-register-all".

Module InsertMsg.
Inductive t := SUCCESS | EXISTS | SPLIT.
End InsertMsg.

Module EraseMsg.
Inductive t := SUCCESS | NOT_EXISTENT | MERGE.
End EraseMsg.

Module MergeDirection.
Inductive t := LEFT | RIGHT.
Definition eqb (a b : t) : bool :=
  match a, b with LEFT, LEFT | RIGHT, RIGHT => true | _, _ => false end.
End MergeDirection.

Module NodeType.
Inductive t := INTERNAL | EXTERNAL.
End NodeType.

(** The two node kinds.  [ExternalNode id values]: a leaf with handle [id];
    [InternalNode values children]. *)
Inductive Node :=
| ExternalNode (id : nat) (values : list Z)
| InternalNode (values : list Z) (children : list Node).

(** The neighbour pointers of a leaf. *)
Record Links := mkLinks {
  left_neighbour : option nat;
  right_neighbour : option nat
}.

Abbreviation heap := (gmap nat Links).

Definition node_values (t : Node) : list Z :=
  match t with ExternalNode _ v => v | InternalNode v _ => v end.

Definition node_size (t : Node) : nat := length (node_values t).

Definition type (t : Node) : NodeType.t :=
  match t with
  | ExternalNode _ _ => NodeType.EXTERNAL
  | InternalNode _ _ => NodeType.INTERNAL
  end.

(** Writing [values] and [node_size] through the base class [Node]. *)
Definition set_values (t : Node) (v : list Z) : Node :=
  match t with
  | ExternalNode i _ => ExternalNode i v
  | InternalNode _ c => InternalNode v c
  end.

(** [p->left_neighbour = x] and [p->right_neighbour = x]. *)
Definition set_left (p : nat) (x : option nat) (h : heap) : option heap :=
  l ← h !! p; Some (<[p := mkLinks x (right_neighbour l)]> h).

Definition set_right (p : nat) (x : option nat) (h : heap) : option heap :=
  l ← h !! p; Some (<[p := mkLinks (left_neighbour l) x]> h).

(** [ExternalNode::find_pos]: the binary search loop; [fuel] bounds the
    number of rounds (each round shrinks [high - low]). *)
Fixpoint bsearch (fuel : nat) (v : list Z) (elem low high : Z) : Z :=
  match fuel with
  | O => -1
  | S f =>
    if (low <=? high)%Z then
      let mid := (low + (high - low) / 2)%Z in
      match v !! Z.to_nat mid with
      | Some x =>
        if (x =? elem)%Z then mid
        else if (x <? elem)%Z then bsearch f v elem (mid + 1) high
        else bsearch f v elem low (mid - 1)
      | None => -1
      end
    else -1
  end%Z.

Definition ext_find_pos (v : list Z) (elem : Z) : Z :=
  if length v =? 0 then (-1)%Z
  else bsearch (length v) v elem 0 (Z.of_nat (length v) - 1).

(** [InternalNode::find_pos]: the first index [i] with [elem < values[i]],
    else [node_size].  [ExternalNode::add_elem] finds its insertion index
    with the same loop. *)
Fixpoint find_pos (v : list Z) (elem : Z) : nat :=
  match v with
  | [] => 0
  | x :: v' => if (elem <? x)%Z then 0 else S (find_pos v' elem)
  end.

(** Apply a child operation to [children[pos]] and write the child back. *)
Fixpoint apply_at {A} (f : Node -> option (A * Node * heap)) (pos : nat)
    (l : list Node) {struct l} : option (A * list Node * heap) :=
  match l, pos with
  | [], _ => None
  | c :: l', O => '(r, c', h') ← f c; Some (r, c' :: l', h')
  | c :: l', S p => '(r, l'', h') ← apply_at f p l'; Some (r, c :: l'', h')
  end.

(** Read-only access to [children[pos]]. *)
Fixpoint read_at {A} (f : Node -> option A) (pos : nat) (l : list Node) {struct l} : option A :=
  match l, pos with
  | [], _ => None
  | c :: _, O => f c
  | _ :: l', S p => read_at f p l'
  end.

(** The loop [for (j = start; j < stop; ++j) a[j-1] = a[j];] *)
Fixpoint shift_down_loop {A} (fuel j stop : nat) (l : list A) : list A :=
  match fuel with
  | O => l
  | S f =>
    if j <? stop then
      shift_down_loop f (S j) stop
        (match l !! j with Some x => <[j - 1 := x]> l | None => l end)
    else l
  end.

Definition shift_down {A} (j stop : nat) (l : list A) : list A :=
  shift_down_loop (stop - j) j stop l.

(** [children[pos - 1]]; [pos - 1] wraps around for [pos = 0]. *)
Definition prev_child (cs : list Node) (pos : nat) : option Node :=
  match pos with O => None | S p => cs !! p end.

Section BPlusTree.

(** The template parameter [N]. *)
Variable N : nat.

Definition max_size : nat := 2 * N.
Definition min_size : nat := N.

(** [ExternalNode::add_elem] on the key array of the leaf. *)
Definition ext_add_elem (v : list Z) (elem : Z) : InsertMsg.t * list Z :=
  if negb (ext_find_pos v elem =? -1)%Z then (InsertMsg.EXISTS, v)
  else
    let i := find_pos v elem in
    let v' := take i v ++ elem :: drop i v in
    (if max_size <? length v' then InsertMsg.SPLIT else InsertMsg.SUCCESS, v').

(** [ExternalNode::remove_elem]. *)
Definition ext_remove_elem (v : list Z) (elem : Z) : EraseMsg.t * list Z :=
  let i := ext_find_pos v elem in
  if (i =? -1)%Z then (EraseMsg.NOT_EXISTENT, v)
  else
    let v' := take (Z.to_nat i) v ++ drop (S (Z.to_nat i)) v in
    (if length v' <? min_size then EraseMsg.MERGE else EraseMsg.SUCCESS, v').

(** [InternalNode::split(pos)] on an internal node with separators [vs] and
    children [cs]; the oversize child is [cs[pos]].  For an even child size
    the copy loops read one slot past [node_size]: left undefined. *)
Definition split (pos : nat) (vs : list Z) (cs : list Node) (h : heap)
    : option (list Z * list Node * heap) :=
  c ← cs !! pos;
  match c with
  | ExternalNode cid cv =>
    let s := length cv in
    if Nat.even s then None else (
    cl ← h !! cid;
    (* new ExternalNode{children[pos], children[pos]->right_neighbour} *)
    let r := fresh (dom h) in
    let rv := drop (s / 2) cv in
    let h1 := <[r := mkLinks (Some cid) (right_neighbour cl)]> h in
    (* manage leaf chaining *)
    h2 ← (match right_neighbour cl with
          | Some o => set_left o (Some r) h1
          | None => Some h1
          end);
    h3 ← set_right cid (Some r) h2;
    k ← head rv;
    Some (take pos vs ++ k :: drop pos vs,
          take pos cs ++ ExternalNode cid (take (s / 2) cv)
                      :: ExternalNode r rv :: drop (S pos) cs, h3))
  | InternalNode cv cc =>
    let s := length cv in
    if Nat.even s then None else (
    new_key ← cv !! (s / 2);
    Some (take pos vs ++ new_key :: drop pos vs,
          take pos cs ++ InternalNode (take (s / 2) cv) (take (S (s / 2)) cc)
                      :: InternalNode (drop (S (s / 2)) cv) (drop (S (s / 2)) cc)
                      :: drop (S pos) cs, h))
  end.

(** The shape of [merge(pos)], decided by the same conditions in the
    [EXTERNAL] and the [INTERNAL] branch of the source. *)
Inductive MergeCase :=
| FromRight                       (* move one key from children[pos + 1] *)
| FromLeft                        (* move one key from children[pos - 1] *)
| Fuse (d : MergeDirection.t).    (* the [switch (direction)] *)

(** [MergeDirection direction; if (pos == node_size || (pos != 0 &&
    children[pos - 1]->node_size < children[pos + 1]->node_size)) ...] *)
Definition merge_direction (pos m : nat) (cs : list Node)
    : option MergeDirection.t :=
  if pos =? m then Some MergeDirection.LEFT
  else if pos =? 0 then Some MergeDirection.RIGHT
  else
    (l ← cs !! (pos - 1); r ← cs !! S pos;
     Some (if node_size l <? node_size r
           then MergeDirection.LEFT else MergeDirection.RIGHT)).

Definition merge_case (pos m : nat) (cs : list Node) : option MergeCase :=
  d ← merge_direction pos m cs;
  '(take_right : bool) ←
    (if (pos =? 0) || (MergeDirection.eqb d MergeDirection.LEFT && (pos <? m))
     then (r ← cs !! S pos; Some (min_size <? node_size r))
     else Some false);
  if take_right then Some FromRight else
  ('(take_left : bool) ←
     (if (pos =? m) || (MergeDirection.eqb d MergeDirection.RIGHT && (0 <? pos))
      then (l ← prev_child cs pos; Some (min_size <? node_size l))
      else Some false);
   if take_left then Some FromLeft else Some (Fuse d)).

(** The parent's reorganisation after a fusion in direction [LEFT]
    (children[pos] was merged into children[pos - 1]) and [RIGHT]
    (children[pos + 1] was merged into children[pos]), and the recovery
    split of an oversize fused child. *)
Definition merge_finish_left (pos m : nat) (vs : list Z) (cs : list Node)
    (h : heap) : option (list Z * list Node * heap) :=
  let vs' := take (m - 1) (shift_down pos (m - 1) vs) in
  let cs' := take m (shift_down (S pos) (S m) cs) in
  c' ← cs' !! (pos - 1);
  if max_size <? node_size c' then split (pos - 1) vs' cs' h
  else Some (vs', cs', h).

Definition merge_finish_right (pos m : nat) (vs : list Z) (cs : list Node)
    (h : heap) : option (list Z * list Node * heap) :=
  let vs' := take (m - 1) (shift_down (S pos) m vs) in
  let cs' := take m (shift_down (S (S pos)) (S m) cs) in
  c' ← cs' !! pos;
  if max_size <? node_size c' then split pos vs' cs' h
  else Some (vs', cs', h).

(** [InternalNode::merge(pos)]: the child [cs[pos]] is undersize. *)
Definition merge (pos : nat) (vs : list Z) (cs : list Node) (h : heap)
    : option (list Z * list Node * heap) :=
  let m := length vs in
  c ← cs !! pos;
  mc ← merge_case pos m cs;
  match mc, c with
  | FromRight, ExternalNode cid cv =>
    r ← cs !! S pos;
    x ← head (node_values r);
    let rv' := tail (node_values r) in
    y ← head rv';
    Some (<[pos := y]> vs,
          <[S pos := set_values r rv']> (<[pos := ExternalNode cid (cv ++ [x])]> cs),
          h)
  | FromLeft, ExternalNode cid cv =>
    l ← prev_child cs pos;
    x ← last (node_values l);
    Some (<[pos - 1 := x]> vs,
          <[pos - 1 := set_values l (removelast (node_values l))]>
            (<[pos := ExternalNode cid (x :: cv)]> cs),
          h)
  | FromRight, InternalNode cv cc =>
    r ← cs !! S pos;
    match r with
    | InternalNode rv rc =>
      sep ← vs !! pos;
      x ← head rv; c0 ← head rc;
      Some (<[pos := x]> vs,
            <[S pos := InternalNode (tail rv) (tail rc)]>
              (<[pos := InternalNode (cv ++ [sep]) (cc ++ [c0])]> cs),
            h)
    | ExternalNode _ _ => None
    end
  | FromLeft, InternalNode cv cc =>
    l ← prev_child cs pos;
    match l with
    | InternalNode lv lc =>
      sep ← vs !! (pos - 1);
      x ← last lv; c0 ← lc !! length lv;
      Some (<[pos - 1 := x]> vs,
            <[pos - 1 := InternalNode (removelast lv) (take (length lv) lc)]>
              (<[pos := InternalNode (sep :: cv) (c0 :: cc)]> cs),
            h)
    | ExternalNode _ _ => None
    end
  | Fuse MergeDirection.LEFT, ExternalNode cid cv =>
    l ← prev_child cs pos;
    match l with
    | ExternalNode lid lv =>
      cl ← h !! cid;
      h1 ← set_right lid (right_neighbour cl) h;
      h2 ← (match right_neighbour cl with
            | Some o => set_left o (Some lid) h1
            | None => Some h1
            end);
      merge_finish_left pos m vs (<[pos - 1 := ExternalNode lid (lv ++ cv)]> cs)
        (delete cid h2)
    | InternalNode _ _ => None
    end
  | Fuse MergeDirection.LEFT, InternalNode cv cc =>
    l ← prev_child cs pos;
    match l with
    | InternalNode lv lc =>
      sep ← vs !! (pos - 1);
      merge_finish_left pos m vs
        (<[pos - 1 := InternalNode (lv ++ sep :: cv) (lc ++ cc)]> cs) h
    | ExternalNode _ _ => None
    end
  | Fuse MergeDirection.RIGHT, ExternalNode cid cv =>
    r ← cs !! S pos;
    match r with
    | ExternalNode rid rv =>
      rl ← h !! rid;
      h1 ← set_right cid (right_neighbour rl) h;
      h2 ← (match right_neighbour rl with
            | Some o => set_left o (Some cid) h1
            | None => Some h1
            end);
      merge_finish_right pos m vs (<[pos := ExternalNode cid (cv ++ rv)]> cs)
        (delete rid h2)
    | InternalNode _ _ => None
    end
  | Fuse MergeDirection.RIGHT, InternalNode cv cc =>
    r ← cs !! S pos;
    match r with
    | InternalNode rv rc =>
      sep ← vs !! pos;
      merge_finish_right pos m vs
        (<[pos := InternalNode (cv ++ sep :: rv) (cc ++ rc)]> cs) h
    | ExternalNode _ _ => None
    end
  end.

(** [Node::add_elem]. *)
Fixpoint add_elem (t : Node) (elem : Z) (h : heap)
    {struct t} : option (InsertMsg.t * Node * heap) :=
  match t with
  | ExternalNode id v =>
    let '(r, v') := ext_add_elem v elem in Some (r, ExternalNode id v', h)
  | InternalNode vs cs =>
    let pos := find_pos vs elem in
    '(result, cs1, h1) ← apply_at (fun c => add_elem c elem h) pos cs;
    match result with
    | InsertMsg.SPLIT =>
      '(vs2, cs2, h2) ← split pos vs cs1 h1;
      Some (if length vs2 <=? max_size then InsertMsg.SUCCESS else InsertMsg.SPLIT,
            InternalNode vs2 cs2, h2)
    | _ => Some (result, InternalNode vs cs1, h1)
    end
  end.

(** [Node::remove_elem]. *)
Fixpoint remove_elem (t : Node) (elem : Z) (h : heap)
    : option (EraseMsg.t * Node * heap) :=
  match t with
  | ExternalNode id v =>
    let '(r, v') := ext_remove_elem v elem in Some (r, ExternalNode id v', h)
  | InternalNode vs cs =>
    let pos := find_pos vs elem in
    '(result, cs1, h1) ← apply_at (fun c => remove_elem c elem h) pos cs;
    match result with
    | EraseMsg.MERGE =>
      '(vs2, cs2, h2) ← merge pos vs cs1 h1;
      Some (if min_size <=? length vs2 then EraseMsg.SUCCESS else EraseMsg.MERGE,
            InternalNode vs2 cs2, h2)
    | _ => Some (result, InternalNode vs cs1, h1)
    end
  end.

End BPlusTree.

(** ** Lookup *)

(** [ADS_set::Iterator]: a leaf handle (or [nullptr]) and an index. *)
Record Iterator := mkIterator {
  current_node : option nat;
  current_element : nat
}.

Definition end_iterator : Iterator := mkIterator None 0.

(** [Iterator::operator==]. *)
Definition iterator_eqb (a b : Iterator) : bool :=
  match current_node a, current_node b with
  | Some x, Some y => x =? y
  | None, None => true
  | _, _ => false
  end && (current_element a =? current_element b).

(** [Node::find]. *)
Fixpoint find_node (t : Node) (elem : Z) : option Iterator :=
  match t with
  | ExternalNode id v =>
    if length v =? 0 then Some end_iterator
    else
      let i := ext_find_pos v elem in
      if (i =? -1)%Z then Some end_iterator
      else Some (mkIterator (Some id) (Z.to_nat i))
  | InternalNode vs cs => read_at (fun c => find_node c elem) (find_pos vs elem) cs
  end.

(** [Node::count]. *)
Fixpoint count_node (t : Node) (elem : Z) : option bool :=
  match t with
  | ExternalNode _ v => Some (negb (ext_find_pos v elem =? -1)%Z)
  | InternalNode vs cs => read_at (fun c => count_node c elem) (find_pos vs elem) cs
  end.

(** The leaves of a subtree from left to right, with their keys. *)
Fixpoint leaves (t : Node) : list (nat * list Z) :=
  match t with
  | ExternalNode id v => [(id, v)]
  | InternalNode _ cs => concat (map leaves cs)
  end.

(** The keys stored in a subtree, in tree order. *)
Definition keys (t : Node) : list Z := concat (map snd (leaves t)).

Fixpoint assoc_leaf (n : nat) (l : list (nat * list Z)) : option (list Z) :=
  match l with
  | [] => None
  | (i, v) :: l' => if i =? n then Some v else assoc_leaf n l'
  end.

(** Following a leaf handle into the keys of the leaf it designates. *)
Definition leaf_of (t : Node) (n : nat) : option (list Z) := assoc_leaf n (leaves t).

(** [Iterator::operator*]. *)
Definition deref (vals : nat -> option (list Z)) (it : Iterator) : option Z :=
  n ← current_node it; v ← vals n; v !! current_element it.

(** [Iterator::operator++]. *)
Definition incr (vals : nat -> option (list Z)) (h : heap) (it : Iterator)
    : option Iterator :=
  match current_node it with
  | None => Some it
  | Some n =>
    v ← vals n;
    if length v <=? S (current_element it)
    then (l ← h !! n; Some (mkIterator (right_neighbour l) 0))
    else Some (mkIterator (Some n) (S (current_element it)))
  end.

(** A loop [for (; it != end(); ++it) visit( *it);] run for at most [fuel]
    rounds: the keys visited. *)
Fixpoint walk (fuel : nat) (vals : nat -> option (list Z)) (h : heap)
    (it : Iterator) : option (list Z) :=
  if iterator_eqb it end_iterator then Some []
  else
    match fuel with
    | O => None
    | S f =>
      x ← deref vals it; it' ← incr vals h it; xs ← walk f vals h it';
      Some (x :: xs)
    end.

(** [delete root]: the destructors free every leaf of the tree. *)
Definition free_tree (t : Node) (h : heap) : heap :=
  foldr (fun (i : nat) (acc : heap) => delete i acc) h (map fst (leaves t)).

(** ** The container *)

Record ADS_set := mkADS {
  sz : nat;
  root : Node;
  left_leaf : nat
}.

Module ADS.
Section Ops.
Variable N : nat.

(** [ADS_set()]: a single empty leaf, aliased by [left_leaf]. *)
Definition construct (h : heap) : ADS_set * heap :=
  let r := fresh (dom h) in
  (mkADS 0 (ExternalNode r []) r, <[r := mkLinks None None]> h).

Definition find (s : ADS_set) (key : Z) : option Iterator := find_node (root s) key.

Definition count (s : ADS_set) (key : Z) : option nat :=
  '(b : bool) ← count_node (root s) key; Some (if b then 1 else 0).

(** [insert(const key_type &)]; the root grows on [SPLIT]. *)
Definition insert (s : ADS_set) (h : heap) (key : Z)
    : option ((Iterator * bool) * (ADS_set * heap)) :=
  '(res, t, h1) ← add_elem N (root s) key h;
  match res with
  | InsertMsg.EXISTS =>
    let s' := mkADS (sz s) t (left_leaf s) in
    it ← find s' key; Some ((it, false), (s', h1))
  | InsertMsg.SUCCESS =>
    let s' := mkADS (S (sz s)) t (left_leaf s) in
    it ← find s' key; Some ((it, true), (s', h1))
  | InsertMsg.SPLIT =>
    (* new_root->children[0] = root; root = new_root; root->split(0) *)
    '(vs, cs, h2) ← split 0 [] [t] h1;
    let s' := mkADS (S (sz s)) (InternalNode vs cs) (left_leaf s) in
    it ← find s' key; Some ((it, true), (s', h2))
  end.

(** [erase]; the root shrinks on [MERGE] when it is an internal node left
    without separators.  [--sz] is [pred]: a key was removed, so [sz > 0]
    on every state the container reaches. *)
Definition erase (s : ADS_set) (h : heap) (key : Z)
    : option (nat * (ADS_set * heap)) :=
  '(res, t, h1) ← remove_elem N (root s) key h;
  match res with
  | EraseMsg.SUCCESS => Some (1, (mkADS (pred (sz s)) t (left_leaf s), h1))
  | EraseMsg.NOT_EXISTENT => Some (0, (mkADS (sz s) t (left_leaf s), h1))
  | EraseMsg.MERGE =>
    t' ← (match t with
          | InternalNode vs cs => if length vs =? 0 then cs !! 0 else Some t
          | ExternalNode _ _ => Some t
          end);
    Some (1, (mkADS (pred (sz s)) t' (left_leaf s), h1))
  end.

(** [clear]. *)
Definition clear (s : ADS_set) (h : heap) : ADS_set * heap :=
  construct (free_tree (root s) h).

(** [begin] and [end]. *)
Definition begin (s : ADS_set) : Iterator :=
  if sz s =? 0 then end_iterator else mkIterator (Some (left_leaf s)) 0.

(** Iterating the container: the keys visited from [begin()] to [end()],
    in at most [sz] rounds. *)
Definition iterate (s : ADS_set) (h : heap) : option (list Z) :=
  walk (sz s) (leaf_of (root s)) h (begin s).

(** Several containers sharing one heap, addressed by reference. *)
Abbreviation objects := (gmap nat ADS_set).

(** Following a leaf handle into whichever container owns the leaf. *)
Definition world_leaf (objs : objects) (n : nat) : option (list Z) :=
  foldr (fun (o : ADS_set) acc =>
           match leaf_of (root o) n with Some v => Some v | None => acc end)
        None (map snd (map_to_list objs)).

(** [insert(InputIt first, InputIt last)] on the container [this], for at
    most [fuel] rounds; [*first] and [++first] follow handles in the current
    state of every container. *)
Fixpoint insert_range (fuel : nat) (objs : objects) (h : heap) (this : nat)
    (first last : Iterator) : option (objects * heap) :=
  if iterator_eqb first last then Some (objs, h)
  else
    match fuel with
    | O => None
    | S f =>
      x ← deref (world_leaf objs) first;
      d ← objs !! this;
      '(_, (d', h')) ← insert d h x;
      let objs' := <[this := d']> objs in
      first' ← incr (world_leaf objs') h' first;
      insert_range f objs' h' this first' last
    end.

(** [ADS_set &operator=(const ADS_set &other)] on [this], with [other]
    given by reference: [clear(); insert(other.begin(), other.end());]. *)
Definition assign (fuel : nat) (objs : objects) (h : heap) (this other : nat)
    : option (objects * heap) :=
  d ← objs !! this;
  let '(d1, h1) := clear d h in
  let objs1 := <[this := d1]> objs in
  o ← objs1 !! other;
  insert_range fuel objs1 h1 this (begin o) end_iterator.

(** [size] and [empty]. *)
Definition size (s : ADS_set) : nat := sz s.

Definition empty (s : ADS_set) : bool := sz s =? 0.

(** [void insert(std::initializer_list<key_type> ilist)]: [insert] of each
    key in turn. *)
Fixpoint insert_list (s : ADS_set) (h : heap) (ilist : list Z) : option (ADS_set * heap) :=
  match ilist with
  | [] => Some (s, h)
  | elem :: rest => '(_, (s', h')) ← insert s h elem; insert_list s' h' rest
  end.

(** [ADS_set(std::initializer_list<key_type> ilist)]: [ADS_set()], then
    [insert] of each key. *)
Definition from_list (ilist : list Z) (h : heap) : option (ADS_set * heap) :=
  let '(s, h1) := construct h in insert_list s h1 ilist.

(** [ADS_set &operator=(std::initializer_list<key_type> ilist)]:
    [clear(); insert(ilist);]. *)
Definition assign_list (s : ADS_set) (h : heap) (ilist : list Z) : option (ADS_set * heap) :=
  let '(s1, h1) := clear s h in insert_list s1 h1 ilist.

(** The loop of [operator==]: [while (lit != this->end()) { if (!key_equal{}( *lit, *rit))
    return false; ++lit; ++rit; } return true;], for at most [fuel] rounds;
    [lit] reads the leaves of [this], [rit] those of [rhs]. *)
Fixpoint equal_loop (fuel : nat) (vl vr : nat -> option (list Z)) (h : heap)
    (lit rit : Iterator) : option bool :=
  if iterator_eqb lit end_iterator then Some true
  else
    match fuel with
    | O => None
    | S f =>
      x ← deref vl lit; y ← deref vr rit;
      if negb (x =? y)%Z then Some false
      else (lit' ← incr vl h lit; rit' ← incr vr h rit; equal_loop f vl vr h lit' rit')
    end.

(** [bool operator==(const ADS_set &rhs) const]: [sz] first, then the loop
    from [begin()], which runs [sz] rounds. *)
Definition equal (s rhs : ADS_set) (h : heap) : option bool :=
  if negb (sz s =? sz rhs) then Some false
  else equal_loop (sz s) (leaf_of (root s)) (leaf_of (root rhs)) h (begin s) (begin rhs).

(** [bool operator!=(const ADS_set &rhs) const]. *)
Definition not_equal (s rhs : ADS_set) (h : heap) : option bool :=
  b ← equal s rhs h; Some (negb b).

(** [ADS_set(const ADS_set &other): ADS_set() { insert(other.begin(), other.end()); }]:
    the new container is [this], a reference not in use before. *)
Definition copy (fuel : nat) (objs : objects) (h : heap) (this other : nat)
    : option (objects * heap) :=
  let '(d, h1) := construct h in
  let objs1 := <[this := d]> objs in
  o ← objs1 !! other;
  insert_range fuel objs1 h1 this (begin o) end_iterator.

End Ops.
End ADS.

(** ** The invariants of a well-formed tree *)

Section Invariants.
Variable N : nat.

(** All leaves at depth [d]; an internal node has one child more than
    separators. *)
Inductive bal : nat -> Node -> Prop :=
| bal_ext id v : bal 0 (ExternalNode id v)
| bal_int d vs cs :
    length cs = S (length vs) -> Forall (bal d) cs -> bal (S d) (InternalNode vs cs).

(** Every node of the subtree holds between [N] and [2N] keys. *)
Inductive filled : Node -> Prop :=
| filled_ext id v : N <= length v <= 2 * N -> filled (ExternalNode id v)
| filled_int vs cs :
    N <= length vs <= 2 * N -> Forall filled cs -> filled (InternalNode vs cs).

(** Every node strictly below the root is [filled]. *)
Definition sub_filled (t : Node) : Prop :=
  match t with
  | ExternalNode _ _ => True
  | InternalNode _ cs => Forall filled cs
  end.

(** The root: at most [2N] keys, an internal root has a separator. *)
Definition root_ok (t : Node) : Prop :=
  node_size t <= 2 * N /\ sub_filled t /\
  match t with InternalNode vs _ => 1 <= length vs | ExternalNode _ _ => True end.

End Invariants.

(** [d] is a node strictly below [t]. *)
Inductive descendant : Node -> Node -> Prop :=
| desc_child vs cs c : In c cs -> descendant c (InternalNode vs cs)
| desc_deep vs cs c d : In c cs -> descendant d c -> descendant d (InternalNode vs cs).

(** Key intervals: [lo <= x < hi], [None] for no bound. *)
Definition above (lo : option Z) (x : Z) : Prop :=
  match lo with Some l => (l <= x)%Z | None => True end.

Definition below (hi : option Z) (x : Z) : Prop :=
  match hi with Some u => (x < u)%Z | None => True end.

Definition in_range (lo hi : option Z) (x : Z) : Prop := above lo x /\ below hi x.

Definition at_most (hi : option Z) (x : Z) : Prop :=
  match hi with Some u => (x <= u)%Z | None => True end.

(** The search-tree order: the keys of a leaf are strictly sorted and lie
    in the interval [lo, hi) the path to the leaf allows; the separators of
    an internal node are non-decreasing, lie in [lo, hi], and
    [children[i]] lies in [values[i-1], values[i]). *)
Inductive routed : option Z -> option Z -> Node -> Prop :=
| routed_ext lo hi id v :
    StronglySorted Z.lt v -> Forall (in_range lo hi) v ->
    routed lo hi (ExternalNode id v)
| routed_int lo hi vs cs :
    routed_seq lo hi vs cs -> routed lo hi (InternalNode vs cs)
(** [routed_seq lo hi vs cs]: the separators [vs] and the children [cs] of
    a node of interval [lo, hi). *)
with routed_seq : option Z -> option Z -> list Z -> list Node -> Prop :=
| routed_last lo hi c :
    routed lo hi c -> routed_seq lo hi [] [c]
| routed_cons lo hi v vs c cs :
    above lo v -> at_most hi v -> routed lo (Some v) c ->
    routed_seq (Some v) hi vs cs -> routed_seq lo hi (v :: vs) (c :: cs).

(** A prefix of separators and children ([length vs = length cs]) of a node
    of interval [lo, hi), after which the next child starts at [b]. *)
Inductive routed_pre : option Z -> option Z -> list Z -> list Node -> option Z -> Prop :=
| routed_pre_nil lo hi : routed_pre lo hi [] [] lo
| routed_pre_cons lo hi v vs c cs b :
    above lo v -> at_most hi v -> routed lo (Some v) c ->
    routed_pre (Some v) hi vs cs b -> routed_pre lo hi (v :: vs) (c :: cs) b.

(** The leaf handles of a subtree from left to right. *)
Definition ids (t : Node) : list nat := map fst (leaves t).

(** The neighbour pointers of the leaves [l], in this order, form a doubly
    linked list whose first element points back to [prev]. *)
Fixpoint chain (prev : option nat) (l : list nat) (h : heap) : Prop :=
  match l with
  | [] => True
  | x :: l' => h !! x = Some (mkLinks prev (head l')) /\ chain (Some x) l' h
  end.

(** The container invariant. *)
Record inv (N : nat) (s : ADS_set) (h : heap) : Prop := {
  inv_bal : exists d, bal d (root s);
  inv_root : root_ok N (root s);
  inv_routed : routed None None (root s);
  inv_nodup : NoDup (ids (root s));
  inv_chain : chain None (ids (root s)) h;
  inv_left : head (ids (root s)) = Some (left_leaf s);
  inv_sz : sz s = length (keys (root s))
}.

(** The states the public operations reach from a constructed container. *)
Inductive reachable (N : nat) : ADS_set -> heap -> Prop :=
| reach_construct h0 :
    reachable N (fst (ADS.construct h0)) (snd (ADS.construct h0))
| reach_insert s h k r s' h' :
    reachable N s h -> ADS.insert N s h k = Some (r, (s', h')) -> reachable N s' h'
| reach_erase s h k r s' h' :
    reachable N s h -> ADS.erase N s h k = Some (r, (s', h')) -> reachable N s' h'
| reach_clear s h :
    reachable N s h -> reachable N (fst (ADS.clear s h)) (snd (ADS.clear s h)).

(** ** Definitions used by the proofs *)

Scheme routed_mut := Induction for routed Sort Prop
  with routed_seq_mut := Induction for routed_seq Sort Prop.

Definition next_bound (V : list Z) (hi : option Z) : option Z :=
  match V with v :: _ => Some v | [] => hi end.

Fixpoint chain_pre (prev : option nat) (P : list nat) (nxt : option nat) (h : heap) : Prop :=
  match P with
  | [] => True
  | x :: P' =>
    h !! x = Some (mkLinks prev (match P' with [] => nxt | y :: _ => Some y end)) /\
    chain_pre (Some x) P' nxt h
  end.

Fixpoint last_or (prev : option nat) (P : list nat) : option nat :=
  match P with [] => prev | x :: P' => last_or (Some x) P' end.

Section Posts.
Variable N : nat.

Definition add_post (t : Node) (k : Z) (h : heap) (P Q : list nat) (d : nat)
    (lo hi : option Z) (res : InsertMsg.t * Node * heap) : Prop :=
  let '(r, t', h') := res in
  bal d t' /\ routed lo hi t' /\ NoDup (P ++ ids t' ++ Q) /\
  chain None (P ++ ids t' ++ Q) h' /\ head (ids t') = head (ids t) /\
  match r with
  | InsertMsg.EXISTS => t' = t /\ h' = h /\ k ∈ keys t
  | InsertMsg.SUCCESS =>
    (k ∉ keys t) /\ keys t' ≡ₚ k :: keys t /\ root_ok N t' /\ node_size t <= node_size t'
  | InsertMsg.SPLIT =>
    (k ∉ keys t) /\ keys t' ≡ₚ k :: keys t /\ node_size t' = S (2 * N) /\ sub_filled N t'
  end.

Definition merge_post (d : nat) (lo hi : option Z) (vs : list Z) (cs : list Node)
    (P Q : list nat) (res : list Z * list Node * heap) : Prop :=
  let '(vs2, cs2, h2) := res in
  length cs2 = S (length vs2) /\ length vs2 <= length vs <= S (length vs2) /\
  Forall (filled N) cs2 /\ Forall (bal d) cs2 /\ routed_seq lo hi vs2 cs2 /\
  concat (map keys cs2) = concat (map keys cs) /\
  NoDup (P ++ concat (map ids cs2) ++ Q) /\ chain None (P ++ concat (map ids cs2) ++ Q) h2 /\
  head (concat (map ids cs2)) = head (concat (map ids cs)).

Definition remove_post (t : Node) (k : Z) (h : heap) (P Q : list nat) (d : nat)
    (lo hi : option Z) (res : EraseMsg.t * Node * heap) : Prop :=
  let '(r, t', h') := res in
  bal d t' /\ routed lo hi t' /\ NoDup (P ++ ids t' ++ Q) /\
  chain None (P ++ ids t' ++ Q) h' /\ head (ids t') = head (ids t) /\
  match r with
  | EraseMsg.NOT_EXISTENT => t' = t /\ h' = h /\ k ∉ keys t
  | EraseMsg.SUCCESS =>
    k ∈ keys t /\ keys t ≡ₚ k :: keys t' /\ root_ok N t' /\
    (N <= node_size t' \/ node_size t' = node_size t) /\
    node_size t' <= node_size t <= S (node_size t')
  | EraseMsg.MERGE =>
    k ∈ keys t /\ keys t ≡ₚ k :: keys t' /\ node_size t' < N /\ sub_filled N t' /\
    node_size t' <= node_size t <= S (node_size t')
  end.

End Posts.

(** The output of a fusion that is not split again. *)
Definition fuse_shape (N pos : nat) (vs : list Z) (cs : list Node)
    (res : list Z * list Node * heap) : Prop :=
  exists p f h2, (pos = p \/ pos = S p) /\
    res = (take p vs ++ drop (S p) vs, take p cs ++ f :: drop (S (S p)) cs, h2) /\
    node_size f <= match f with ExternalNode _ _ => 2 * N - 1 | InternalNode _ _ => 2 * N end.

(** A sequence of [insert] calls on one container, one per key of [ks]. *)
Fixpoint insert_all (N : nat) (ks : list Z) (s : ADS_set) (h : heap)
    : option (ADS_set * heap) :=
  match ks with
  | [] => Some (s, h)
  | k :: ks' => '(_, (s', h')) ← ADS.insert N s h k; insert_all N ks' s' h'
  end.

(** Three leaves under one parent, the middle one underfull for [N = 3]. *)
Definition cs_tie : list Node :=
  [ExternalNode 1 [1; 2; 3; 4]; ExternalNode 2 [10; 11]; ExternalNode 3 [20; 21; 22; 23]]%Z.

(** The neighbour pointers of two chained leaves [0] and [1]. *)
Definition h_pair : heap :=
  <[0 := mkLinks None (Some 1)]> (<[1 := mkLinks (Some 0) None]> ∅).

(** One container holding the key 5. *)
Definition objs_one : gmap nat ADS_set :=
  {[0 := mkADS 1 (ExternalNode 0 [5]%Z) 0]}.

(** ** Lemmas: positions and searches *)

Lemma apply_at_spec {A} (f : Node -> option (A * Node * heap)) pos l :
  apply_at f pos l =
  (c ← l !! pos; '(r, c', h') ← f c; Some (r, <[pos := c']> l, h')).
Proof.
  revert pos; induction l as [|c l IH]; intros [|p]; simpl; auto.
  - rewrite IH. destruct (l !! p) as [c'|]; simpl; auto.
    destruct (f c') as [[[r c''] h']|]; reflexivity.
Qed.

Lemma read_at_spec {A} (f : Node -> option A) pos l :
  read_at f pos l = (c ← l !! pos; f c).
Proof.
  revert pos; induction l as [|c l IH]; intros [|p]; simpl; auto.
Qed.

Lemma find_pos_le vs k : find_pos vs k <= length vs.
Proof.
  induction vs as [|x vs IH]; simpl; [lia|].
  destruct (k <? x)%Z; lia.
Qed.

Lemma find_pos_before vs k j x :
  j < find_pos vs k -> vs !! j = Some x -> (x <= k)%Z.
Proof.
  revert j; induction vs as [|y vs IH]; intros j Hj Hx; simpl in *; [lia|].
  destruct (Z.ltb_spec k y); [lia|].
  destruct j as [|j]; simpl in Hx.
  - injection Hx as ->; lia.
  - apply (IH j); [lia | exact Hx].
Qed.

Lemma find_pos_at vs k x : vs !! find_pos vs k = Some x -> (k < x)%Z.
Proof.
  induction vs as [|y vs IH]; simpl; [discriminate|].
  destruct (Z.ltb_spec k y); simpl.
  - intros Hx; injection Hx as ->; lia.
  - exact IH.
Qed.

Lemma SS_lookup (v : list Z) i j a b :
  StronglySorted Z.lt v -> i < j -> v !! i = Some a -> v !! j = Some b -> (a < b)%Z.
Proof.
  revert i j; induction v as [|y v IH]; intros i j HS Hij Ha Hb; [discriminate|].
  inversion HS as [|? ? HS' Hall]; subst.
  destruct i as [|i], j as [|j]; simpl in *; try lia.
  - injection Ha as ->. rewrite Forall_forall in Hall.
    apply Hall. eapply list_elem_of_lookup_2; eauto.
  - apply (IH i j); auto; lia.
Qed.

Lemma SS_cons_iff (a : Z) l :
  StronglySorted Z.lt (a :: l) <->
  StronglySorted Z.lt l /\ (forall y, y ∈ l -> (a < y)%Z).
Proof.
  split.
  - intros H; inversion H as [|? ? H1 H2]; subst. rewrite Forall_forall in H2; auto.
  - intros [H1 H2]; constructor; auto. apply Forall_forall; auto.
Qed.

Lemma SS_app (l1 l2 : list Z) :
  StronglySorted Z.lt (l1 ++ l2) <->
  StronglySorted Z.lt l1 /\ StronglySorted Z.lt l2 /\
  (forall x y, x ∈ l1 -> y ∈ l2 -> (x < y)%Z).
Proof.
  induction l1 as [|a l1 IH]; simpl.
  - split; [intros H; repeat split; auto; [constructor | intros x y Hx; inversion Hx] | tauto].
  - rewrite !SS_cons_iff, IH. setoid_rewrite elem_of_cons.
    setoid_rewrite elem_of_app. split.
    + intros [(A & B & C) D]. repeat split; auto.
      intros x y [->|Hx] Hy; auto.
    + intros ((A & A') & B & C). repeat split; auto.
      intros y [Hy|Hy]; auto.
Qed.

Lemma bsearch_sound fuel v k lo hi :
  (0 <= lo)%Z -> bsearch fuel v k lo hi <> (-1)%Z ->
  (0 <= bsearch fuel v k lo hi)%Z /\ v !! Z.to_nat (bsearch fuel v k lo hi) = Some k.
Proof.
  revert lo hi; induction fuel as [|f IH]; intros lo hi Hlo; simpl; [congruence|].
  destruct (Z.leb_spec lo hi); [|congruence].
  assert (0 <= (hi - lo) / 2)%Z by (apply Z.div_pos; lia).
  destruct (v !! Z.to_nat (lo + (hi - lo) / 2)) as [x|] eqn:Hx; [|congruence].
  destruct (Z.eqb_spec x k) as [->|].
  - intros _; split; [lia | exact Hx].
  - destruct (Z.ltb_spec x k); intros Hne; apply IH; auto; lia.
Qed.

Lemma bsearch_complete fuel v k lo hi i :
  StronglySorted Z.lt v -> v !! i = Some k -> (0 <= lo)%Z ->
  (lo <= Z.of_nat i <= hi)%Z -> (hi < Z.of_nat (length v))%Z ->
  (hi - lo < Z.of_nat fuel)%Z -> bsearch fuel v k lo hi <> (-1)%Z.
Proof.
  intros HS Hi. revert lo hi; induction fuel as [|f IH]; intros lo hi Hlo Hin Hhi Hf;
    simpl; [lia|].
  destruct (Z.leb_spec lo hi); [|lia].
  assert (0 <= (hi - lo) / 2 <= hi - lo)%Z.
  { split; [apply Z.div_pos; lia | apply Z.div_le_upper_bound; lia]. }
  set (mid := (lo + (hi - lo) / 2)%Z).
  destruct (lookup_lt_is_Some_2 v (Z.to_nat mid)) as [x Hx]; [lia|].
  rewrite Hx.
  destruct (Z.eqb_spec x k) as [->|Hne]; [lia|].
  assert (Z.to_nat mid <> i) by (intros <-; congruence).
  destruct (Z.ltb_spec x k).
  - apply IH; try lia.
    destruct (Nat.lt_ge_cases i (Z.to_nat mid)); [|lia].
    pose proof (SS_lookup v i (Z.to_nat mid) k x HS ltac:(lia) Hi Hx); lia.
  - apply IH; try lia.
    destruct (Nat.lt_ge_cases (Z.to_nat mid) i); [|lia].
    pose proof (SS_lookup v (Z.to_nat mid) i x k HS ltac:(lia) Hx Hi); lia.
Qed.

Lemma ext_find_pos_sound v k :
  ext_find_pos v k <> (-1)%Z ->
  (0 <= ext_find_pos v k)%Z /\ v !! Z.to_nat (ext_find_pos v k) = Some k.
Proof.
  unfold ext_find_pos. destruct (length v =? 0); [congruence|].
  apply bsearch_sound; lia.
Qed.

Lemma ext_find_pos_complete v k :
  StronglySorted Z.lt v -> k ∈ v -> ext_find_pos v k <> (-1)%Z.
Proof.
  intros HS Hin. apply list_elem_of_lookup in Hin as [i Hi].
  pose proof (lookup_lt_Some _ _ _ Hi).
  unfold ext_find_pos. destruct (Nat.eqb_spec (length v) 0); [lia|].
  eapply bsearch_complete; eauto; lia.
Qed.

Lemma ext_find_pos_iff v k :
  StronglySorted Z.lt v -> (ext_find_pos v k = (-1)%Z <-> k ∉ v).
Proof.
  intros HS; split.
  - intros He Hin. exact (ext_find_pos_complete v k HS Hin He).
  - intros Hn. destruct (Z.eq_dec (ext_find_pos v k) (-1)%Z) as [|Hne]; auto.
    destruct (ext_find_pos_sound v k Hne) as [_ Hl].
    exfalso; apply Hn. eapply list_elem_of_lookup_2; eauto.
Qed.

(** ** Keys, handles and the search order *)

Lemma keys_ext id v : keys (ExternalNode id v) = v.
Proof. unfold keys; simpl. apply app_nil_r. Qed.

Lemma keys_int vs cs : keys (InternalNode vs cs) = concat (map keys cs).
Proof.
  unfold keys; simpl. induction cs as [|c cs IH]; simpl; auto.
  rewrite map_app, concat_app, IH. reflexivity.
Qed.

Lemma ids_ext id v : ids (ExternalNode id v) = [id].
Proof. reflexivity. Qed.

Lemma ids_int vs cs : ids (InternalNode vs cs) = concat (map ids cs).
Proof.
  unfold ids; simpl. induction cs as [|c cs IH]; simpl; auto.
  rewrite map_app, IH. reflexivity.
Qed.

Lemma in_range_up lo v hi x :
  in_range lo (Some v) x -> at_most hi v -> in_range lo hi x.
Proof. destruct hi; unfold in_range, at_most; simpl; intuition lia. Qed.

Lemma in_range_down lo v hi x :
  in_range (Some v) hi x -> above lo v -> in_range lo hi x.
Proof. destruct lo; unfold in_range, above; simpl; intuition lia. Qed.

(** The keys of a routed subtree are sorted and lie in its interval. *)
Lemma routed_keys lo hi t :
  routed lo hi t -> Forall (in_range lo hi) (keys t) /\ StronglySorted Z.lt (keys t).
Proof.
  revert lo hi t.
  apply (routed_mut
    (fun lo hi t _ => Forall (in_range lo hi) (keys t) /\ StronglySorted Z.lt (keys t))
    (fun lo hi vs cs _ => Forall (in_range lo hi) (concat (map keys cs)) /\
                          StronglySorted Z.lt (concat (map keys cs)))).
  - intros lo hi id v HS HF. rewrite keys_ext; auto.
  - intros lo hi vs cs _ IH. rewrite keys_int; auto.
  - intros lo hi c _ [IH1 IH2]. simpl. rewrite app_nil_r; auto.
  - intros lo hi v vs c cs Ha Hm _ [IH1 IH2] _ [IH3 IH4]. simpl. split.
    + apply Forall_app; split.
      * eapply Forall_impl; [exact IH1|]. intros x Hx; eapply in_range_up; eauto.
      * eapply Forall_impl; [exact IH3|]. intros x Hx; eapply in_range_down; eauto.
    + apply SS_app; repeat split; auto.
      intros x y Hx Hy. rewrite Forall_forall in IH1, IH3.
      destruct (IH1 x Hx) as [_ Hx']. destruct (IH3 y Hy) as [Hy' _].
      simpl in *. lia.
Qed.

Lemma routed_seq_app lo hi V1 C1 V2 C2 :
  length V1 = length C1 ->
  routed_seq lo hi (V1 ++ V2) (C1 ++ C2) <->
  exists b, routed_pre lo hi V1 C1 b /\ routed_seq b hi V2 C2.
Proof.
  revert lo C1; induction V1 as [|v V1 IH]; intros lo [|c C1] Hl; simpl in *;
    try discriminate.
  - split; [intros H; exists lo; split; [constructor | exact H]|].
    intros (b & Hb & H). inversion Hb; subst; exact H.
  - injection Hl as Hl. split.
    + intros H; inversion H as [|? ? ? ? ? ? Ha Hm Hc Hs]; subst.
      apply IH in Hs as (b & Hb & Hr); auto.
      exists b; split; auto. constructor; auto.
    + intros (b & Hb & Hr). inversion Hb; subst.
      constructor; auto. apply IH; eauto.
Qed.

(** The bound after the prefix is its last separator, or [lo]. *)
Lemma routed_pre_bound lo hi V C b :
  routed_pre lo hi V C b -> b = lo \/ exists v, b = Some v /\ v ∈ V.
Proof.
  induction 1 as [|lo hi v vs c cs b _ _ _ _ IH]; auto.
  right. destruct IH as [->|(w & -> & Hw)]; eexists; split; eauto; set_solver.
Qed.

Lemma routed_seq_head lo hi V c C :
  routed_seq lo hi V (c :: C) -> routed lo (next_bound V hi) c.
Proof. inversion 1; subst; auto. Qed.

Lemma routed_seq_replace_head lo hi V c c' C :
  routed_seq lo hi V (c :: C) -> routed lo (next_bound V hi) c' ->
  routed_seq lo hi V (c' :: C).
Proof. inversion 1; subst; simpl; intros; constructor; auto. Qed.

Lemma routed_pre_mono lo hi V C b v :
  routed_pre lo hi V C b -> lo = Some v -> exists w, b = Some w /\ (v <= w)%Z.
Proof.
  intros H; revert v; induction H as [lo hi|lo hi u vs c cs b Ha _ _ _ IH];
    intros v ->; [eauto with lia|].
  destruct (IH u eq_refl) as (w & -> & Hw). simpl in Ha. eauto with lia.
Qed.

Lemma routed_pre_keys_below lo hi V C b :
  routed_pre lo hi V C b -> forall x, x ∈ concat (map keys C) ->
  exists w, b = Some w /\ (x < w)%Z.
Proof.
  induction 1 as [lo hi|lo hi u vs c cs b Ha Hm Hc Hp IH]; simpl; intros x Hx.
  - inversion Hx.
  - apply elem_of_app in Hx as [Hx|Hx]; auto.
    destruct (routed_keys _ _ _ Hc) as [HF _]. rewrite Forall_forall in HF.
    destruct (HF x Hx) as [_ Hb]. simpl in Hb.
    destruct (routed_pre_mono _ _ _ _ _ u Hp eq_refl) as (w & -> & Hw).
    exists w; split; auto; lia.
Qed.

Lemma routed_seq_keys lo hi V C :
  routed_seq lo hi V C -> Forall (in_range lo hi) (concat (map keys C)).
Proof.
  intros H. destruct (routed_keys lo hi (InternalNode V C)) as [HF _];
    [constructor; auto|]. rewrite keys_int in HF. exact HF.
Qed.

Lemma take_lookup_before {A} (l : list A) n j x :
  take n l !! j = Some x -> j < n /\ l !! j = Some x.
Proof.
  intros Hj. pose proof (lookup_lt_Some _ _ _ Hj) as Hlt.
  rewrite length_take in Hlt. rewrite lookup_take_lt in Hj by lia. split; [lia | exact Hj].
Qed.

(** Descending to [children[find_pos(k)]]: the child's interval contains
    [k], and [k] is stored below the node iff it is stored in that child. *)
Lemma routed_descend lo hi vs cs k c :
  routed_seq lo hi vs cs -> in_range lo hi k -> cs !! find_pos vs k = Some c ->
  exists b, routed_pre lo hi (take (find_pos vs k) vs) (take (find_pos vs k) cs) b /\
    routed_seq b hi (drop (find_pos vs k) vs) (c :: drop (S (find_pos vs k)) cs) /\
    in_range b (next_bound (drop (find_pos vs k) vs) hi) k /\
    (k ∈ concat (map keys cs) <-> k ∈ keys c).
Proof.
  intros HR Hk Hc. set (pos := find_pos vs k) in *.
  pose proof (find_pos_le vs k) as Hle. fold pos in Hle.
  pose proof (lookup_lt_Some _ _ _ Hc) as Hlt.
  assert (Hcs : cs = take pos cs ++ c :: drop (S pos) cs)
    by (symmetry; apply take_drop_middle; auto).
  assert (Hvs : vs = take pos vs ++ drop pos vs) by (symmetry; apply take_drop).
  assert (HR' := HR). rewrite Hvs, Hcs in HR'.
  apply routed_seq_app in HR' as (b & Hpre & Hseq);
    [|rewrite !length_take; lia].
  assert (Hab : above b k).
  { destruct (routed_pre_bound _ _ _ _ _ Hpre) as [->|(v & -> & Hv)];
      [apply Hk|].
    apply list_elem_of_lookup in Hv as [j Hj].
    apply take_lookup_before in Hj as [Hj1 Hj2].
    simpl. eapply find_pos_before; eauto. }
  assert (Hbe : below (next_bound (drop pos vs) hi) k).
  { destruct (drop pos vs) as [|v V] eqn:Hd; simpl; [apply Hk|].
    assert (vs !! pos = Some v) by (rewrite <- (Nat.add_0_r pos), <- lookup_drop, Hd; reflexivity).
    eapply find_pos_at; eauto. }
  exists b; repeat split; auto.
  - rewrite Hcs, map_app, concat_app. simpl. rewrite elem_of_app, elem_of_app.
    intros [Hx|[Hx|Hx]]; auto; exfalso.
    + apply (routed_pre_keys_below _ _ _ _ _ Hpre) in Hx as (w & -> & Hw).
      simpl in Hab; lia.
    + revert Hbe Hx Hseq. generalize (drop pos vs) (drop (S pos) cs).
      intros V C Hbe Hx Hseq.
      inversion Hseq as [|? ? v V' ? ? Ha Hm Hc' Hs]; subst; [inversion Hx|].
      apply routed_seq_keys in Hs. rewrite Forall_forall in Hs.
      destruct (Hs k Hx) as [Hv _]. simpl in *. lia.
  - intros Hx. rewrite Hcs, map_app, concat_app. simpl.
    rewrite elem_of_app, elem_of_app. auto.
Qed.

(** ** The leaf chain *)

Lemma chain_app prev P L h :
  chain prev (P ++ L) h <-> chain_pre prev P (head L) h /\ chain (last_or prev P) L h.
Proof.
  revert prev; induction P as [|x P IH]; intros prev; simpl.
  - tauto.
  - rewrite IH. destruct P; simpl; tauto.
Qed.

Lemma chain_frame prev L h h' :
  (forall x, x ∈ L -> h' !! x = h !! x) -> chain prev L h -> chain prev L h'.
Proof.
  revert prev; induction L as [|x L IH]; intros prev Hf; simpl; auto.
  intros [Hx Hc]. rewrite Hf by set_solver. split; auto.
  apply IH; auto. intros y Hy; apply Hf; set_solver.
Qed.

Lemma chain_pre_frame prev L nxt h h' :
  (forall x, x ∈ L -> h' !! x = h !! x) -> chain_pre prev L nxt h -> chain_pre prev L nxt h'.
Proof.
  revert prev; induction L as [|x L IH]; intros prev Hf; simpl; auto.
  intros [Hx Hc]. rewrite Hf by set_solver. split; auto.
  apply IH; auto. intros y Hy; apply Hf; set_solver.
Qed.

Lemma chain_dom prev L h x : chain prev L h -> x ∈ L -> is_Some (h !! x).
Proof.
  revert prev; induction L as [|y L IH]; intros prev; simpl; [set_solver|].
  intros [Hy Hc] Hx. apply elem_of_cons in Hx as [->|Hx]; eauto.
Qed.

(** Splicing a fresh leaf [r] in after the leaf [x]. *)
Lemma chain_split_leaf prev x S h r :
  chain prev (x :: S) h -> NoDup (x :: S) -> h !! r = None ->
  exists h2 h3,
    (match head S with
     | Some o => set_left o (Some r) (<[r := mkLinks (Some x) (head S)]> h)
     | None => Some (<[r := mkLinks (Some x) (head S)]> h)
     end) = Some h2 /\
    set_right x (Some r) h2 = Some h3 /\
    chain prev (x :: r :: S) h3 /\
    (forall y, y <> x -> y <> r -> y ∉ S -> h3 !! y = h !! y).
Proof.
  intros [Hx Hc] Hnd Hr. apply NoDup_cons in Hnd as [HxS HndS].
  assert (Hrx : r <> x) by (intros ->; congruence).
  assert (HrS : r ∉ S).
  { intros Hin. destruct (chain_dom _ _ _ _ Hc Hin) as [? Hs]; congruence. }
  destruct S as [|o S'].
  - simpl. do 2 eexists; split; [reflexivity|].
    unfold set_right. rewrite lookup_insert_ne by congruence. rewrite Hx. simpl.
    split; [reflexivity|]. split.
    + simpl. rewrite lookup_insert_eq. split; auto.
      rewrite lookup_insert_ne by congruence. rewrite lookup_insert_eq. auto.
    + intros y Hy1 Hy2 _. rewrite !lookup_insert_ne by congruence. reflexivity.
  - simpl in Hc |- *. destruct Hc as [Ho Hc].
    assert (Hxo : x <> o) by set_solver. assert (Hro : r <> o) by set_solver.
    unfold set_left.
    rewrite lookup_insert_ne by congruence. rewrite Ho. simpl.
    do 2 eexists; split; [reflexivity|].
    unfold set_right.
    rewrite lookup_insert_ne by congruence. rewrite lookup_insert_ne by congruence.
    rewrite Hx. simpl.
    split; [reflexivity|]. split.
    + simpl. rewrite lookup_insert_eq. split; [reflexivity|].
      rewrite lookup_insert_ne by congruence. rewrite lookup_insert_ne by congruence.
      rewrite lookup_insert_eq. split; [reflexivity|].
      rewrite lookup_insert_ne by congruence. rewrite lookup_insert_eq.
      split; [reflexivity|].
      eapply chain_frame; [|exact Hc]. intros y Hy.
      apply NoDup_cons in HndS as [HoS' _].
      rewrite !lookup_insert_ne by set_solver. reflexivity.
    + intros y Hy1 Hy2 Hy3. rewrite !lookup_insert_ne by set_solver. reflexivity.
Qed.

(** Unlinking the leaf [y] that follows [x] (a fusion of [y] into [x]). *)
Lemma chain_fuse_leaf prev x y S h :
  chain prev (x :: y :: S) h -> NoDup (x :: y :: S) ->
  exists h2,
    (h1 ← set_right x (head S) h;
     match head S with
     | Some o => set_left o (Some x) h1
     | None => Some h1
     end) = Some h2 /\
    chain prev (x :: S) (delete y h2) /\
    (forall z, z <> x -> z <> y -> z ∉ S -> delete y h2 !! z = h !! z).
Proof.
  intros [Hx [Hy Hc]] Hnd.
  apply NoDup_cons in Hnd as [HxS Hnd]. apply NoDup_cons in Hnd as [HyS HndS].
  assert (Hxy : x <> y) by set_solver.
  unfold set_right. rewrite Hx. simpl.
  destruct S as [|o S'].
  - simpl. eexists; split; [reflexivity|]. split.
    + simpl. rewrite lookup_delete_ne by congruence. rewrite lookup_insert_eq. auto.
    + intros z Hz1 Hz2 _. rewrite lookup_delete_ne by congruence.
      rewrite lookup_insert_ne by congruence. reflexivity.
  - simpl in Hc |- *. destruct Hc as [Ho Hc].
    assert (Hxo : x <> o) by set_solver. assert (Hyo : y <> o) by set_solver.
    unfold set_left. rewrite lookup_insert_ne by congruence. rewrite Ho. simpl.
    eexists; split; [reflexivity|]. split.
    + simpl. rewrite lookup_delete_ne by congruence.
      rewrite lookup_insert_ne by congruence. rewrite lookup_insert_eq.
      split; [reflexivity|].
      rewrite lookup_delete_ne by congruence. rewrite lookup_insert_eq.
      split; [reflexivity|].
      eapply chain_frame; [|exact Hc]. intros z Hz.
      apply NoDup_cons in HndS as [HoS' _].
      rewrite lookup_delete_ne by set_solver.
      rewrite !lookup_insert_ne by set_solver. reflexivity.
    + intros z Hz1 Hz2 Hz3. rewrite lookup_delete_ne by congruence.
      rewrite !lookup_insert_ne by set_solver. reflexivity.
Qed.

(** ** Lists, orders and halves *)

Lemma below_at_most u x : below u x -> at_most u x.
Proof. destruct u; simpl; lia. Qed.

Lemma routed_seq_at_most_hi b hi V c C x :
  routed_seq b hi V (c :: C) -> at_most (next_bound V hi) x -> at_most hi x.
Proof.
  inversion 1; subst; simpl; auto. intros. destruct hi; simpl in *; auto; lia.
Qed.

Lemma routed_seq_relower lo lo' hi V c c' C :
  routed_seq lo hi V (c :: C) -> routed lo' (next_bound V hi) c' ->
  (forall v, head V = Some v -> above lo' v) -> routed_seq lo' hi V (c' :: C).
Proof.
  inversion 1; subst; simpl; intros; constructor; auto.
Qed.

Lemma routed_pre_le lo hi V C b :
  routed_pre lo hi V C b -> forall v, v ∈ V -> exists w, b = Some w /\ (v <= w)%Z.
Proof.
  induction 1 as [lo hi|lo hi u vs c cs b Ha Hm Hc Hp IH]; intros v Hv;
    [inversion Hv|].
  apply elem_of_cons in Hv as [Hv|Hv]; [subst v|auto].
  destruct (routed_pre_mono _ _ _ _ _ u Hp eq_refl) as (w & -> & Hw); eauto.
Qed.

Lemma routed_pre_hi lo hi hi' V C b :
  routed_pre lo hi V C b -> (forall v, v ∈ V -> at_most hi' v) ->
  routed_pre lo hi' V C b.
Proof.
  induction 1 as [lo hi|lo hi u vs c cs b Ha Hm Hc Hp IH]; intros Hv;
    constructor; auto; [apply Hv; set_solver|].
  apply IH. intros v Hin; apply Hv; set_solver.
Qed.

Lemma routed_pre_above lo hi V C b x :
  routed_pre lo hi V C b -> above b x -> above lo x.
Proof.
  intros Hp Hb. destruct lo as [l|]; simpl; auto.
  destruct (routed_pre_mono _ _ _ _ _ l Hp eq_refl) as (w & -> & Hw).
  simpl in Hb; lia.
Qed.

Lemma SS_take_drop (v : list Z) n :
  StronglySorted Z.lt v -> StronglySorted Z.lt (take n v) /\ StronglySorted Z.lt (drop n v).
Proof.
  intros H. rewrite <- (take_drop n v) in H. apply SS_app in H; tauto.
Qed.

Lemma SS_before (v : list Z) n w x :
  StronglySorted Z.lt v -> v !! n = Some w -> x ∈ take n v -> (x < w)%Z.
Proof.
  intros HS Hw Hx. apply list_elem_of_lookup in Hx as [j Hj].
  apply take_lookup_before in Hj as [Hj1 Hj2]. eapply SS_lookup; eauto.
Qed.

Lemma SS_from (v : list Z) n w x :
  StronglySorted Z.lt v -> v !! n = Some w -> x ∈ drop n v -> (w <= x)%Z.
Proof.
  intros HS Hw Hx. apply list_elem_of_lookup in Hx as [j Hj].
  rewrite lookup_drop in Hj. destruct j as [|j].
  - rewrite Nat.add_0_r, Hw in Hj. injection Hj as ->. lia.
  - pose proof (SS_lookup v n (n + S j) w x HS ltac:(lia) Hw Hj). lia.
Qed.

Lemma half_odd N : S (2 * N) / 2 = N.
Proof.
  replace (S (2 * N)) with (1 + N * 2) by lia. rewrite Nat.div_add by lia. reflexivity.
Qed.

Lemma even_odd N : Nat.even (S (2 * N)) = false.
Proof.
  rewrite Nat.even_succ, Nat.odd_mul. reflexivity.
Qed.

Lemma concat_map_middle {A} (f : Node -> list A) cs pos c :
  cs !! pos = Some c ->
  concat (map f cs) =
  concat (map f (take pos cs)) ++ f c ++ concat (map f (drop (S pos) cs)).
Proof.
  intros Hc. rewrite <- (take_drop_middle cs pos c Hc) at 1.
  rewrite map_app, concat_app. reflexivity.
Qed.

Lemma NoDup_insert_fresh (X Y : list nat) r :
  NoDup (X ++ Y) -> r ∉ X ++ Y -> NoDup (X ++ r :: Y).
Proof.
  intros H Hr. assert (X ++ r :: Y ≡ₚ r :: X ++ Y) as ->
    by (symmetry; apply Permutation_middle).
  apply NoDup_cons; auto.
Qed.

Lemma bind_Some {A B} (x : A) (f : A -> option B) : Some x ≫= f = f x.
Proof. reflexivity. Qed.

(** ** [split] *)

Lemma routed_seq_length lo hi V C : routed_seq lo hi V C -> length C = S (length V).
Proof. induction 1; simpl; auto. Qed.

Lemma head_drop {A} (l : list A) n x : l !! n = Some x -> head (drop n l) = Some x.
Proof. intros H. rewrite head_lookup, lookup_drop, Nat.add_0_r. exact H. Qed.

Lemma chain_pre_dom prev L nxt h x : chain_pre prev L nxt h -> x ∈ L -> is_Some (h !! x).
Proof.
  revert prev; induction L as [|y L IH]; intros prev; simpl; [set_solver|].
  intros [Hy Hc] Hx. apply elem_of_cons in Hx as [->|Hx]; eauto.
Qed.

Lemma in_take {A} (l : list A) n x : x ∈ take n l -> x ∈ l.
Proof. intros H. rewrite <- (take_drop n l). apply elem_of_app; auto. Qed.

Lemma in_drop {A} (l : list A) n x : x ∈ drop n l -> x ∈ l.
Proof. intros H. rewrite <- (take_drop n l). apply elem_of_app; auto. Qed.

Lemma routed_pre_close lo hi hi' V C b c :
  routed_pre lo hi V C b -> (forall v, v ∈ V -> at_most hi' v) -> routed b hi' c ->
  routed_seq lo hi' V (C ++ [c]).
Proof.
  induction 1 as [lo hi|lo hi u vs c' cs b Ha Hm Hc Hp IH]; intros Hv Hcb; simpl.
  - constructor; exact Hcb.
  - constructor; auto; [apply Hv; set_solver|].
    apply IH; auto. intros v Hin; apply Hv; set_solver.
Qed.

Section Split.
Variable N : nat.
Hypothesis HN : 1 <= N.

Lemma split_spec pos vs cs h lo hi P Q d c :
  routed_seq lo hi vs cs -> cs !! pos = Some c ->
  node_size c = S (2 * N) -> sub_filled N c -> bal d c ->
  NoDup (P ++ concat (map ids cs) ++ Q) ->
  chain None (P ++ concat (map ids cs) ++ Q) h ->
  exists w cl cr h',
    split pos vs cs h =
      Some (take pos vs ++ w :: drop pos vs, take pos cs ++ cl :: cr :: drop (S pos) cs, h') /\
    filled N cl /\ filled N cr /\ bal d cl /\ bal d cr /\
    keys cl ++ keys cr = keys c /\
    routed_seq lo hi (take pos vs ++ w :: drop pos vs)
      (take pos cs ++ cl :: cr :: drop (S pos) cs) /\
    NoDup (P ++ concat (map ids (take pos cs ++ cl :: cr :: drop (S pos) cs)) ++ Q) /\
    chain None (P ++ concat (map ids (take pos cs ++ cl :: cr :: drop (S pos) cs)) ++ Q) h' /\
    head (concat (map ids (take pos cs ++ cl :: cr :: drop (S pos) cs))) =
    head (concat (map ids cs)).
Proof.
  intros HR Hc Hsz Hsf Hbal Hnd Hch.
  pose proof (routed_seq_length _ _ _ _ HR) as Hlen.
  pose proof (lookup_lt_Some _ _ _ Hc) as Hpos.
  assert (HR' : routed_seq lo hi (take pos vs ++ drop pos vs)
                  (take pos cs ++ c :: drop (S pos) cs))
    by (rewrite take_drop, take_drop_middle; auto).
  apply routed_seq_app in HR' as (b & Hpre & Hseq); [|rewrite !length_take; lia].
  pose proof (routed_seq_head _ _ _ _ _ Hseq) as Hcr.
  rewrite (concat_map_middle ids cs pos c Hc) in Hnd, Hch |- *.

  set (A := concat (map ids (take pos cs))) in *.
  set (B := concat (map ids (drop (S pos) cs))) in *.
  destruct c as [cid cv|cv cc].
  - inversion Hbal; subst d. change (node_size (ExternalNode cid cv)) with (length cv) in Hsz.
    rewrite ids_ext in Hnd, Hch |- *.
    replace (P ++ (A ++ [cid] ++ B) ++ Q) with ((P ++ A) ++ cid :: (B ++ Q)) in Hch, Hnd
      by (rewrite <- !app_assoc; reflexivity).
    apply chain_app in Hch as [Hchp Hchr].
    pose proof Hchr as [Hcid _].
    pose proof Hnd as Hnd2. apply NoDup_app in Hnd2 as (_ & _ & Hnd2).
    set (r := fresh (dom h)).
    assert (Hr : h !! r = None) by (apply not_elem_of_dom_1, is_fresh).
    destruct (chain_split_leaf _ cid (B ++ Q) h r Hchr Hnd2 Hr) as (h2 & h3 & Hh2 & Hh3 & Hch3 & Hfr).
    destruct (lookup_lt_is_Some_2 cv N) as [w Hw]; [lia|].
    exists w, (ExternalNode cid (take N cv)), (ExternalNode r (drop N cv)), h3.
    split.
    { unfold split. rewrite Hc. rewrite bind_Some. cbv beta iota zeta. rewrite Hsz, even_odd, half_odd, Hcid, bind_Some. cbv beta iota zeta.
      cbn [right_neighbour left_neighbour]. fold r. rewrite Hh2, bind_Some, Hh3, bind_Some.
      rewrite (head_drop _ _ _ Hw), bind_Some. reflexivity. }
    assert (HE : concat (map ids (take pos cs ++ ExternalNode cid (take N cv)
                   :: ExternalNode r (drop N cv) :: drop (S pos) cs)) = A ++ cid :: r :: B)
      by (rewrite map_app, concat_app; simpl; rewrite ?ids_ext; reflexivity).
    rewrite HE.
    inversion Hcr as [? ? ? ? HSS HFr| ]; subst.
    assert (Hwin : w ∈ cv) by (eapply list_elem_of_lookup_2; eauto).
    rewrite Forall_forall in HFr.
    split; [constructor; rewrite length_take; lia|].
    split; [constructor; rewrite length_drop; lia|].
    split; [constructor|]. split; [constructor|].
    split; [rewrite !keys_ext; apply take_drop|].
    split.
    { apply routed_seq_app; [rewrite !length_take; lia|].
      exists b; split; [exact Hpre|].
      destruct (HFr w Hwin) as [Hwa Hwb].
      destruct (SS_take_drop cv N HSS) as [HS1 HS2].
      constructor.
      - exact Hwa.
      - eapply routed_seq_at_most_hi; [exact Hseq|]. apply below_at_most; exact Hwb.
      - constructor; [exact HS1|]. apply Forall_forall. intros x Hx. split.
        + apply HFr. eapply in_take; eauto.
        + simpl. exact (SS_before cv N w x HSS Hw Hx).
      - eapply routed_seq_relower; [exact Hseq| |].
        + constructor; [exact HS2|]. apply Forall_forall. intros x Hx. split.
          * simpl. exact (SS_from cv N w x HSS Hw Hx).
          * apply HFr. eapply in_drop; eauto.
        + intros v Hv. simpl. destruct (drop pos vs) as [|v' V]; [discriminate|].
          simpl in Hv, Hwb. injection Hv as ->. lia. }
    split.
    { replace (P ++ (A ++ cid :: r :: B) ++ Q) with ((P ++ A ++ [cid]) ++ r :: (B ++ Q))
        by (rewrite <- !app_assoc; reflexivity).
      apply NoDup_insert_fresh.
      - replace ((P ++ A ++ [cid]) ++ B ++ Q) with ((P ++ A) ++ cid :: B ++ Q)
          by (rewrite <- !app_assoc; reflexivity). exact Hnd.
      - intros Hin. assert (Hin' : r ∈ (P ++ A) ++ cid :: B ++ Q)
          by (replace ((P ++ A) ++ cid :: B ++ Q) with ((P ++ A ++ [cid]) ++ B ++ Q)
                by (rewrite <- !app_assoc; reflexivity); exact Hin).
        apply elem_of_app in Hin' as [Hin'|Hin'].
        + destruct (chain_pre_dom _ _ _ _ _ Hchp Hin') as [? ?]; congruence.
        + destruct (chain_dom _ _ _ _ Hchr Hin') as [? ?]; congruence. }
    split; [|destruct A; reflexivity].
    replace (P ++ (A ++ cid :: r :: B) ++ Q) with ((P ++ A) ++ cid :: r :: B ++ Q)
      by (rewrite <- !app_assoc; reflexivity).
    apply chain_app. split; [|exact Hch3].
    eapply chain_pre_frame; [|exact Hchp].
    intros x Hx. apply NoDup_app in Hnd as (_ & Hdis & _).
    pose proof (Hdis x Hx) as Hx'.
    apply Hfr; [set_solver| |set_solver].
    intros ->. destruct (chain_pre_dom _ _ _ _ _ Hchp Hx); congruence.
  - inversion Hbal as [|d' ? ? Hlc Hbc]; subst d.
    change (node_size (InternalNode cv cc)) with (length cv) in Hsz.
    simpl in Hsf.
    destruct (lookup_lt_is_Some_2 cv N) as [w Hw]; [lia|].
    destruct (lookup_lt_is_Some_2 cc N) as [cN HcN]; [lia|].
    assert (HE : concat (map ids (take pos cs ++ InternalNode (take N cv) (take (S N) cc)
                   :: InternalNode (drop (S N) cv) (drop (S N) cc) :: drop (S pos) cs)) =
               A ++ concat (map ids cc) ++ B).
    { rewrite map_app, concat_app. cbn [map concat]. rewrite !ids_int.
      rewrite (app_assoc (concat (map ids (take (S N) cc)))).
      rewrite <- concat_app, <- map_app, take_drop. reflexivity. }
    exists w, (InternalNode (take N cv) (take (S N) cc)),
      (InternalNode (drop (S N) cv) (drop (S N) cc)), h. split.
    { unfold split. rewrite Hc, bind_Some. cbv beta iota zeta.
      rewrite Hsz, even_odd, half_odd, Hw, bind_Some. reflexivity. }
    rewrite HE. rewrite ids_int in Hnd, Hch |- *.
    split; [constructor; [rewrite length_take; lia | apply Forall_take; exact Hsf]|].
    split; [constructor; [rewrite length_drop; lia | apply Forall_drop; exact Hsf]|].
    split; [constructor; [rewrite !length_take; lia | apply Forall_take; exact Hbc]|].
    split; [constructor; [rewrite !length_drop; lia | apply Forall_drop; exact Hbc]|].
    split; [rewrite !keys_int, <- concat_app, <- map_app, take_drop; reflexivity|].
    split; [|auto].
    apply routed_seq_app; [rewrite !length_take; lia|].
    exists b; split; [exact Hpre|].
    inversion Hcr as [|? ? ? ? Hcs]; subst.
    assert (Hcs' : routed_seq b (next_bound (drop pos vs) hi) (take N cv ++ drop N cv)
                     (take N cc ++ cN :: drop (S N) cc))
      by (rewrite take_drop, take_drop_middle; auto).
    apply routed_seq_app in Hcs' as (b' & Hpre' & Hseq'); [|rewrite !length_take; lia].
    rewrite (drop_S _ _ _ Hw) in Hseq'.
    inversion Hseq' as [|? ? ? ? ? ? Hwa Hwm HcN' Hrest]; subst.
    constructor.
    + eapply routed_pre_above; eauto.
    + eapply routed_seq_at_most_hi; eauto.
    + constructor. rewrite (take_S_r _ _ _ HcN). eapply routed_pre_close; eauto.
      intros v Hv. destruct (routed_pre_le _ _ _ _ _ Hpre' v Hv) as (u & -> & Hu).
      simpl in Hwa |- *. lia.
    + eapply routed_seq_relower; [exact Hseq| |].
      * constructor. exact Hrest.
      * intros v Hv. destruct (drop pos vs); [discriminate|].
        simpl in Hv, Hwm |- *. injection Hv as ->. exact Hwm.
Qed.
End Split.

(** ** [add_elem] *)

Lemma filled_iff N c : filled N c <-> N <= node_size c <= 2 * N /\ sub_filled N c.
Proof.
  split.
  - inversion 1; subst; simpl; auto.
  - destruct c; simpl; intros [H1 H2]; constructor; auto.
Qed.

Lemma filled_root_ok N c : 1 <= N -> filled N c -> root_ok N c.
Proof.
  intros HN Hf. pose proof Hf as Hf'. apply filled_iff in Hf' as [Hs Hsf].
  split; [lia|]. split; [exact Hsf|]. destruct c; unfold node_size in *; simpl in *; auto; lia.
Qed.

Lemma head_mid {A} (X l1 l2 Y : list A) :
  head l1 = head l2 -> head (X ++ l1 ++ Y) = head (X ++ l2 ++ Y).
Proof.
  intros H. rewrite !head_app. destruct (head X); auto. rewrite H. reflexivity.
Qed.

Lemma concat_map_insert {A} (f : Node -> list A) cs pos c c' :
  cs !! pos = Some c ->
  concat (map f (<[pos := c']> cs)) =
  concat (map f (take pos cs)) ++ f c' ++ concat (map f (drop (S pos) cs)).
Proof.
  intros Hc. pose proof (lookup_lt_Some _ _ _ Hc).
  rewrite insert_take_drop by lia. rewrite map_app, concat_app. reflexivity.
Qed.

Lemma routed_seq_update lo hi vs cs pos b c' :
  length vs = pos + length (drop pos vs) -> pos < length cs ->
  routed_pre lo hi (take pos vs) (take pos cs) b ->
  routed_seq b hi (drop pos vs) (drop pos cs) ->
  routed b (next_bound (drop pos vs) hi) c' ->
  routed_seq lo hi vs (<[pos := c']> cs).
Proof.
  intros Hl Hp Hpre Hseq Hc'. rewrite insert_take_drop by lia.
  rewrite <- (take_drop pos vs). apply routed_seq_app; [rewrite !length_take; lia|].
  exists b; split; auto.
  destruct (drop pos cs) as [|c C] eqn:Hd.
  - apply (f_equal length) in Hd. rewrite length_drop in Hd. simpl in Hd. lia.
  - replace (drop (S pos) cs) with C.
    + eapply routed_seq_replace_head; eauto.
    + rewrite <- (Nat.add_1_r pos), <- drop_drop, Hd. reflexivity.
Qed.

Lemma SS_insert (v : list Z) k :
  StronglySorted Z.lt v -> k ∉ v ->
  StronglySorted Z.lt (take (find_pos v k) v ++ k :: drop (find_pos v k) v).
Proof.
  intros HS Hk. destruct (SS_take_drop v (find_pos v k) HS) as [H1 H2].
  apply SS_app. split; [exact H1|]. split.
  - apply SS_cons_iff. split; [exact H2|].
    intros y Hy. destruct (drop (find_pos v k) v) as [|x V] eqn:Hd; [inversion Hy|].
    assert (Hx : v !! find_pos v k = Some x)
      by (rewrite <- (Nat.add_0_r (find_pos v k)), <- lookup_drop, Hd; reflexivity).
    pose proof (find_pos_at _ _ _ Hx).
    apply elem_of_cons in Hy as [->|Hy]; [lia|].
    rewrite <- Hd in H2. rewrite Hd in H2.
    apply SS_cons_iff in H2 as [_ H2]. specialize (H2 y Hy). lia.
  - intros x y Hx Hy.
    apply list_elem_of_lookup in Hx as [j Hj].
    apply take_lookup_before in Hj as [Hj1 Hj2].
    pose proof (find_pos_before _ _ _ _ Hj1 Hj2).
    assert (x <> k) by (intros ->; apply Hk; eapply list_elem_of_lookup_2; eauto).
    apply elem_of_cons in Hy as [->|Hy]; [lia|].
    assert (Hy' : y ∈ drop (find_pos v k) v) by exact Hy.
    apply list_elem_of_lookup in Hy' as [i Hi]. rewrite lookup_drop in Hi.
    pose proof (SS_lookup v j (find_pos v k + i) x y HS ltac:(lia) Hj2 Hi). lia.
Qed.

Lemma ext_add_elem_spec N v k :
  StronglySorted Z.lt v ->
  (k ∈ v -> ext_add_elem N v k = (InsertMsg.EXISTS, v)) /\
  (k ∉ v -> exists v', ext_add_elem N v k =
     (if 2 * N <? S (length v) then InsertMsg.SPLIT else InsertMsg.SUCCESS, v') /\
     StronglySorted Z.lt v' /\ v' ≡ₚ k :: v).
Proof.
  intros HS. unfold ext_add_elem. split.
  - intros Hk. destruct (Z.eqb_spec (ext_find_pos v k) (-1)) as [E|E].
    + apply ext_find_pos_iff in E; [contradiction | exact HS].
    + reflexivity.
  - intros Hk. pose proof Hk as E. apply (ext_find_pos_iff v k HS) in E.
    rewrite E. cbv beta iota zeta. simpl negb. cbv iota.
    eexists; split; [|split].
    + pose proof (find_pos_le v k). f_equal.
      rewrite length_app, length_cons, length_take, length_drop.
      replace (find_pos v k `min` length v + S (length v - find_pos v k)) with (S (length v))
        by lia. reflexivity.
    + apply SS_insert; auto.
    + rewrite <- Permutation_middle, take_drop. reflexivity.
Qed.

Lemma mid_assoc {A} (P X Y Z Q : list A) :
  (P ++ X) ++ Y ++ (Z ++ Q) = P ++ (X ++ Y ++ Z) ++ Q.
Proof. rewrite <- !app_assoc. reflexivity. Qed.

Lemma concat_map_two {A} (f : Node -> list A) X a b Y :
  concat (map f (X ++ a :: b :: Y)) =
  concat (map f X) ++ (f a ++ f b) ++ concat (map f Y).
Proof. rewrite map_app, concat_app. simpl. rewrite <- !app_assoc. reflexivity. Qed.

Lemma perm_mid (X Y Z : list Z) k :
  X ++ (k :: Y) ++ Z ≡ₚ k :: X ++ Y ++ Z.
Proof. simpl. symmetry. apply Permutation_middle. Qed.

Section Add.
Variable N : nat.
Hypothesis HN : 1 <= N.

Lemma add_spec d : forall t lo hi h P Q k,
  bal d t -> routed lo hi t -> in_range lo hi k -> root_ok N t ->
  NoDup (P ++ ids t ++ Q) -> chain None (P ++ ids t ++ Q) h ->
  exists res, add_elem N t k h = Some res /\ add_post N t k h P Q d lo hi res.
Proof.
  induction d as [|d IH]; intros t lo hi h P Q k Hb HR Hk Hok Hnd Hch.
  - inversion Hb; subst. inversion HR as [? ? ? ? HS HF|]; subst.
    destruct (ext_add_elem_spec N v k HS) as [Hin Hnin].
    simpl. destruct (decide (k ∈ v)) as [Hkv|Hkv].
    + rewrite (Hin Hkv). eexists; split; [reflexivity|]; unfold add_post.
      rewrite keys_ext; repeat split; auto.
    + destruct (Hnin Hkv) as (v' & -> & HS' & Hp).
      eexists; split; [reflexivity|]; unfold add_post.
      destruct Hok as [Hsz _]. change (node_size (ExternalNode id v)) with (length v) in Hsz.
      assert (HF' : Forall (in_range lo hi) v')
        by (rewrite Hp; constructor; auto).
      repeat split; try constructor; auto.
      destruct (Nat.ltb_spec (2 * N) (S (length v))); rewrite !keys_ext;
        (repeat split; auto);
        unfold node_size; simpl; rewrite Hp; simpl; lia.
  - inversion Hb as [|d' vs cs Hlen Hbc]; subst.
    inversion HR as [|? ? ? ? HRs]; subst.
    destruct Hok as (Hsz & Hsf & Hone).
    change (node_size (InternalNode vs cs)) with (length vs) in Hsz.
    simpl in Hsf.
    pose proof (find_pos_le vs k) as Hle.
    destruct (lookup_lt_is_Some_2 cs (find_pos vs k)) as [c Hc]; [lia|].
    destruct (routed_descend _ _ _ _ _ _ HRs Hk Hc) as (b & Hpre & Hseq & Hkc & Hiff).
    set (pos := find_pos vs k) in *.
    pose proof (routed_seq_head _ _ _ _ _ Hseq) as Hcr.
    assert (Hcf : filled N c) by (eapply Forall_lookup_1; eauto).
    assert (Hcb : bal d c) by (eapply Forall_lookup_1; eauto).
    rewrite ids_int, (concat_map_middle ids cs pos c Hc) in Hnd, Hch.
    set (A := concat (map ids (take pos cs))) in *.
    set (B := concat (map ids (drop (S pos) cs))) in *.
    assert (Hnd' : NoDup ((P ++ A) ++ ids c ++ (B ++ Q))) by (rewrite mid_assoc; exact Hnd).
    assert (Hch' : chain None ((P ++ A) ++ ids c ++ (B ++ Q)) h)
      by (rewrite mid_assoc; exact Hch).
    destruct (IH c _ _ h (P ++ A) (B ++ Q) k Hcb Hcr Hkc (filled_root_ok N c HN Hcf) Hnd' Hch')
      as ([[r c'] h1] & Hadd & Hpost).
    cbn [add_elem]. rewrite apply_at_spec. fold pos. rewrite Hc, bind_Some, Hadd, bind_Some.
    cbv beta iota.
    destruct Hpost as (Hb' & HR' & Hnd1 & Hch1 & Hhd & Hr).
    rewrite mid_assoc in Hnd1, Hch1.
    assert (Hpos : pos < length cs) by (eapply lookup_lt_Some; eauto).
    assert (HRs' : routed_seq lo hi vs (<[pos := c']> cs)).
    { eapply routed_seq_update; eauto; [rewrite length_drop; lia|].
      rewrite (drop_S _ _ _ Hc). exact Hseq. }
    assert (HI : forall {X} (f : Node -> list X),
               concat (map f (<[pos := c']> cs)) =
               concat (map f (take pos cs)) ++ f c' ++ concat (map f (drop (S pos) cs)))
      by (intros; apply concat_map_insert with (c := c); exact Hc).
    destruct r.
    + (* SUCCESS *)
      eexists; split; [reflexivity|]; unfold add_post.
      destruct Hr as (Hkn & Hperm & Hok' & Hgrow).
      split; [constructor; [rewrite length_insert; auto | apply Forall_insert; auto]|].
      split; [constructor; exact HRs'|].
      rewrite ids_int, HI. fold A B.
      split; [exact Hnd1|]. split; [exact Hch1|].
      split; [rewrite ids_int, (concat_map_middle ids cs pos c Hc); apply head_mid; exact Hhd|].
      rewrite !keys_int, HI, (concat_map_middle keys cs pos c Hc).
      split; [rewrite <- (concat_map_middle keys cs pos c Hc), Hiff; exact Hkn|].
      split; [rewrite Hperm; apply perm_mid|].
      split; [|change (length vs <= length vs); lia].
      split; [exact Hsz|]. split; [|exact Hone].
      apply Forall_insert; [exact Hsf|].
      apply filled_iff. apply filled_iff in Hcf as [Hcs _].
      destruct Hok' as (Hs' & Hsf' & _). split; [lia | exact Hsf'].
    + (* EXISTS *)
      destruct Hr as (-> & -> & Hkin).
      rewrite (list_insert_id _ _ _ Hc).
      eexists; split; [reflexivity|]; unfold add_post.
      rewrite ids_int, (concat_map_middle ids cs pos c Hc). fold A B.
      repeat split; auto; try (constructor; auto).
      rewrite keys_int, Hiff. exact Hkin.
    + (* SPLIT *)
      destruct Hr as (Hkn & Hperm & Hsz' & Hsf').
      assert (Hc' : <[pos := c']> cs !! pos = Some c') by (apply list_lookup_insert_eq; lia).
      assert (Hnd1' : NoDup (P ++ concat (map ids (<[pos := c']> cs)) ++ Q))
        by (rewrite HI; exact Hnd1).
      assert (Hch1' : chain None (P ++ concat (map ids (<[pos := c']> cs)) ++ Q) h1)
        by (rewrite HI; exact Hch1).
      destruct (split_spec N HN pos vs (<[pos := c']> cs) h1 lo hi P Q d c' HRs' Hc' Hsz' Hsf'
                  Hb' Hnd1' Hch1')
        as (w & cl & cr & h2 & Hsplit & Hfl & Hfr & Hbl & Hbr & Hkeys & HR2 & Hnd2 & Hch2 & Hhd2).
      rewrite bind_Some. cbv beta iota. rewrite Hsplit, bind_Some. cbv beta iota.
      rewrite take_insert_ge, drop_insert_lt in * by lia.
      eexists; split; [reflexivity|]; unfold add_post.
      split.
      { constructor.
        - rewrite length_app, !length_cons, length_take, length_drop, length_app, length_cons,
            length_take, length_drop. lia.
        - apply Forall_app; split; [apply Forall_take; exact Hbc|].
          constructor; [exact Hbl|]. constructor; [exact Hbr|]. apply Forall_drop; exact Hbc. }
      split; [constructor; exact HR2|].
      rewrite !ids_int. split; [exact Hnd2|]. split; [exact Hch2|].
      split.
      { rewrite Hhd2, HI, (concat_map_middle ids cs pos c Hc). apply head_mid; exact Hhd. }
      assert (Hk2 : keys (InternalNode (take pos vs ++ w :: drop pos vs)
                      (take pos cs ++ cl :: cr :: drop (S pos) cs)) ≡ₚ
                    k :: keys (InternalNode vs cs)).
      { rewrite !keys_int, concat_map_two, Hkeys, Hperm, (concat_map_middle keys cs pos c Hc).
        apply perm_mid. }
      assert (Hkn2 : k ∉ keys (InternalNode vs cs)) by (rewrite keys_int, Hiff; exact Hkn).
      assert (Hlv : length (take pos vs ++ w :: drop pos vs) = S (length vs))
        by (rewrite length_app, length_cons, length_take, length_drop; lia).
      assert (Hsf2 : Forall (filled N) (take pos cs ++ cl :: cr :: drop (S pos) cs)).
      { apply Forall_app; split; [apply Forall_take; exact Hsf|].
        constructor; [exact Hfl|]. constructor; [exact Hfr|]. apply Forall_drop; exact Hsf. }
      unfold max_size. destruct (Nat.leb_spec (length (take pos vs ++ w :: drop pos vs)) (2 * N)).
      * split; [exact Hkn2|]. split; [exact Hk2|].
        split; [|unfold node_size; simpl; lia].
        split; [unfold node_size; simpl; lia|]. split; [exact Hsf2|]. simpl; lia.
      * split; [exact Hkn2|]. split; [exact Hk2|].
        split; [unfold node_size; simpl; lia|]. exact Hsf2.
Qed.

End Add.

(** ** [merge]: the window around the underfull child *)

Lemma routed_seq_nil lo hi V : ~ routed_seq lo hi V [].
Proof. inversion 1. Qed.

Lemma routed_seq_join lo s hi V C V' C' :
  routed_seq lo (Some s) V C -> above lo s -> at_most hi s ->
  routed_seq (Some s) hi V' C' -> routed_seq lo hi (V ++ s :: V') (C ++ C').
Proof.
  intros H; remember (Some s) as hs eqn:Ehs; revert V' C'.
  induction H as [lo hi' c Hc|lo hi' w ws c cs Ha Hm Hc Hs IH];
    intros V' C' Has Hms HR; subst hi'; simpl.
  - constructor; auto.
  - simpl in Hm. constructor; [exact Ha | destruct hi; simpl in *; auto; lia | exact Hc |].
    apply IH; auto.
Qed.

Lemma routed_seq_snoc_iff lo hi V v C c :
  routed_seq lo hi (V ++ [v]) (C ++ [c]) <->
  routed_seq lo (Some v) V C /\ above lo v /\ at_most hi v /\ routed (Some v) hi c.
Proof.
  revert lo C; induction V as [|w V IH]; intros lo C; simpl.
  - split.
    + destruct C as [|c2 [|c3 C]]; simpl; intros H.
      * inversion H as [|? ? ? ? ? ? _ _ _ Hs]; subst. inversion Hs.
      * inversion H as [|? ? ? ? ? ? Ha Hm Hc Hs]; subst. inversion Hs; subst.
        repeat split; auto. constructor; auto.
      * inversion H as [|? ? ? ? ? ? Ha Hm Hc Hs]; subst. inversion Hs; subst.
        destruct C; discriminate.
    + intros (H & Ha & Hm & Hc). inversion H; subst. simpl.
      constructor; auto. constructor; auto.
  - split.
    + destruct C as [|c2 C]; simpl; intros H.
      * inversion H as [|? ? ? ? ? ? _ _ _ Hs]; subst. destruct V; inversion Hs.
      * inversion H as [|? ? ? ? ? ? Ha Hm Hc Hs]; subst.
        apply IH in Hs as (Hs & Ha' & Hm' & Hc').
        simpl in Ha'. repeat split; auto.
        -- constructor; auto.
        -- destruct lo; simpl in *; auto; lia.
    + intros (H & Ha & Hm & Hc). inversion H as [|? ? ? ? c1 cs1 Ha1 Hm1 Hc1 Hs1]; subst.
      simpl. constructor; auto.
      * simpl in Hm1. destruct hi; simpl in *; auto; lia.
      * apply IH. repeat split; auto.
Qed.

Lemma last_removelast (l : list Z) x : last l = Some x -> l = removelast l ++ [x].
Proof.
  induction l as [|y l IH]; [discriminate|].
  destruct l as [|z l]; simpl.
  - intros H; injection H as ->; reflexivity.
  - intros H. rewrite (IH H) at 1. reflexivity.
Qed.

Lemma length_removelast {A} (l : list A) : length (removelast l) = pred (length l).
Proof.
  induction l as [|y l IH]; simpl; auto.
  destruct l as [|z l]; simpl in *; auto.
Qed.

Lemma last_of_length (l : list Z) : l <> [] -> exists x, last l = Some x.
Proof.
  intros H. destruct (last l) eqn:E; eauto. apply last_None in E. contradiction.
Qed.

Lemma lookup_two {A} (l : list A) p x y :
  l !! p = Some x -> l !! S p = Some y -> l = take p l ++ x :: y :: drop (S (S p)) l.
Proof.
  intros Hx Hy. rewrite <- (take_drop_middle l p x Hx) at 1. f_equal. f_equal.
  rewrite (drop_S _ _ _ Hy). reflexivity.
Qed.

Lemma insert_two {A} (l : list A) p x y x' y' :
  l !! p = Some x -> l !! S p = Some y ->
  <[S p := y']> (<[p := x']> l) = take p l ++ x' :: y' :: drop (S (S p)) l.
Proof.
  intros Hx Hy. pose proof (lookup_lt_Some _ _ _ Hy).
  rewrite (lookup_two l p x y Hx Hy) at 1.
  rewrite insert_app_r_alt by (rewrite length_take; lia).
  rewrite length_take, Nat.min_l by lia. rewrite Nat.sub_diag. simpl.
  rewrite insert_app_r_alt by (rewrite length_take; lia).
  rewrite length_take, Nat.min_l by lia. replace (S p - p) with 1 by lia. reflexivity.
Qed.

Lemma routed_seq_lower_at_most s hi V y R :
  routed_seq (Some s) hi V (y :: R) -> at_most hi s -> at_most (next_bound V hi) s.
Proof. inversion 1; subst; simpl; auto. Qed.

Lemma others_take_drop {A} (Pr : A -> Prop) (l : list A) pos p :
  (forall j z, j <> pos -> l !! j = Some z -> Pr z) -> (pos = p \/ pos = S p) ->
  Forall Pr (take p l) /\ Forall Pr (drop (S (S p)) l).
Proof.
  intros H Hp. split; apply Forall_lookup; intros j z Hz.
  - apply take_lookup_before in Hz as [Hj Hz]. apply (H j z); [lia | exact Hz].
  - rewrite lookup_drop in Hz. apply (H (S (S p) + j) z); [lia | exact Hz].
Qed.

Section Window.
Variable N : nat.

Lemma window_routed lo hi vs cs p s x y :
  routed_seq lo hi vs cs -> vs !! p = Some s -> cs !! p = Some x -> cs !! S p = Some y ->
  exists b, routed_pre lo hi (take p vs) (take p cs) b /\
    above b s /\ at_most hi s /\ routed b (Some s) x /\
    routed_seq (Some s) hi (drop (S p) vs) (y :: drop (S (S p)) cs) /\
    routed (Some s) (next_bound (drop (S p) vs) hi) y /\
    at_most (next_bound (drop (S p) vs) hi) s.
Proof.
  intros HR Hs Hx Hy. pose proof (lookup_lt_Some _ _ _ Hs). pose proof (lookup_lt_Some _ _ _ Hx).
  rewrite (lookup_two cs p x y Hx Hy), <- (take_drop_middle vs p s Hs) in HR.
  apply routed_seq_app in HR as (b & Hpre & Hr); [|rewrite !length_take; lia].
  inversion Hr as [|? ? ? ? ? ? Ha Hm Hxr Hr2]; subst.
  exists b. repeat split; auto.
  - eapply routed_seq_head; eauto.
  - eapply routed_seq_lower_at_most; eauto.
Qed.

Lemma borrow_post d lo hi vs cs h P Q p s x y s' x' y' :
  routed_seq lo hi vs cs -> vs !! p = Some s -> cs !! p = Some x -> cs !! S p = Some y ->
  (forall b nb, routed b (Some s) x -> routed (Some s) nb y -> above b s -> at_most nb s ->
     routed b (Some s') x' /\ routed (Some s') nb y' /\ above b s' /\ at_most nb s') ->
  keys x' ++ keys y' = keys x ++ keys y -> ids x' ++ ids y' = ids x ++ ids y ->
  filled N x' -> filled N y' -> bal d x' -> bal d y' -> Forall (bal d) cs ->
  Forall (filled N) (take p cs) -> Forall (filled N) (drop (S (S p)) cs) ->
  NoDup (P ++ concat (map ids cs) ++ Q) -> chain None (P ++ concat (map ids cs) ++ Q) h ->
  merge_post N d lo hi vs cs P Q (<[p := s']> vs, <[S p := y']> (<[p := x']> cs), h).
Proof.
  intros HR Hs Hx Hy Hloc Hk Hi Hfx Hfy Hbx Hby Hb Hf1 Hf2 Hnd Hch.
  pose proof (routed_seq_length _ _ _ _ HR) as Hlen.
  pose proof (lookup_lt_Some _ _ _ Hs) as Hp.
  destruct (window_routed _ _ _ _ _ _ _ _ HR Hs Hx Hy)
    as (b & Hpre & Ha & Hm & Hxr & Hr2 & Hyr & Hnb).
  destruct (Hloc _ _ Hxr Hyr Ha Hnb) as (Hxr' & Hyr' & Ha' & Hnb').
  rewrite (insert_two cs p x y x' y' Hx Hy).
  assert (Hcs : cs = take p cs ++ x :: y :: drop (S (S p)) cs) by (apply lookup_two; auto).
  assert (HI : forall {X} (f : Node -> list X), f x' ++ f y' = f x ++ f y ->
             concat (map f (take p cs ++ x' :: y' :: drop (S (S p)) cs)) = concat (map f cs)).
  { intros X f Hf. rewrite concat_map_two, Hf, <- concat_map_two, <- Hcs. reflexivity. }
  unfold merge_post. rewrite (HI _ keys Hk), (HI _ ids Hi).
  split.
  { rewrite length_insert, length_app, !length_cons, length_take, length_drop. lia. }
  split; [rewrite length_insert; lia|].
  split; [apply Forall_app; split; [exact Hf1|]; constructor; [|constructor]; auto|].
  split.
  { rewrite Hcs in Hb. apply Forall_app in Hb as [Hb1 Hb2].
    apply Forall_app; split; [exact Hb1|].
    inversion Hb2 as [|? ? _ Hb3]; inversion Hb3 as [|? ? _ Hb4]. repeat constructor; auto. }
  split; [|auto].
  rewrite insert_take_drop by lia.
  apply routed_seq_app; [rewrite !length_take; lia|].
  exists b; split; [exact Hpre|].
  constructor; auto.
  - eapply routed_seq_at_most_hi; eauto.
  - eapply routed_seq_relower; [exact Hr2 | exact Hyr' |].
    intros v Hv. destruct (drop (S p) vs); [discriminate|].
    simpl in Hv, Hnb' |- *. injection Hv as ->. exact Hnb'.
Qed.

Lemma fuse_post d lo hi vs cs h2 P Q p s x y f :
  routed_seq lo hi vs cs -> vs !! p = Some s -> cs !! p = Some x -> cs !! S p = Some y ->
  (forall b nb, routed b (Some s) x -> routed (Some s) nb y -> above b s -> at_most nb s ->
     routed b nb f) ->
  keys f = keys x ++ keys y -> filled N f -> bal d f -> Forall (bal d) cs ->
  Forall (filled N) (take p cs) -> Forall (filled N) (drop (S (S p)) cs) ->
  NoDup (P ++ concat (map ids (take p cs ++ f :: drop (S (S p)) cs)) ++ Q) ->
  chain None (P ++ concat (map ids (take p cs ++ f :: drop (S (S p)) cs)) ++ Q) h2 ->
  head (concat (map ids (take p cs ++ f :: drop (S (S p)) cs))) = head (concat (map ids cs)) ->
  merge_post N d lo hi vs cs P Q
    (take p vs ++ drop (S p) vs, take p cs ++ f :: drop (S (S p)) cs, h2).
Proof.
  intros HR Hs Hx Hy Hloc Hk Hff Hbf Hb Hf1 Hf2 Hnd Hch Hhd.
  pose proof (routed_seq_length _ _ _ _ HR) as Hlen.
  pose proof (lookup_lt_Some _ _ _ Hs) as Hp.
  destruct (window_routed _ _ _ _ _ _ _ _ HR Hs Hx Hy)
    as (b & Hpre & Ha & Hm & Hxr & Hr2 & Hyr & Hnb).
  assert (Hcs : cs = take p cs ++ x :: y :: drop (S (S p)) cs) by (apply lookup_two; auto).
  unfold merge_post.
  split.
  { rewrite !length_app, length_cons, !length_take, !length_drop. lia. }
  split; [rewrite !length_app, !length_take, !length_drop; lia|].
  split; [apply Forall_app; split; [exact Hf1|]; constructor; auto|].
  split.
  { rewrite Hcs in Hb. apply Forall_app in Hb as [Hb1 Hb2].
    apply Forall_app; split; [exact Hb1|].
    inversion Hb2 as [|? ? _ Hb3]; inversion Hb3 as [|? ? _ Hb4]. repeat constructor; auto. }
  split.
  { apply routed_seq_app; [rewrite !length_take; lia|].
    exists b; split; [exact Hpre|].
    eapply routed_seq_relower; [exact Hr2 | apply Hloc; auto |].
    intros v Hv. destruct (drop (S p) vs); [discriminate|].
    simpl in Hv, Hnb |- *. injection Hv as ->. destruct b; simpl in *; auto; lia. }
  split; [|auto].
  symmetry. rewrite Hcs at 1. rewrite concat_map_two, map_app, concat_app. simpl.
  rewrite Hk. reflexivity.
Qed.

End Window.

(** ** [merge]: which case runs *)

Lemma merge_case_eval N pos m cs :
  1 <= m -> pos <= m -> length cs = S m ->
  (forall j z, j <> pos -> cs !! j = Some z -> N <= node_size z) ->
  (pos = 0 -> exists r, cs !! 1 = Some r /\
     merge_case N 0 m cs = Some (if N <? node_size r then FromRight else Fuse MergeDirection.RIGHT)) /\
  (pos = m -> exists l, cs !! (m - 1) = Some l /\
     merge_case N m m cs = Some (if N <? node_size l then FromLeft else Fuse MergeDirection.LEFT)) /\
  (0 < pos < m -> exists l r, cs !! (pos - 1) = Some l /\ cs !! S pos = Some r /\
     merge_case N pos m cs =
     Some (if node_size l <? node_size r then FromRight
           else if N <? node_size l then FromLeft else Fuse MergeDirection.RIGHT)).
Proof.
  intros Hm Hp Hl Hge. split; [|split].
  - intros ->. destruct (lookup_lt_is_Some_2 cs 1) as [r Hr]; [lia|].
    exists r; split; [exact Hr|].
    unfold merge_case, merge_direction, min_size.
    destruct m as [|m']; [lia|]. simpl. rewrite Hr. simpl.
    destruct (N <? node_size r); reflexivity.
  - intros ->. destruct (lookup_lt_is_Some_2 cs (m - 1)) as [l Hl']; [lia|].
    exists l; split; [exact Hl'|].
    unfold merge_case, merge_direction, min_size. rewrite Nat.eqb_refl. simpl.
    destruct m as [|m']; [lia|]. simpl. rewrite Nat.ltb_irrefl. simpl.
    simpl in Hl'. rewrite Nat.sub_0_r in Hl'. rewrite Hl'. simpl.
    destruct (N <? node_size l); reflexivity.
  - intros Hp'. destruct (lookup_lt_is_Some_2 cs (pos - 1)) as [l Hl']; [lia|].
    destruct (lookup_lt_is_Some_2 cs (S pos)) as [r Hr]; [lia|].
    exists l, r; split; [exact Hl'|]; split; [exact Hr|].
    pose proof (Hge (pos - 1) l ltac:(lia) Hl') as Hlg.
    unfold merge_case, merge_direction, min_size.
    destruct (Nat.eqb_spec pos m); [lia|]. destruct (Nat.eqb_spec pos 0); [lia|].
    rewrite Hl', Hr. simpl.
    destruct (Nat.ltb_spec (node_size l) (node_size r)); simpl.
    + destruct (Nat.ltb_spec pos m); [|lia]. simpl.
      destruct (Nat.ltb_spec N (node_size r)); [reflexivity | lia].
    + destruct (Nat.ltb_spec 0 pos); [|lia]. simpl.
      destruct pos as [|p]; [lia|]. simpl in Hl' |- *. rewrite Nat.sub_0_r in Hl'. rewrite Hl'.
      simpl. destruct (N <? node_size l); reflexivity.
Qed.

Lemma merge_case_cases N pos m cs :
  1 <= m -> pos <= m -> length cs = S m ->
  (forall j z, j <> pos -> cs !! j = Some z -> N <= node_size z) ->
  exists mc, merge_case N pos m cs = Some mc /\
  match mc with
  | FromRight => pos < m /\ exists r, cs !! S pos = Some r /\ N < node_size r
  | FromLeft => 0 < pos /\ exists l, cs !! (pos - 1) = Some l /\ N < node_size l
  | Fuse MergeDirection.RIGHT => pos < m /\ exists r, cs !! S pos = Some r /\ node_size r = N
  | Fuse MergeDirection.LEFT => pos = m /\ exists l, cs !! (pos - 1) = Some l /\ node_size l = N
  end.
Proof.
  intros Hm Hp Hl Hge.
  destruct (merge_case_eval N pos m cs Hm Hp Hl Hge) as (H0 & Hm' & Hmid).
  destruct (Nat.eq_dec pos 0) as [->|Hp0]; [|destruct (Nat.eq_dec pos m) as [->|Hpm]].
  - destruct (H0 eq_refl) as (r & Hr & ->).
    pose proof (Hge 1 r ltac:(lia) Hr).
    destruct (Nat.ltb_spec N (node_size r)); eexists; split; eauto; split; eauto with lia.
  - destruct (Hm' eq_refl) as (l & Hl' & ->).
    pose proof (Hge (m - 1) l ltac:(lia) Hl').
    destruct (Nat.ltb_spec N (node_size l)); eexists; split; eauto; split; eauto with lia.
  - destruct (Hmid ltac:(lia)) as (l & r & Hl' & Hr & ->).
    pose proof (Hge (pos - 1) l ltac:(lia) Hl'). pose proof (Hge (S pos) r ltac:(lia) Hr).
    destruct (Nat.ltb_spec (node_size l) (node_size r));
      [|destruct (Nat.ltb_spec N (node_size l))];
      eexists; split; eauto; split; eauto with lia.
Qed.

Lemma shift_down_spec {A} (j stop : nat) (l : list A) :
  1 <= j <= stop -> stop <= length l ->
  shift_down j stop l = take (j - 1) l ++ drop j (take stop l) ++ drop (stop - 1) l.
Proof.
  unfold shift_down. remember (stop - j) as f eqn:Ef. revert j l Ef.
  induction f as [|f IH]; intros j l Ef Hj Hs; simpl.
  - assert (j = stop) as -> by lia.
    rewrite drop_ge by (rewrite length_take; lia). simpl.
    rewrite <- (take_drop (stop - 1) l) at 1. reflexivity.
  - destruct (Nat.ltb_spec j stop); [|lia].
    destruct (lookup_lt_is_Some_2 l j) as [x Hx]; [lia|]. rewrite Hx.
    rewrite IH by (rewrite ?length_insert; lia).
    replace (S j - 1) with (S (j - 1)) by lia.
    rewrite (take_S_r _ _ x) by (apply list_lookup_insert_eq; lia).
    rewrite take_insert_ge by lia.
    rewrite take_insert_lt by lia. rewrite drop_insert_lt by lia.
    rewrite drop_insert_lt by lia.
    rewrite (drop_S (take stop l) x j) by (rewrite lookup_take_lt by lia; exact Hx).
    rewrite <- app_assoc. reflexivity.
Qed.

Lemma take_len_app {A} (l1 l2 l3 : list A) n :
  n = length (l1 ++ l2) -> take n (l1 ++ l2 ++ l3) = l1 ++ l2.
Proof. intros ->. rewrite app_assoc. apply take_app_length. Qed.

Lemma merge_finish_right_fuse N pos vs cs h f :
  pos < length vs -> length cs = S (length vs) -> node_size f <= 2 * N ->
  merge_finish_right N pos (length vs) vs (<[pos := f]> cs) h =
  Some (take pos vs ++ drop (S pos) vs, take pos cs ++ f :: drop (S (S pos)) cs, h).
Proof.
  intros Hp Hl Hf.
  assert (Hvs : take (length vs - 1) (shift_down (S pos) (length vs) vs) =
                take pos vs ++ drop (S pos) vs).
  { rewrite shift_down_spec by lia. replace (S pos - 1) with pos by lia.
    rewrite (take_ge vs (length vs)) by lia. apply take_len_app.
    rewrite length_app, length_take, length_drop. lia. }
  assert (Hcs : take (length vs) (shift_down (S (S pos)) (S (length vs)) (<[pos := f]> cs)) =
                take pos cs ++ f :: drop (S (S pos)) cs).
  { rewrite shift_down_spec by (rewrite ?length_insert; lia).
    replace (S (S pos) - 1) with (S pos) by lia.
    rewrite (take_ge (<[pos:=f]> cs) (S (length vs))) by (rewrite length_insert; lia).
    rewrite take_len_app by (rewrite length_app, length_take, length_drop, length_insert; lia).
    rewrite (take_S_r _ _ f) by (apply list_lookup_insert_eq; lia).
    rewrite take_insert_ge, drop_insert_lt by lia.
    rewrite <- app_assoc. reflexivity. }
  unfold merge_finish_right. rewrite Hvs, Hcs.
  rewrite list_lookup_middle by (rewrite length_take; lia). simpl.
  unfold max_size. destruct (Nat.ltb_spec (2 * N) (node_size f)); [lia | reflexivity].
Qed.

Lemma merge_finish_left_fuse N vs cs h f :
  1 <= length vs -> length cs = S (length vs) -> node_size f <= 2 * N ->
  merge_finish_left N (length vs) (length vs) vs (<[length vs - 1 := f]> cs) h =
  Some (take (length vs - 1) vs ++ drop (length vs) vs,
        take (length vs - 1) cs ++ f :: drop (S (length vs)) cs, h).
Proof.
  intros Hp Hl Hf. unfold merge_finish_left, shift_down.
  replace (length vs - 1 - length vs) with 0 by lia.
  replace (S (length vs) - S (length vs)) with 0 by lia. simpl.
  rewrite (drop_ge vs) by lia. rewrite (drop_ge cs) by lia. rewrite !app_nil_r.
  assert (Hcs : take (length vs) (<[length vs - 1 := f]> cs) = take (length vs - 1) cs ++ [f]).
  { replace (length vs) with (S (length vs - 1)) at 1 by lia.
    rewrite (take_S_r _ _ f) by (apply list_lookup_insert_eq; lia).
    rewrite take_insert_ge by lia. reflexivity. }
  rewrite Hcs.
  rewrite list_lookup_middle by (rewrite length_take; lia). simpl.
  unfold max_size. destruct (Nat.ltb_spec (2 * N) (node_size f)); [lia | reflexivity].
Qed.

(** ** [merge]: each case *)

Lemma leaf_borrow_right b nb s cid cv rid a b' rest :
  routed b (Some s) (ExternalNode cid cv) ->
  routed (Some s) nb (ExternalNode rid (a :: b' :: rest)) -> above b s -> at_most nb s ->
  routed b (Some b') (ExternalNode cid (cv ++ [a])) /\
  routed (Some b') nb (ExternalNode rid (b' :: rest)) /\ above b b' /\ at_most nb b'.
Proof.
  intros Hx Hy Ha Hn.
  inversion Hx as [? ? ? ? HSx HFx|]; subst. inversion Hy as [? ? ? ? HSy HFy|]; subst.
  apply SS_cons_iff in HSy as [HSy Hay]. pose proof HSy as HSy'.
  apply SS_cons_iff in HSy as [HSr Hbr].
  assert (Hab : (a < b')%Z) by (apply Hay; set_solver).
  rewrite Forall_forall in HFx, HFy.
  assert (Hsa : (s <= a)%Z) by (destruct (HFy a ltac:(set_solver)) as [H _]; exact H).
  assert (Hbn : below nb b') by (destruct (HFy b' ltac:(set_solver)); auto).
  split; [|split; [|split]].
  - constructor.
    + apply SS_app. split; [auto|]. split; [repeat constructor|].
      intros u w Hu Hw. assert (w = a) as -> by set_solver.
      destruct (HFx u Hu) as [_ Hu']. simpl in Hu'. lia.
    + apply Forall_app; split; [|constructor; [|constructor]].
      * apply Forall_forall; intros u Hu. destruct (HFx u Hu) as [Hu1 Hu2].
        split; [auto|simpl in *; lia].
      * split; [destruct b; simpl in *; lia|simpl; lia].
  - constructor; [exact HSy'|]. apply Forall_forall; intros u Hu.
    apply elem_of_cons in Hu as [->|Hu].
    + split; [simpl; lia|exact Hbn].
    + split; [simpl; apply Hbr in Hu; lia|]. destruct (HFy u ltac:(set_solver)); auto.
  - destruct b; simpl in *; lia.
  - apply below_at_most; exact Hbn.
Qed.

Lemma leaf_borrow_left b nb s lid lv cid cv x :
  last lv = Some x ->
  routed b (Some s) (ExternalNode lid lv) ->
  routed (Some s) nb (ExternalNode cid cv) -> above b s -> at_most nb s ->
  routed b (Some x) (ExternalNode lid (removelast lv)) /\
  routed (Some x) nb (ExternalNode cid (x :: cv)) /\ above b x /\ at_most nb x.
Proof.
  intros Hl Hx Hy Ha Hn. pose proof (last_removelast lv x Hl) as Hlv.
  inversion Hx as [? ? ? ? HSx HFx|]; subst. inversion Hy as [? ? ? ? HSy HFy|]; subst.
  rewrite Hlv in HSx, HFx. apply SS_app in HSx as (HS1 & _ & Hlt).
  apply Forall_app in HFx as [HF1 HF2]. apply Forall_cons in HF2 as [[Hxa Hxs] _].
  simpl in Hxs. rewrite Forall_forall in HF1, HFy.
  split; [|split; [|split]].
  - constructor; [exact HS1|]. apply Forall_forall; intros u Hu.
    destruct (HF1 u Hu) as [Hu1 _]. split; [auto|]. simpl. apply Hlt; set_solver.
  - constructor.
    + constructor; [exact HSy|]. apply Forall_forall; intros u Hu.
      destruct (HFy u Hu) as [Hu1 _]. simpl in Hu1. lia.
    + constructor.
      * split; [simpl; lia|]. destruct nb; simpl in *; lia.
      * apply Forall_forall; intros u Hu. destruct (HFy u Hu) as [Hu1 Hu2].
        split; [simpl in *; lia|exact Hu2].
  - exact Hxa.
  - destruct nb; simpl in *; lia.
Qed.

Lemma leaf_fuse b nb s i j k v1 v2 :
  routed b (Some s) (ExternalNode i v1) -> routed (Some s) nb (ExternalNode j v2) ->
  above b s -> at_most nb s -> routed b nb (ExternalNode k (v1 ++ v2)).
Proof.
  intros Hx Hy Ha Hn.
  inversion Hx as [? ? ? ? HSx HFx|]; subst. inversion Hy as [? ? ? ? HSy HFy|]; subst.
  rewrite Forall_forall in HFx, HFy. constructor.
  - apply SS_app. split; [auto|]. split; [auto|]. intros u w Hu Hw.
    destruct (HFx u Hu) as [_ Hu']. destruct (HFy w Hw) as [Hw' _]. simpl in *. lia.
  - apply Forall_app; split; apply Forall_forall; intros u Hu.
    + destruct (HFx u Hu) as [Hu1 Hu2]. split; [auto|]. destruct nb; simpl in *; auto; lia.
    + destruct (HFy u Hu) as [Hu1 Hu2]. split; [|auto]. destruct b; simpl in *; auto; lia.
Qed.

Lemma int_borrow_right b nb s cv cc x rv c0 rc :
  routed b (Some s) (InternalNode cv cc) ->
  routed (Some s) nb (InternalNode (x :: rv) (c0 :: rc)) -> above b s -> at_most nb s ->
  routed b (Some x) (InternalNode (cv ++ [s]) (cc ++ [c0])) /\
  routed (Some x) nb (InternalNode rv rc) /\ above b x /\ at_most nb x.
Proof.
  intros Hx Hy Ha Hn.
  inversion Hx as [|? ? ? ? Hsx]; subst. inversion Hy as [|? ? ? ? Hsy]; subst.
  inversion Hsy as [|? ? ? ? ? ? Hax Hmx Hc0 Hrest]; subst.
  simpl in Hax. split; [|split; [|split]].
  - constructor. apply routed_seq_snoc_iff. repeat split; auto; simpl; lia.
  - constructor. exact Hrest.
  - destruct b; simpl in *; auto; lia.
  - exact Hmx.
Qed.

Lemma int_borrow_left b nb s lv lc cv cc x c0 :
  last lv = Some x -> lc !! length lv = Some c0 -> length lc = S (length lv) ->
  routed b (Some s) (InternalNode lv lc) ->
  routed (Some s) nb (InternalNode cv cc) -> above b s -> at_most nb s ->
  routed b (Some x) (InternalNode (removelast lv) (take (length lv) lc)) /\
  routed (Some x) nb (InternalNode (s :: cv) (c0 :: cc)) /\ above b x /\ at_most nb x.
Proof.
  intros Hl Hc0 Hlen Hx Hy Ha Hn.
  inversion Hx as [|? ? ? ? Hsx]; subst. inversion Hy as [|? ? ? ? Hsy]; subst.
  assert (Hlc : lc = take (length lv) lc ++ [c0]).
  { rewrite <- take_S_r by exact Hc0. rewrite take_ge by lia. reflexivity. }
  rewrite (last_removelast lv x Hl), Hlc in Hsx.
  apply routed_seq_snoc_iff in Hsx as (H1 & H2 & H3 & H4).
  simpl in H3. split; [|split; [|split]].
  - constructor. exact H1.
  - constructor. constructor; auto; simpl; lia.
  - exact H2.
  - destruct nb; simpl in *; auto; lia.
Qed.

Lemma int_fuse b nb s v1 c1 v2 c2 :
  routed b (Some s) (InternalNode v1 c1) -> routed (Some s) nb (InternalNode v2 c2) ->
  above b s -> at_most nb s -> routed b nb (InternalNode (v1 ++ s :: v2) (c1 ++ c2)).
Proof.
  intros Hx Hy Ha Hn.
  inversion Hx as [|? ? ? ? Hsx]; subst. inversion Hy as [|? ? ? ? Hsy]; subst.
  constructor. eapply routed_seq_join; eauto.
Qed.

Lemma chain_fuse_mid A x y S h :
  chain None (A ++ x :: y :: S) h -> NoDup (A ++ x :: y :: S) ->
  h !! y = Some (mkLinks (Some x) (head S)) /\
  exists h1 h2, set_right x (head S) h = Some h1 /\
    (match head S with Some o => set_left o (Some x) h1 | None => Some h1 end) = Some h2 /\
    chain None (A ++ x :: S) (delete y h2) /\ NoDup (A ++ x :: S).
Proof.
  intros Hc Hnd. pose proof Hnd as Hnd0. apply chain_app in Hc as [Hpre Hc].
  pose proof Hc as Hc'. simpl in Hc'. destruct Hc' as [_ [Hy _]].
  split; [exact Hy|].
  apply NoDup_app in Hnd as (HA & Hdis & Hnd).
  destruct (chain_fuse_leaf _ x y S h Hc Hnd) as (h2 & E & Hc2 & Hfr).
  destruct (set_right x (head S) h) as [h1|] eqn:E1; [|discriminate].
  rewrite bind_Some in E. exists h1, h2. split; [reflexivity|]. split; [exact E|]. split.
  - apply chain_app. split; [|exact Hc2]. simpl. eapply chain_pre_frame; [|exact Hpre].
    intros z Hz. apply Hfr; [intros ->; apply (Hdis _ Hz); set_solver
                           |intros ->; apply (Hdis _ Hz); set_solver
                           |intros HzS; apply (Hdis _ Hz); set_solver].
  - eapply sublist_NoDup; [exact Hnd0|]. apply sublist_app; [reflexivity|].
    apply sublist_skip, sublist_cons. reflexivity.
Qed.

Lemma ids_window_two P Q X Y a b :
  P ++ concat (map ids (X ++ a :: b :: Y)) ++ Q =
  (P ++ concat (map ids X)) ++ ids a ++ ids b ++ (concat (map ids Y) ++ Q).
Proof. rewrite concat_map_two. rewrite <- !app_assoc. reflexivity. Qed.

Lemma ids_window_one P Q X Y f :
  P ++ concat (map ids (X ++ f :: Y)) ++ Q =
  (P ++ concat (map ids X)) ++ ids f ++ (concat (map ids Y) ++ Q).
Proof. rewrite map_app, concat_app. simpl. rewrite <- !app_assoc. reflexivity. Qed.

Lemma head_window_one X Y Z a :
  head (concat (map ids X) ++ a :: Y) = head (concat (map ids X) ++ a :: Z).
Proof. destruct (concat (map ids X)); reflexivity. Qed.

Lemma insert_commute_list {A} (l : list A) i j x y :
  i <> j -> <[i := x]> (<[j := y]> l) = <[j := y]> (<[i := x]> l).
Proof.
  revert i j; induction l as [|z l IH]; intros i j Hij; [reflexivity|].
  destruct i as [|i], j as [|j]; simpl; try congruence.
  f_equal. apply IH. lia.
Qed.

Lemma concat_map_snoc {A} (f : Node -> list A) lc n c0 :
  lc !! n = Some c0 -> length lc = S n -> concat (map f lc) = concat (map f (take n lc)) ++ f c0.
Proof.
  intros Hc Hl. rewrite <- (take_ge lc (S n)) at 1 by lia.
  rewrite (take_S_r _ _ _ Hc), map_app, concat_app. cbn. rewrite app_nil_r. reflexivity.
Qed.

Section MergeCases.
Variable N : nat.
Hypothesis HN : 1 <= N.
Variables (d : nat) (lo hi : option Z) (vs : list Z) (cs : list Node) (h : heap)
  (P Q : list nat) (pos : nat) (c : Node).
Hypothesis HR : routed_seq lo hi vs cs.
Hypothesis Hpos : pos <= length vs.
Hypothesis Hc : cs !! pos = Some c.
Hypothesis Hcn : node_size c = N - 1.
Hypothesis Hcsub : sub_filled N c.
Hypothesis Hb : Forall (bal d) cs.
Hypothesis Hf : forall j z, j <> pos -> cs !! j = Some z -> filled N z.
Hypothesis Hnd : NoDup (P ++ concat (map ids cs) ++ Q).
Hypothesis Hch : chain None (P ++ concat (map ids cs) ++ Q) h.

Lemma merge_from_right :
  merge_case N pos (length vs) cs = Some FromRight -> pos < length vs ->
  (exists r, cs !! S pos = Some r /\ N < node_size r) ->
  exists res, merge N pos vs cs h = Some res /\ merge_post N d lo hi vs cs P Q res.
Proof.
  intros Hmc Hp (r & Hr & Hrn).
  destruct (lookup_lt_is_Some_2 vs pos Hp) as [s Hs].
  pose proof (Forall_lookup_1 _ _ _ _ Hb Hc) as Hbc.
  pose proof (Forall_lookup_1 _ _ _ _ Hb Hr) as Hbr.
  pose proof (Hf (S pos) r ltac:(lia) Hr) as Hfr.
  destruct (others_take_drop (filled N) cs pos pos Hf (or_introl eq_refl)) as [Hf1 Hf2].
  unfold merge. cbv zeta. rewrite Hc, bind_Some, Hmc, bind_Some.
  destruct c as [cid cv | cv cc].
  - inversion Hbc; subst. inversion Hbr as [rid rv|]; subst.
    rewrite Hr, bind_Some. cbn [node_values].
    inversion Hfr as [? ? Hrl|]; subst. unfold node_size in Hrn, Hcn. cbn [node_values] in Hrn, Hcn.
    destruct rv as [|a [|b' rest]]; cbn [length] in Hrn, Hrl; try lia.
    cbn. eexists; split; [reflexivity|].
    apply (borrow_post N 0 lo hi vs cs h P Q pos s _ _ b' _ _ HR Hs Hc Hr).
    + intros. eapply leaf_borrow_right; eauto.
    + rewrite !keys_ext. rewrite <- app_assoc. reflexivity.
    + reflexivity.
    + constructor. rewrite length_app. cbn [length]. lia.
    + constructor. cbn [length] in *. lia.
    + constructor.
    + constructor.
    + exact Hb.
    + exact Hf1.
    + exact Hf2.
    + exact Hnd.
    + exact Hch.
  - inversion Hbc as [|d' ? ? Hlc Hbcc]; subst. inversion Hbr as [|? rv rc Hlr Hbrc]; subst.
    rewrite Hr, bind_Some, Hs, bind_Some.
    inversion Hfr as [|? ? Hrl Hfrc]; subst. unfold node_size in Hrn, Hcn. cbn [node_values] in Hrn, Hcn.
    destruct rv as [|x rv]; cbn [length] in Hrn; [lia|].
    destruct rc as [|c0 rc]; cbn [length] in Hlr; [lia|].
    cbn. eexists; split; [reflexivity|].
    apply (borrow_post N (S d') lo hi vs cs h P Q pos s _ _ x _ _ HR Hs Hc Hr).
    + intros. eapply int_borrow_right; eauto.
    + rewrite !keys_int, map_app, concat_app. cbn. rewrite app_nil_r, <- app_assoc. reflexivity.
    + rewrite !ids_int, map_app, concat_app. cbn. rewrite app_nil_r, <- app_assoc. reflexivity.
    + cbn [sub_filled] in Hcsub. apply Forall_cons in Hfrc as [Hfc0 Hfrc].
      constructor; [rewrite length_app; cbn [length]; lia|].
      apply Forall_app; split; auto.
    + apply Forall_cons in Hfrc as [_ Hfrc]. constructor; [cbn [length] in Hrl; lia | exact Hfrc].
    + apply Forall_cons in Hbrc as [Hb0 _].
      constructor; [rewrite !length_app; cbn [length]; lia|]. apply Forall_app; auto.
    + apply Forall_cons in Hbrc as [_ Hbrc]. constructor; [cbn [length] in Hlr; lia | exact Hbrc].
    + exact Hb.
    + exact Hf1.
    + exact Hf2.
    + exact Hnd.
    + exact Hch.
Qed.

Lemma merge_from_left :
  merge_case N pos (length vs) cs = Some FromLeft -> 0 < pos ->
  (exists l, cs !! (pos - 1) = Some l /\ N < node_size l) ->
  exists res, merge N pos vs cs h = Some res /\ merge_post N d lo hi vs cs P Q res.
Proof.
  intros Hmc Hp (l & Hl & Hln).
  pose proof (routed_seq_length _ _ _ _ HR) as Hlen.
  destruct pos as [|p]; [lia|].
  assert (Ep : S p - 1 = p) by lia. rewrite Ep in Hl.
  destruct (lookup_lt_is_Some_2 vs p ltac:(lia)) as [s Hs].
  pose proof (Forall_lookup_1 _ _ _ _ Hb Hc) as Hbc.
  pose proof (Forall_lookup_1 _ _ _ _ Hb Hl) as Hbl.
  pose proof (Hf p l ltac:(lia) Hl) as Hfl.
  destruct (others_take_drop (filled N) cs (S p) p Hf (or_intror eq_refl)) as [Hf1 Hf2].
  unfold merge. cbv zeta. rewrite Hc, bind_Some, Hmc, bind_Some.
  destruct c as [cid cv | cv cc].
  - cbn [prev_child]. rewrite Hl, bind_Some.
    inversion Hbc; subst. inversion Hbl as [lid lv|]; subst.
    inversion Hfl as [? ? Hll|]; subst. unfold node_size in Hln, Hcn. cbn [node_values] in Hln, Hcn |- *.
    destruct (last lv) as [x|] eqn:Ex; [|apply last_None in Ex; subst; cbn [length] in Hln; lia].
    rewrite bind_Some. cbn [set_values]. rewrite Ep.
    eexists; split; [reflexivity|].
    rewrite insert_commute_list by lia.
    apply (borrow_post N 0 lo hi vs cs h P Q p s _ _ x _ _ HR Hs Hl Hc).
    + intros. eapply leaf_borrow_left; eauto.
    + rewrite !keys_ext. rewrite (last_removelast lv x Ex) at 2. rewrite <- app_assoc. reflexivity.
    + reflexivity.
    + constructor. rewrite length_removelast. lia.
    + constructor. cbn [length]. lia.
    + constructor.
    + constructor.
    + exact Hb.
    + exact Hf1.
    + exact Hf2.
    + exact Hnd.
    + exact Hch.
  - cbn [prev_child]. rewrite Hl, bind_Some.
    inversion Hbc as [|d' ? ? Hlc Hbcc]; subst. inversion Hbl as [|? lv lc Hll Hblc]; subst.
    inversion Hfl as [|? ? Hlv Hflc]; subst. unfold node_size in Hln, Hcn. cbn [node_values] in Hln, Hcn.
    rewrite Ep, Hs, bind_Some.
    destruct (last lv) as [x|] eqn:Ex; [|apply last_None in Ex; subst; cbn [length] in Hln; lia].
    rewrite bind_Some.
    destruct (lookup_lt_is_Some_2 lc (length lv) ltac:(lia)) as [c0 Hc0].
    rewrite Hc0, bind_Some.
    eexists; split; [reflexivity|].
    rewrite insert_commute_list by lia.
    cbn [sub_filled] in Hcsub.
    apply (borrow_post N (S d') lo hi vs cs h P Q p s _ _ x _ _ HR Hs Hl Hc).
    + intros. eapply int_borrow_left; eauto.
    + rewrite !keys_int, (concat_map_snoc keys lc (length lv) c0 Hc0 Hll).
      cbn [map concat]. rewrite <- app_assoc. reflexivity.
    + rewrite !ids_int, (concat_map_snoc ids lc (length lv) c0 Hc0 Hll).
      cbn [map concat]. rewrite <- app_assoc. reflexivity.
    + constructor; [rewrite length_removelast; lia|]. apply Forall_take. exact Hflc.
    + constructor; [cbn [length]; lia|]. constructor; [|exact Hcsub].
      exact (Forall_lookup_1 _ _ _ _ Hflc Hc0).
    + constructor; [rewrite length_take, length_removelast; lia|]. apply Forall_take. exact Hblc.
    + constructor; [cbn [length]; lia|]. constructor; [|exact Hbcc].
      exact (Forall_lookup_1 _ _ _ _ Hblc Hc0).
    + exact Hb.
    + exact Hf1.
    + exact Hf2.
    + exact Hnd.
    + exact Hch.
Qed.

Lemma merge_fuse_right :
  merge_case N pos (length vs) cs = Some (Fuse MergeDirection.RIGHT) -> pos < length vs ->
  (exists r, cs !! S pos = Some r /\ node_size r = N) ->
  exists res, merge N pos vs cs h = Some res /\ merge_post N d lo hi vs cs P Q res /\
    fuse_shape N pos vs cs res.
Proof.
  intros Hmc Hp (r & Hr & Hrn0).
  assert (Hrn : N <= node_size r <= N) by lia. clear Hrn0.
  pose proof (routed_seq_length _ _ _ _ HR) as Hlen.
  destruct (lookup_lt_is_Some_2 vs pos Hp) as [s Hs].
  pose proof (Forall_lookup_1 _ _ _ _ Hb Hc) as Hbc.
  pose proof (Forall_lookup_1 _ _ _ _ Hb Hr) as Hbr.
  pose proof (Hf (S pos) r ltac:(lia) Hr) as Hfr.
  destruct (others_take_drop (filled N) cs pos pos Hf (or_introl eq_refl)) as [Hf1 Hf2].
  pose proof (lookup_two cs pos _ _ Hc Hr) as Hcs2.
  unfold merge. cbv zeta. rewrite Hc, bind_Some, Hmc, bind_Some.
  destruct c as [cid cv | cv cc].
  - inversion Hbc; subst. inversion Hbr as [rid rv|]; subst.
    unfold node_size in Hrn, Hcn. cbn [node_values] in Hrn, Hcn.
    rewrite Hr, bind_Some.
    assert (E : P ++ concat (map ids cs) ++ Q =
                (P ++ concat (map ids (take pos cs))) ++ cid :: rid ::
                (concat (map ids (drop (S (S pos)) cs)) ++ Q)).
    { rewrite Hcs2 at 1. rewrite ids_window_two, !ids_ext. reflexivity. }
    rewrite E in Hch, Hnd.
    destruct (chain_fuse_mid _ _ _ _ _ Hch Hnd) as (Hy & h1 & h2 & E1 & E2 & Hch2 & Hnd2).
    rewrite Hy, bind_Some. cbn [right_neighbour]. rewrite E1, bind_Some, E2, bind_Some.
    rewrite merge_finish_right_fuse
      by (try exact Hp; try exact Hlen; unfold node_size; cbn [node_values]; rewrite length_app; lia).
    eexists; split; [reflexivity|]. split; cycle 1.
    { do 3 eexists; split; [left; reflexivity|]. split; [reflexivity|].
      unfold node_size; cbn [node_values]; rewrite length_app; cbn [length]; lia. }
    apply (fuse_post N 0 lo hi vs cs (delete rid h2) P Q pos s _ _ _ HR Hs Hc Hr).
    + intros. eapply leaf_fuse; eauto.
    + rewrite !keys_ext. reflexivity.
    + constructor. rewrite length_app. lia.
    + constructor.
    + exact Hb.
    + exact Hf1.
    + exact Hf2.
    + rewrite ids_window_one, ids_ext. exact Hnd2.
    + rewrite ids_window_one, ids_ext. exact Hch2.
    + rewrite Hcs2 at 3. rewrite concat_map_two, map_app, concat_app. cbn [map concat].
      rewrite !ids_ext. apply head_window_one.
  - inversion Hbc as [|d' ? ? Hlc Hbcc]; subst. inversion Hbr as [|? rv rc Hlr Hbrc]; subst.
    inversion Hfr as [|? ? Hrl Hfrc]; subst.
    unfold node_size in Hrn, Hcn. cbn [node_values] in Hrn, Hcn. cbn [sub_filled] in Hcsub.
    rewrite Hr, bind_Some, Hs, bind_Some.
    rewrite merge_finish_right_fuse
      by (try exact Hp; try exact Hlen; unfold node_size; cbn [node_values];
          rewrite length_app; cbn [length]; lia).
    eexists; split; [reflexivity|]. split; cycle 1.
    { do 3 eexists; split; [left; reflexivity|]. split; [reflexivity|].
      unfold node_size; cbn [node_values]; rewrite length_app; cbn [length]; lia. }
    assert (Hids : concat (map ids (take pos cs ++ InternalNode (cv ++ s :: rv) (cc ++ rc)
                                      :: drop (S (S pos)) cs)) = concat (map ids cs)).
    { symmetry. rewrite Hcs2 at 1. rewrite concat_map_two, map_app, concat_app. cbn [map concat].
      rewrite !ids_int, map_app, concat_app, <- app_assoc. reflexivity. }
    apply (fuse_post N (S d') lo hi vs cs h P Q pos s _ _ _ HR Hs Hc Hr).
    + intros. eapply int_fuse; eauto.
    + rewrite !keys_int, map_app, concat_app. reflexivity.
    + constructor; [rewrite length_app; cbn [length]; lia|]. apply Forall_app; auto.
    + constructor; [rewrite !length_app; cbn [length]; lia|]. apply Forall_app; auto.
    + exact Hb.
    + exact Hf1.
    + exact Hf2.
    + rewrite Hids. exact Hnd.
    + rewrite Hids. exact Hch.
    + rewrite Hids. reflexivity.
Qed.

Lemma merge_fuse_left :
  merge_case N pos (length vs) cs = Some (Fuse MergeDirection.LEFT) -> pos = length vs ->
  (exists l, cs !! (pos - 1) = Some l /\ node_size l = N) ->
  exists res, merge N pos vs cs h = Some res /\ merge_post N d lo hi vs cs P Q res /\
    fuse_shape N pos vs cs res.
Proof.
  intros Hmc Hpm (l & Hl & Hln0).
  assert (Hln : N <= node_size l <= N) by lia. clear Hln0.
  pose proof (routed_seq_length _ _ _ _ HR) as Hlen.
  destruct pos as [|p].
  { replace (0 - 1) with 0 in Hl by lia. rewrite Hc in Hl. injection Hl as ->. lia. }
  assert (Ep : S p - 1 = p) by lia. rewrite Ep in Hl.
  destruct (lookup_lt_is_Some_2 vs p ltac:(lia)) as [s Hs].
  pose proof (Forall_lookup_1 _ _ _ _ Hb Hc) as Hbc.
  pose proof (Forall_lookup_1 _ _ _ _ Hb Hl) as Hbl.
  pose proof (Hf p l ltac:(lia) Hl) as Hfl.
  destruct (others_take_drop (filled N) cs (S p) p Hf (or_intror eq_refl)) as [Hf1 Hf2].
  pose proof (lookup_two cs p _ _ Hl Hc) as Hcs2.
  unfold merge. cbv zeta. rewrite Hc, bind_Some, Hmc, bind_Some.
  destruct c as [cid cv | cv cc].
  - cbn [prev_child]. rewrite Hl, bind_Some.
    inversion Hbc; subst. inversion Hbl as [lid lv|]; subst.
    unfold node_size in Hln, Hcn. cbn [node_values] in Hln, Hcn.
    assert (E : P ++ concat (map ids cs) ++ Q =
                (P ++ concat (map ids (take p cs))) ++ lid :: cid ::
                (concat (map ids (drop (S (S p)) cs)) ++ Q)).
    { rewrite Hcs2 at 1. rewrite ids_window_two, !ids_ext. reflexivity. }
    rewrite E in Hch, Hnd.
    destruct (chain_fuse_mid _ _ _ _ _ Hch Hnd) as (Hy & h1 & h2 & E1 & E2 & Hch2 & Hnd2).
    rewrite Hy, bind_Some. cbn [right_neighbour]. rewrite E1, bind_Some, E2, bind_Some.
    pose proof (merge_finish_left_fuse N vs cs (delete cid h2) (ExternalNode lid (lv ++ cv))
                  ltac:(lia) Hlen) as EF.
    rewrite <- Hpm, Ep in EF. rewrite <- Hpm, Ep.
    rewrite EF by (unfold node_size; cbn [node_values]; rewrite length_app; lia).
    eexists; split; [reflexivity|]. split; cycle 1.
    { do 3 eexists; split; [right; reflexivity|]. split; [reflexivity|].
      unfold node_size; cbn [node_values]; rewrite length_app; cbn [length]; lia. }
    apply (fuse_post N 0 lo hi vs cs (delete cid h2) P Q p s _ _ _ HR Hs Hl Hc).
    + intros. eapply leaf_fuse; eauto.
    + rewrite !keys_ext. reflexivity.
    + constructor. rewrite length_app. lia.
    + constructor.
    + exact Hb.
    + exact Hf1.
    + exact Hf2.
    + rewrite ids_window_one, ids_ext. exact Hnd2.
    + rewrite ids_window_one, ids_ext. exact Hch2.
    + rewrite Hcs2 at 3. rewrite concat_map_two, map_app, concat_app. cbn [map concat].
      rewrite !ids_ext. apply head_window_one.
  - cbn [prev_child]. rewrite Hl, bind_Some.
    inversion Hbc as [|d' ? ? Hlc Hbcc]; subst. inversion Hbl as [|? lv lc Hll Hblc]; subst.
    inversion Hfl as [|? ? Hlv Hflc]; subst.
    unfold node_size in Hln, Hcn. cbn [node_values] in Hln, Hcn. cbn [sub_filled] in Hcsub.
    rewrite Ep, Hs, bind_Some.
    pose proof (merge_finish_left_fuse N vs cs h (InternalNode (lv ++ s :: cv) (lc ++ cc))
                  ltac:(lia) Hlen) as EF.
    rewrite <- Hpm, Ep in EF. rewrite <- Hpm.
    rewrite EF by (unfold node_size; cbn [node_values]; rewrite length_app; cbn [length]; lia).
    eexists; split; [reflexivity|]. split; cycle 1.
    { do 3 eexists; split; [right; reflexivity|]. split; [reflexivity|].
      unfold node_size; cbn [node_values]; rewrite length_app; cbn [length]; lia. }
    assert (Hids : concat (map ids (take p cs ++ InternalNode (lv ++ s :: cv) (lc ++ cc)
                                      :: drop (S (S p)) cs)) = concat (map ids cs)).
    { symmetry. rewrite Hcs2 at 1. rewrite concat_map_two, map_app, concat_app. cbn [map concat].
      rewrite !ids_int, map_app, concat_app, <- app_assoc. reflexivity. }
    apply (fuse_post N (S d') lo hi vs cs h P Q p s _ _ _ HR Hs Hl Hc).
    + intros. eapply int_fuse; eauto.
    + rewrite !keys_int, map_app, concat_app. reflexivity.
    + constructor; [rewrite length_app; cbn [length]; lia|]. apply Forall_app; auto.
    + constructor; [rewrite !length_app; cbn [length]; lia|]. apply Forall_app; auto.
    + exact Hb.
    + exact Hf1.
    + exact Hf2.
    + rewrite Hids. exact Hnd.
    + rewrite Hids. exact Hch.
    + rewrite Hids. reflexivity.
Qed.

Lemma merge_sizes : forall j z, j <> pos -> cs !! j = Some z -> N <= node_size z.
Proof. intros j z Hj Hz. apply filled_iff. exact (Hf j z Hj Hz). Qed.

Lemma merge_spec :
  1 <= length vs ->
  exists res, merge N pos vs cs h = Some res /\ merge_post N d lo hi vs cs P Q res.
Proof.
  intros Hm. pose proof (routed_seq_length _ _ _ _ HR) as Hlen.
  destruct (merge_case_cases N pos (length vs) cs Hm Hpos Hlen merge_sizes)
    as (mc & Hmc & Hcase).
  destruct mc as [| |[]]; destruct Hcase as [H1 H2].
  - apply merge_from_right; auto.
  - apply merge_from_left; auto.
  - destruct (merge_fuse_left Hmc H1 H2) as (res & E & Hp & _). eauto.
  - destruct (merge_fuse_right Hmc H1 H2) as (res & E & Hp & _). eauto.
Qed.

Lemma merge_fuse_spec dir :
  1 <= length vs -> merge_case N pos (length vs) cs = Some (Fuse dir) ->
  exists res, merge N pos vs cs h = Some res /\ fuse_shape N pos vs cs res.
Proof.
  intros Hm Hmc0. pose proof (routed_seq_length _ _ _ _ HR) as Hlen.
  destruct (merge_case_cases N pos (length vs) cs Hm Hpos Hlen merge_sizes)
    as (mc & Hmc & Hcase).
  rewrite Hmc0 in Hmc. injection Hmc as <-.
  destruct dir; destruct Hcase as [H1 H2].
  - destruct (merge_fuse_left Hmc0 H1 H2) as (res & E & _ & Hs). eauto.
  - destruct (merge_fuse_right Hmc0 H1 H2) as (res & E & _ & Hs). eauto.
Qed.

End MergeCases.

(** ** [remove_elem] *)

Lemma ext_remove_elem_spec N v k :
  StronglySorted Z.lt v ->
  (k ∉ v -> ext_remove_elem N v k = (EraseMsg.NOT_EXISTENT, v)) /\
  (k ∈ v -> exists v', ext_remove_elem N v k =
     (if length v' <? N then EraseMsg.MERGE else EraseMsg.SUCCESS, v') /\
     StronglySorted Z.lt v' /\ v ≡ₚ k :: v' /\ S (length v') = length v).
Proof.
  intros HS. unfold ext_remove_elem. split.
  - intros Hk. apply (ext_find_pos_iff v k HS) in Hk. rewrite Hk. reflexivity.
  - intros Hk. pose proof (ext_find_pos_complete v k HS Hk) as Hne.
    destruct (ext_find_pos_sound v k Hne) as [H0 Hi].
    destruct (Z.eqb_spec (ext_find_pos v k) (-1)) as [E|_]; [contradiction|].
    set (i := Z.to_nat (ext_find_pos v k)) in *.
    pose proof (lookup_lt_Some _ _ _ Hi) as Hlt.
    pose proof (take_drop_middle v i k Hi) as Hv.
    exists (take i v ++ drop (S i) v). split; [reflexivity|].
    split; [|split].
    + rewrite <- Hv in HS. apply SS_app in HS as (H1 & H2 & H3).
      apply SS_cons_iff in H2 as [H2 _]. apply SS_app. split; [exact H1|]. split; [exact H2|].
      intros x y Hx Hy. apply H3; [exact Hx | apply elem_of_cons; right; exact Hy].
    + rewrite <- Hv at 1. symmetry. apply Permutation_middle.
    + rewrite length_app, length_take, length_drop. lia.
Qed.

Section Remove.
Variable N : nat.
Hypothesis HN : 1 <= N.

Lemma remove_spec d : forall t lo hi h P Q k,
  bal d t -> routed lo hi t -> in_range lo hi k -> root_ok N t ->
  NoDup (P ++ ids t ++ Q) -> chain None (P ++ ids t ++ Q) h ->
  exists res, remove_elem N t k h = Some res /\ remove_post N t k h P Q d lo hi res.
Proof.
  induction d as [|d IH]; intros t lo hi h P Q k Hb HR Hk Hok Hnd Hch.
  - inversion Hb; subst. inversion HR as [? ? ? ? HS HF|]; subst.
    destruct (ext_remove_elem_spec N v k HS) as [Hnin Hin].
    cbn [remove_elem]. destruct (decide (k ∈ v)) as [Hkv|Hkv].
    + destruct (Hin Hkv) as (v' & -> & HS' & Hp & Hl).
      eexists; split; [reflexivity|]; unfold remove_post.
      destruct Hok as [Hsz _]. unfold node_size in Hsz |- *. cbn [node_values] in Hsz |- *.
      assert (HF' : Forall (in_range lo hi) v').
      { rewrite Hp in HF. apply Forall_cons in HF as [_ HF]. exact HF. }
      rewrite !keys_ext.
      split; [constructor|]. split; [constructor; auto|].
      split; [exact Hnd|]. split; [exact Hch|]. split; [reflexivity|].
      destruct (Nat.ltb_spec (length v') N).
      * repeat split; auto; lia.
      * split; [exact Hkv|]. split; [exact Hp|].
        split; [split; [unfold node_size; cbn [node_values]; lia|split; exact I]|].
        split; [left; lia|lia].
    + rewrite (Hnin Hkv). eexists; split; [reflexivity|]; unfold remove_post.
      rewrite keys_ext; repeat split; auto.
  - inversion Hb as [|d' vs cs Hlen Hbc]; subst.
    inversion HR as [|? ? ? ? HRs]; subst.
    destruct Hok as (Hsz & Hsf & Hone).
    change (node_size (InternalNode vs cs)) with (length vs) in Hsz.
    cbn [sub_filled] in Hsf.
    pose proof (find_pos_le vs k) as Hle.
    destruct (lookup_lt_is_Some_2 cs (find_pos vs k)) as [c Hc]; [lia|].
    destruct (routed_descend _ _ _ _ _ _ HRs Hk Hc) as (b & Hpre & Hseq & Hkc & Hiff).
    set (pos := find_pos vs k) in *.
    pose proof (routed_seq_head _ _ _ _ _ Hseq) as Hcr.
    assert (Hcf : filled N c) by (eapply Forall_lookup_1; eauto).
    assert (Hcb : bal d c) by (eapply Forall_lookup_1; eauto).
    pose proof Hnd as Hnd0. pose proof Hch as Hch0.
    rewrite ids_int, (concat_map_middle ids cs pos c Hc) in Hnd, Hch.
    set (A := concat (map ids (take pos cs))) in *.
    set (B := concat (map ids (drop (S pos) cs))) in *.
    assert (Hnd' : NoDup ((P ++ A) ++ ids c ++ (B ++ Q))) by (rewrite mid_assoc; exact Hnd).
    assert (Hch' : chain None ((P ++ A) ++ ids c ++ (B ++ Q)) h)
      by (rewrite mid_assoc; exact Hch).
    destruct (IH c _ _ h (P ++ A) (B ++ Q) k Hcb Hcr Hkc (filled_root_ok N c HN Hcf) Hnd' Hch')
      as ([[r c'] h1] & Hrem & Hpost).
    cbn [remove_elem]. rewrite apply_at_spec. fold pos. rewrite Hc, bind_Some, Hrem, bind_Some.
    cbv beta iota.
    destruct Hpost as (Hb' & HR' & Hnd1 & Hch1 & Hhd & Hr).
    rewrite mid_assoc in Hnd1, Hch1.
    assert (Hpos : pos < length cs) by (eapply lookup_lt_Some; eauto).
    assert (HRs' : routed_seq lo hi vs (<[pos := c']> cs)).
    { eapply routed_seq_update; eauto; [rewrite length_drop; lia|].
      rewrite (drop_S _ _ _ Hc). exact Hseq. }
    assert (HI : forall {X} (f : Node -> list X),
               concat (map f (<[pos := c']> cs)) =
               concat (map f (take pos cs)) ++ f c' ++ concat (map f (drop (S pos) cs)))
      by (intros; apply concat_map_insert with (c := c); exact Hc).
    apply filled_iff in Hcf as [Hcs Hcsf].
    destruct r.
    + (* SUCCESS *)
      eexists; split; [reflexivity|]; unfold remove_post.
      destruct Hr as (Hkin & Hperm & Hok' & Hgrow & Hsz').
      split; [constructor; [rewrite length_insert; auto | apply Forall_insert; auto]|].
      split; [constructor; exact HRs'|].
      rewrite ids_int, HI. fold A B.
      split; [exact Hnd1|]. split; [exact Hch1|].
      split; [rewrite ids_int, (concat_map_middle ids cs pos c Hc); apply head_mid; exact Hhd|].
      rewrite !keys_int, HI, (concat_map_middle keys cs pos c Hc).
      split; [rewrite <- (concat_map_middle keys cs pos c Hc), Hiff; exact Hkin|].
      split; [rewrite Hperm; apply perm_mid|].
      change (node_size (InternalNode vs (<[pos:=c']> cs))) with (length vs).
      change (node_size (InternalNode vs cs)) with (length vs).
      split; [|split; [right; reflexivity|lia]].
      split; [exact Hsz|]. split; [|exact Hone].
      apply Forall_insert; [exact Hsf|].
      apply filled_iff. destruct Hok' as (Hs' & Hsf' & _). split; [lia | exact Hsf'].
    + (* NOT_EXISTENT *)
      destruct Hr as (-> & -> & Hkin).
      rewrite (list_insert_id _ _ _ Hc).
      eexists; split; [reflexivity|]; unfold remove_post.
      split; [constructor; auto|]. split; [constructor; auto|].
      split; [exact Hnd0|]. split; [exact Hch0|]. split; [reflexivity|].
      split; [reflexivity|]. split; [reflexivity|].
      rewrite keys_int, Hiff. exact Hkin.
    + (* MERGE *)
      destruct Hr as (Hkin & Hperm & Hlt & Hsf' & Hsz').
      assert (Hc' : <[pos := c']> cs !! pos = Some c') by (apply list_lookup_insert_eq; lia).
      assert (Hnd1' : NoDup (P ++ concat (map ids (<[pos := c']> cs)) ++ Q))
        by (rewrite HI; exact Hnd1).
      assert (Hch1' : chain None (P ++ concat (map ids (<[pos := c']> cs)) ++ Q) h1)
        by (rewrite HI; exact Hch1).
      assert (Hfo : forall j z, j <> pos -> <[pos := c']> cs !! j = Some z -> filled N z).
      { intros j z Hj Hz. rewrite list_lookup_insert_ne in Hz by congruence.
        exact (Forall_lookup_1 _ _ _ _ Hsf Hz). }
      destruct (merge_spec N HN d lo hi vs (<[pos := c']> cs) h1 P Q pos c' HRs' Hle Hc'
                  ltac:(lia) Hsf' (Forall_insert _ _ _ _ Hbc Hb') Hfo Hnd1' Hch1' Hone)
        as ([[vs2 cs2] h2] & Hm & Hmp).
      rewrite bind_Some. cbv beta iota. rewrite Hm, bind_Some. cbv beta iota.
      destruct Hmp as (Hl2 & Hlv & Hf2 & Hb2 & HR2 & Hk2 & Hnd2 & Hch2 & Hhd2).
      eexists; split; [reflexivity|]; unfold remove_post.
      split; [constructor; auto|]. split; [constructor; auto|].
      rewrite !ids_int. split; [exact Hnd2|]. split; [exact Hch2|].
      split.
      { rewrite Hhd2, HI, (concat_map_middle ids cs pos c Hc). apply head_mid; exact Hhd. }
      assert (Hkin2 : k ∈ keys (InternalNode vs cs)) by (rewrite keys_int, Hiff; exact Hkin).
      assert (Hk2' : keys (InternalNode vs cs) ≡ₚ k :: keys (InternalNode vs2 cs2)).
      { rewrite !keys_int, Hk2, HI, (concat_map_middle keys cs pos c Hc), Hperm.
        apply perm_mid. }
      change (node_size (InternalNode vs2 cs2)) with (length vs2).
      change (node_size (InternalNode vs cs)) with (length vs).
      unfold min_size. destruct (Nat.leb_spec N (length vs2)).
      * split; [exact Hkin2|]. split; [exact Hk2'|].
        split; [|split; [left; lia|lia]].
        split; [unfold node_size; cbn [node_values]; lia|]. split; [exact Hf2|]. lia.
      * split; [exact Hkin2|]. split; [exact Hk2'|].
        split; [lia|]. split; [exact Hf2|]. lia.
Qed.

End Remove.

(** ** The container: [insert] *)

Lemma find_node_some d : forall t k, bal d t -> exists it, find_node t k = Some it.
Proof.
  induction d as [|d IH]; intros t k Hb; inversion Hb as [id v|? vs cs Hl Hbc]; subst.
  - cbn [find_node]. destruct (length v =? 0); [eauto|].
    destruct (ext_find_pos v k =? -1)%Z; eauto.
  - cbn [find_node]. rewrite read_at_spec.
    pose proof (find_pos_le vs k).
    destruct (lookup_lt_is_Some_2 cs (find_pos vs k)) as [c Hc]; [lia|].
    rewrite Hc, bind_Some. apply (IH c k). exact (Forall_lookup_1 _ _ _ _ Hbc Hc).
Qed.

Lemma nodup_nil_app (l : list nat) : NoDup l -> NoDup ([] ++ l ++ []).
Proof. rewrite app_nil_r. auto. Qed.

Lemma chain_nil_app (l : list nat) h : chain None l h -> chain None ([] ++ l ++ []) h.
Proof. rewrite app_nil_r. auto. Qed.

Lemma inv_construct N h0 : inv N (fst (ADS.construct h0)) (snd (ADS.construct h0)).
Proof.
  unfold ADS.construct. cbn [fst snd]. constructor; cbn [root sz left_leaf].
  - exists 0. constructor.
  - unfold root_ok, node_size. cbn. lia.
  - constructor; constructor.
  - rewrite ids_ext. apply NoDup_singleton.
  - rewrite ids_ext. cbn. split; [apply lookup_insert_eq|exact I].
  - reflexivity.
  - rewrite keys_ext. reflexivity.
Qed.

Section Container.
Variable N : nat.
Hypothesis HN : 1 <= N.

Lemma insert_spec s h k :
  inv N s h ->
  exists it b s' h', ADS.insert N s h k = Some ((it, b), (s', h')) /\
    ADS.find s' k = Some it /\ inv N s' h' /\ k ∈ keys (root s') /\
    (if b then ((k ∉ keys (root s)) /\ keys (root s') ≡ₚ k :: keys (root s) /\ sz s' = S (sz s))
     else (s' = s /\ h' = h)).
Proof.
  intros [[d Hb] Hok HR Hnd Hch Hleft Hsz].
  assert (Hk : in_range None None k) by (split; exact I).
  destruct (add_spec N HN d (root s) None None h [] [] k Hb HR Hk Hok
              (nodup_nil_app _ Hnd) (chain_nil_app _ _ Hch))
    as ([[r t'] h1] & Hadd & Hpost).
  destruct Hpost as (Hb' & HR' & Hnd1 & Hch1 & Hhd & Hr).
  rewrite app_nil_r in Hnd1, Hch1. cbn [app] in Hnd1, Hch1.
  unfold ADS.insert. rewrite Hadd, bind_Some. cbv beta iota.
  destruct r.
  - (* SUCCESS *)
    destruct Hr as (Hkn & Hperm & Hok' & _).
    destruct (find_node_some d t' k Hb') as [it Hit].
    unfold ADS.find at 1. cbn [root]. rewrite Hit, bind_Some.
    do 4 eexists; split; [reflexivity|].
    split; [exact Hit|].
    split.
    { constructor; cbn [root sz left_leaf]; eauto.
      - rewrite Hhd. exact Hleft.
      - rewrite (Permutation_length Hperm). cbn [length]. rewrite Hsz. reflexivity. }
    cbn [root sz]. split; [rewrite Hperm; left|]. auto.
  - (* EXISTS *)
    destruct Hr as (-> & -> & Hkin).
    destruct s as [sz0 t0 ll]. cbn [root sz left_leaf] in *.
    destruct (find_node_some d t0 k Hb) as [it Hit].
    unfold ADS.find at 1. cbn [root]. rewrite Hit, bind_Some.
    do 4 eexists; split; [reflexivity|].
    split; [exact Hit|]. split; [constructor; eauto|]. auto.
  - (* SPLIT *)
    destruct Hr as (Hkn & Hperm & Hsz' & Hsf').
    assert (HRs : routed_seq None None [] [t']) by (constructor; exact HR').
    assert (Hnd1' : NoDup ([] ++ concat (map ids [t']) ++ []))
      by (cbn [map concat app]; rewrite !app_nil_r; exact Hnd1).
    assert (Hch1' : chain None ([] ++ concat (map ids [t']) ++ []) h1)
      by (cbn [map concat app]; rewrite !app_nil_r; exact Hch1).
    destruct (split_spec N HN 0 [] [t'] h1 None None [] [] d t' HRs eq_refl Hsz' Hsf' Hb'
                Hnd1' Hch1')
      as (w & cl & cr & h2 & Hsplit & Hfl & Hfr & Hbl & Hbr & Hkeys & HR2 & Hnd2 & Hch2 & Hhd2).
    cbn [take drop app] in Hsplit, HR2, Hnd2, Hch2, Hhd2.
    rewrite app_nil_r in Hnd2, Hch2.
    rewrite Hsplit, bind_Some. cbv beta iota.
    assert (Hb2 : bal (S d) (InternalNode [w] [cl; cr])) by (repeat constructor; auto).
    destruct (find_node_some (S d) _ k Hb2) as [it Hit].
    unfold ADS.find at 1. cbn [root]. rewrite Hit, bind_Some.
    do 4 eexists; split; [reflexivity|].
    split; [exact Hit|].
    assert (Hk2 : keys (InternalNode [w] [cl; cr]) = keys t').
    { rewrite keys_int. cbn [map concat]. rewrite app_nil_r. exact Hkeys. }
    split.
    { constructor; cbn [root sz left_leaf]; eauto.
      - split; [unfold node_size; cbn; lia|]. split; [repeat constructor; auto|]. cbn; lia.
      - constructor. exact HR2.
      - rewrite ids_int. exact Hnd2.
      - rewrite ids_int. exact Hch2.
      - rewrite ids_int, Hhd2. cbn [map concat]. rewrite app_nil_r, Hhd. exact Hleft.
      - rewrite Hk2, (Permutation_length Hperm). cbn [length]. rewrite Hsz. reflexivity. }
    cbn [root sz]. rewrite Hk2. split; [rewrite Hperm; left|]. auto.
Qed.

End Container.

(** ** The container: [erase], [clear] and the reachable states *)

Section Container2.
Variable N : nat.
Hypothesis HN : 1 <= N.

Lemma erase_spec s h k :
  inv N s h ->
  exists n s' h', ADS.erase N s h k = Some (n, (s', h')) /\ inv N s' h' /\
    (k ∈ keys (root s) -> n = 1 /\ keys (root s) ≡ₚ k :: keys (root s') /\ sz s' = pred (sz s)) /\
    (k ∉ keys (root s) -> n = 0 /\ s' = s /\ h' = h).
Proof.
  intros [[d Hb] Hok HR Hnd Hch Hleft Hsz].
  assert (Hk : in_range None None k) by (split; exact I).
  destruct (remove_spec N HN d (root s) None None h [] [] k Hb HR Hk Hok
              (nodup_nil_app _ Hnd) (chain_nil_app _ _ Hch))
    as ([[r t'] h1] & Hrem & Hpost).
  destruct Hpost as (Hb' & HR' & Hnd1 & Hch1 & Hhd & Hr).
  rewrite app_nil_r in Hnd1, Hch1. cbn [app] in Hnd1, Hch1.
  unfold ADS.erase. rewrite Hrem, bind_Some. cbv beta iota.
  destruct r.
  - (* SUCCESS *)
    destruct Hr as (Hkin & Hperm & Hok' & _).
    do 3 eexists; split; [reflexivity|].
    split.
    { constructor; cbn [root sz left_leaf]; eauto.
      - rewrite Hhd. exact Hleft.
      - rewrite Hsz, (Permutation_length Hperm). reflexivity. }
    split; [intros _; cbn [root sz]; split; [reflexivity|]; split; [exact Hperm|reflexivity]|].
    intros Hn; contradiction.
  - (* NOT_EXISTENT *)
    destruct Hr as (-> & -> & Hkn).
    destruct s as [sz0 t0 ll]. cbn [root sz left_leaf] in *.
    do 3 eexists; split; [reflexivity|].
    split; [constructor; eauto|].
    split; [intros; contradiction|]. auto.
  - (* MERGE *)
    destruct Hr as (Hkin & Hperm & Hlt & Hsf & _).
    assert (Hsz' : sz s = S (length (keys t'))) by (rewrite Hsz, (Permutation_length Hperm); reflexivity).
    destruct t' as [id v|vs cs].
    + rewrite bind_Some. cbv beta iota.
      do 3 eexists; split; [reflexivity|].
      split.
      { constructor; cbn [root sz left_leaf]; eauto.
        - split; [unfold node_size in *; cbn in *; lia|split; exact I].
        - rewrite Hhd. exact Hleft.
        - rewrite Hsz'. reflexivity. }
      split; [intros _; cbn [root sz]; auto|]. intros Hn; contradiction.
    + destruct (Nat.eqb_spec (length vs) 0) as [H0|H0].
      * inversion Hb' as [|d' vs' cs' Hlen Hbc]; subst.
        destruct vs; [|discriminate H0].
        destruct cs as [|c [|c' cs]]; try discriminate Hlen.
        cbn [lookup list_lookup]. rewrite bind_Some. cbv beta iota.
        rewrite ids_int in Hnd1, Hch1, Hhd. cbn [map concat] in Hnd1, Hch1, Hhd.
        rewrite app_nil_r in Hnd1, Hch1, Hhd.
        inversion HR' as [|? ? ? ? HRs]; subst. inversion HRs; subst.
        cbn [sub_filled] in Hsf. apply Forall_cons in Hsf as [Hfc _].
        apply Forall_cons in Hbc as [Hbc _].
        assert (Hkc : keys (InternalNode [] [c]) = keys c)
          by (rewrite keys_int; cbn [map concat]; apply app_nil_r).
        do 3 eexists; split; [reflexivity|].
        split.
        { constructor; cbn [root sz left_leaf]; eauto.
          - apply filled_root_ok; auto.
          - rewrite Hhd. exact Hleft.
          - rewrite Hsz', Hkc. reflexivity. }
        split; [intros _; cbn [root sz]; rewrite <- Hkc; auto|]. intros Hn; contradiction.
      * rewrite bind_Some. cbv beta iota.
        do 3 eexists; split; [reflexivity|].
        split.
        { constructor; cbn [root sz left_leaf]; eauto.
          - split; [unfold node_size in *; cbn in *; lia|]. split; [exact Hsf|]. lia.
          - rewrite Hhd. exact Hleft.
          - rewrite Hsz'. reflexivity. }
        split; [intros _; cbn [root sz]; auto|]. intros Hn; contradiction.
Qed.

Lemma inv_clear s h : inv N (fst (ADS.clear s h)) (snd (ADS.clear s h)).
Proof. unfold ADS.clear. apply inv_construct. Qed.

Lemma reachable_inv s h : reachable N s h -> inv N s h.
Proof.
  induction 1 as [h0|s h k r s' h' _ IH Hi|s h k r s' h' _ IH He|s h _ IH].
  - apply inv_construct.
  - destruct (insert_spec N HN s h k IH) as (it & b & s1 & h1 & Heq & _ & Hinv & _).
    rewrite Hi in Heq. inversion Heq; subst. exact Hinv.
  - destruct (erase_spec s h k IH) as (n & s1 & h1 & Heq & Hinv & _).
    rewrite He in Heq. inversion Heq; subst. exact Hinv.
  - apply inv_clear.
Qed.

End Container2.

(** ** Iteration *)

Lemma walk_spec vals h : forall fuel id v i R prev,
  vals id = Some v -> i < length v ->
  Forall (fun p : nat * list Z => vals p.1 = Some p.2 /\ p.2 <> []) R ->
  h !! id = Some (mkLinks prev (head (map fst R))) ->
  chain (Some id) (map fst R) h ->
  length (drop i v) + length (concat (map snd R)) <= fuel ->
  walk fuel vals h (mkIterator (Some id) i) = Some (drop i v ++ concat (map snd R)).
Proof.
  induction fuel as [|f IH]; intros id v i R prev Hv Hi HR Hl Hch Hf.
  - rewrite length_drop in Hf. lia.
  - cbn [walk]. unfold iterator_eqb, end_iterator, deref, incr.
    cbn [current_node current_element andb]. cbv beta iota.
    destruct (lookup_lt_is_Some_2 v i Hi) as [x Hx].
    repeat progress (rewrite ?Hv, ?Hx, ?bind_Some; cbv beta).
    rewrite (drop_S v x i Hx).
    destruct (Nat.leb_spec (length v) (S i)) as [Hle|Hgt].
    + rewrite Hl, bind_Some. cbn [right_neighbour].
      rewrite (drop_ge v (S i)) by lia.
      destruct R as [|[id2 v2] R].
      * cbn [map head]. destruct f; reflexivity.
      * cbn [map head fst snd concat] in *.
        apply Forall_cons in HR as [[Hv2 Hne] HR]. cbn [fst snd] in Hv2, Hne.
        destruct Hch as [Hl2 Hch].
        assert (Hlen2 : 0 < length v2) by (destruct v2; [congruence|cbn; lia]).
        rewrite bind_Some. cbv beta.
        rewrite (IH id2 v2 0 R (Some id) Hv2 Hlen2 HR Hl2 Hch).
        { rewrite bind_Some. reflexivity. }
        rewrite drop_0. rewrite length_app, length_drop in Hf. lia.
    + rewrite ?bind_Some. cbv beta.
      rewrite (IH id v (S i) R prev Hv ltac:(lia) HR Hl Hch).
      { rewrite bind_Some. reflexivity. }
      rewrite !length_drop in *. lia.
Qed.

Lemma assoc_leaf_in n v L : NoDup (map fst L) -> In (n, v) L -> assoc_leaf n L = Some v.
Proof.
  induction L as [|[i w] L IH]; cbn [map fst]; intros Hnd Hin; [destruct Hin|].
  apply NoDup_cons in Hnd as [Hni Hnd].
  cbn [assoc_leaf]. destruct Hin as [Heq|Hin].
  - injection Heq as -> ->. rewrite Nat.eqb_refl. reflexivity.
  - destruct (Nat.eqb_spec i n) as [->|]; [|auto].
    exfalso. apply Hni. apply list_elem_of_In, in_map_iff. exists (n, v). auto.
Qed.

Lemma filled_leaves_nonempty N (HN : 1 <= N) d : forall t, bal d t -> filled N t ->
  Forall (fun p : nat * list Z => p.2 <> []) (leaves t).
Proof.
  induction d as [|d IH]; intros t Hb Hf; inversion Hb as [id v|? vs cs _ Hbc]; subst.
  - inversion Hf; subst. cbn [leaves]. constructor; [|constructor].
    cbn [snd]. destruct v; cbn in *; [lia|congruence].
  - inversion Hf as [|? ? _ Hfc]; subst. cbn [leaves].
    apply Forall_concat, Forall_forall. intros l Hl.
    apply list_elem_of_In, in_map_iff in Hl as (c & <- & Hc). apply list_elem_of_In in Hc.
    apply IH; [eapply Forall_forall in Hbc|eapply Forall_forall in Hfc]; eauto.
Qed.

Lemma root_leaves_nonempty N (HN : 1 <= N) d t : bal d t -> root_ok N t -> keys t <> [] ->
  Forall (fun p : nat * list Z => p.2 <> []) (leaves t).
Proof.
  intros Hb [_ [Hsf _]] Hk. inversion Hb as [id v|? vs cs _ Hbc]; subst.
  - rewrite keys_ext in Hk. cbn [leaves]. repeat constructor. exact Hk.
  - cbn [sub_filled] in Hsf. cbn [leaves].
    apply Forall_concat, Forall_forall. intros l Hl.
    apply list_elem_of_In, in_map_iff in Hl as (c & <- & Hc). apply list_elem_of_In in Hc.
    eapply filled_leaves_nonempty; eauto; eapply Forall_forall; eauto.
Qed.

Lemma iterate_spec N (HN : 1 <= N) s h : inv N s h -> ADS.iterate s h = Some (keys (root s)).
Proof.
  intros [[d Hb] Hok HR Hnd Hch Hleft Hsz].
  unfold ADS.iterate, ADS.begin.
  destruct (Nat.eqb_spec (sz s) 0) as [H0|H0].
  - rewrite H0. cbn [walk iterator_eqb current_node current_element end_iterator andb Nat.eqb].
    rewrite H0 in Hsz. destruct (keys (root s)); [reflexivity|discriminate Hsz].
  - assert (Hk : keys (root s) <> []) by (intros E; rewrite E in Hsz; cbn in Hsz; lia).
    pose proof (root_leaves_nonempty N HN d (root s) Hb Hok Hk) as Hne.
    unfold ids in Hnd, Hch, Hleft. unfold keys in Hsz |- *. unfold leaf_of.
    destruct (leaves (root s)) as [|[id0 v0] R] eqn:EL; [discriminate Hleft|].
    cbn [map head fst] in Hleft, Hch. injection Hleft as <-.
    destruct Hch as [Hl0 Hch].
    apply Forall_cons in Hne as [Hne0 Hne]. cbn [snd] in Hne0.
    assert (Hall : Forall (fun p : nat * list Z =>
               assoc_leaf p.1 ((id0, v0) :: R) = Some p.2 /\ p.2 <> []) R).
    { apply Forall_forall. intros [i w] Hin. split.
      - apply assoc_leaf_in; [exact Hnd|right; apply list_elem_of_In; exact Hin].
      - eapply Forall_forall in Hne; [exact Hne|exact Hin]. }
    cbn [map concat snd].
    replace (v0 ++ concat (map snd R)) with (drop 0 v0 ++ concat (map snd R)) by (rewrite drop_0; reflexivity).
    apply (walk_spec _ h (sz s) id0 v0 0 R None).
    + apply assoc_leaf_in; [exact Hnd|left; reflexivity].
    + destruct v0; [congruence|cbn; lia].
    + exact Hall.
    + exact Hl0.
    + exact Hch.
    + rewrite drop_0, Hsz. cbn [map concat snd]. rewrite length_app. lia.
Qed.

(** ** Inserting a sequence of keys *)

Lemma insert_all_reachable N ks : forall s h s' h',
  reachable N s h -> insert_all N ks s h = Some (s', h') -> reachable N s' h'.
Proof.
  induction ks as [|k ks IH]; intros s h s' h' Hr Hi; cbn [insert_all] in Hi.
  - injection Hi as <- <-. exact Hr.
  - destruct (ADS.insert N s h k) as [[r [s1 h1]]|] eqn:E; [|discriminate Hi].
    rewrite bind_Some in Hi. eapply IH; [|exact Hi]. eapply reach_insert; eauto.
Qed.

Lemma insert_all_app N l1 l2 s h :
  insert_all N (l1 ++ l2) s h = (p ← insert_all N l1 s h; insert_all N l2 p.1 p.2).
Proof.
  revert s h; induction l1 as [|k l1 IH]; intros s h; cbn [insert_all app].
  - rewrite bind_Some. reflexivity.
  - destruct (ADS.insert N s h k) as [[r [s1 h1]]|]; [rewrite !bind_Some; apply IH|reflexivity].
Qed.

Lemma ss_unique (a b : list Z) :
  StronglySorted Z.lt a -> StronglySorted Z.lt b -> a ≡ₚ b -> a = b.
Proof. apply StronglySorted_unique_strong. intros; lia. Qed.

Lemma ext_add_last N v k :
  StronglySorted Z.lt (v ++ [k]) ->
  ext_add_elem N v k =
    (if 2 * N <? S (length v) then InsertMsg.SPLIT else InsertMsg.SUCCESS, v ++ [k]).
Proof.
  intros HS. pose proof HS as HS'. apply SS_app in HS' as (Hv & _ & Hlt).
  assert (Hk : k ∉ v) by (intros Hin; specialize (Hlt k k Hin ltac:(left)); lia).
  destruct (ext_add_elem_spec N v k Hv) as [_ Hnin].
  destruct (Hnin Hk) as (v' & -> & Hv' & Hp).
  do 2 f_equal. apply ss_unique; auto.
  rewrite Hp. apply Permutation_cons_append.
Qed.

Lemma insert_leaf_step N r v h k :
  StronglySorted Z.lt (v ++ [k]) -> S (length v) <= 2 * N ->
  exists it, ADS.insert N (mkADS (length v) (ExternalNode r v) r) h k =
    Some ((it, true), (mkADS (S (length v)) (ExternalNode r (v ++ [k])) r, h)).
Proof.
  intros HS Hl. unfold ADS.insert. cbn [root add_elem sz left_leaf].
  rewrite (ext_add_last N v k HS).
  destruct (Nat.ltb_spec (2 * N) (S (length v))); [lia|].
  cbv beta iota. rewrite bind_Some. cbv beta iota.
  unfold ADS.find. cbn [root].
  destruct (find_node_some 0 (ExternalNode r (v ++ [k])) k ltac:(constructor)) as [it Hit].
  rewrite Hit, bind_Some. eauto.
Qed.

Lemma insert_all_leaf N ks : forall v r h,
  StronglySorted Z.lt (v ++ ks) -> length (v ++ ks) <= 2 * N ->
  insert_all N ks (mkADS (length v) (ExternalNode r v) r) h =
    Some (mkADS (length (v ++ ks)) (ExternalNode r (v ++ ks)) r, h).
Proof.
  induction ks as [|k ks IH]; intros v r h HS Hl; cbn [insert_all].
  - rewrite app_nil_r. reflexivity.
  - replace (v ++ k :: ks) with ((v ++ [k]) ++ ks) in * by (rewrite <- app_assoc; reflexivity).
    assert (HS1 : StronglySorted Z.lt (v ++ [k])) by (apply SS_app in HS; tauto).
    rewrite length_app in Hl. rewrite length_app in Hl. cbn [length] in Hl.
    destruct (insert_leaf_step N r v h k HS1 ltac:(lia)) as [it ->].
    rewrite bind_Some. cbv beta iota.
    replace (S (length v)) with (length (v ++ [k])) by (rewrite length_app; cbn; lia).
    apply IH; [exact HS|]. rewrite !length_app. cbn [length]. lia.
Qed.

Lemma insert_split_step N r v h k :
  1 <= N -> StronglySorted Z.lt (v ++ [k]) -> length v = 2 * N ->
  h !! r = Some (mkLinks None None) ->
  exists it x r' h',
    ADS.insert N (mkADS (length v) (ExternalNode r v) r) h k =
    Some ((it, true), (mkADS (S (length v))
      (InternalNode [x] [ExternalNode r (take N (v ++ [k])); ExternalNode r' (drop N (v ++ [k]))]) r, h')).
Proof.
  intros HN HS Hl Hr. unfold ADS.insert. cbn [root add_elem sz left_leaf].
  rewrite (ext_add_last N v k HS).
  destruct (Nat.ltb_spec (2 * N) (S (length v))); [|lia].
  cbv beta iota. rewrite bind_Some. cbv beta iota.
  assert (Hlen : length (v ++ [k]) = S (2 * N)) by (rewrite length_app; cbn; lia).
  unfold split. cbn [lookup list_lookup]. rewrite bind_Some. cbv beta iota zeta.
  rewrite Hlen, even_odd, half_odd, Hr, bind_Some. cbn [right_neighbour].
  set (r' := fresh (dom h)).
  assert (Hrr : r' <> r).
  { intros E. pose proof (is_fresh (dom h)) as F. fold r' in F. rewrite E in F.
    apply F, elem_of_dom. eauto. }
  rewrite bind_Some. unfold set_right. rewrite lookup_insert_ne by congruence.
  rewrite Hr, !bind_Some.
  destruct (drop N (v ++ [k])) as [|x rest] eqn:Ed.
  { exfalso. pose proof (f_equal length Ed) as E. rewrite length_drop, Hlen in E. cbn in E. lia. }
  cbn [head]. rewrite bind_Some. cbv beta iota. rewrite bind_Some. cbv beta iota. cbn [take drop app].
  unfold ADS.find. cbn [root].
  destruct (find_node_some 1 (InternalNode [x] [ExternalNode r (take N (v ++ [k])); ExternalNode r' (x :: rest)]) k)
    as [it Hit].
  { repeat constructor. }
  rewrite Hit, bind_Some. eauto 10.
Qed.

(** ** The properties of the specification *)

Lemma desc_filled N x t : descendant x t -> sub_filled N t -> filled N x.
Proof.
  induction 1 as [vs cs c Hin|vs cs c y Hin _ IH]; cbn [sub_filled]; intros Hsf.
  - eapply Forall_forall; [exact Hsf|]. apply list_elem_of_In. exact Hin.
  - apply IH. assert (Hc : filled N c)
      by (eapply Forall_forall; [exact Hsf|]; apply list_elem_of_In; exact Hin).
    apply filled_iff in Hc. tauto.
Qed.

Lemma filled_keys_length N d : forall t, bal d t -> filled N t -> N <= length (keys t).
Proof.
  induction d as [|d IH]; intros t Hb Hf; inversion Hb as [id v|? vs cs Hl Hbc]; subst.
  - inversion Hf; subst. rewrite keys_ext. lia.
  - inversion Hf as [|? ? _ Hfc]; subst.
    destruct cs as [|c cs]; [discriminate Hl|].
    apply Forall_cons in Hbc as [Hbc _]. apply Forall_cons in Hfc as [Hfc _].
    rewrite keys_int. cbn [map concat]. rewrite length_app.
    pose proof (IH c Hbc Hfc). lia.
Qed.

Lemma empty_root_leaf N s h :
  1 <= N -> inv N s h -> keys (root s) = [] -> exists id, root s = ExternalNode id [].
Proof.
  intros HN [[d Hb] Hok _ _ _ _ _] Hk.
  destruct (root s) as [id v|vs cs] eqn:Er.
  - rewrite keys_ext in Hk. subst. eauto.
  - exfalso. destruct Hok as (_ & Hsf & _). cbn [sub_filled] in Hsf.
    inversion Hb as [|d' ? ? Hl Hbc]; subst.
    destruct cs as [|c cs]; [discriminate Hl|].
    apply Forall_cons in Hbc as [Hbc _]. apply Forall_cons in Hsf as [Hfc _].
    pose proof (filled_keys_length N d' c Hbc Hfc) as Hlen.
    rewrite keys_int in Hk. cbn [map concat] in Hk.
    apply app_eq_nil in Hk as [Hk _]. rewrite Hk in Hlen. cbn in Hlen. lia.
Qed.

Lemma SS_NoDup (l : list Z) : StronglySorted Z.lt l -> NoDup l.
Proof.
  induction 1 as [|a l _ IH HF]; constructor; auto.
  intros Hin. eapply Forall_forall in HF; [|exact Hin]. lia.
Qed.

(** C1 (counterexample): both siblings of the underfull middle child hold 4 keys
    (N = 3); the left sibling (i-1) donates its largest key. *)
Lemma merge_tie_uses_left :
  merge_case 3 1 2 cs_tie = Some FromLeft /\
  merge 3 1 [10; 20]%Z cs_tie ∅ =
    Some ([4; 20]%Z,
          [ExternalNode 1 [1; 2; 3]; ExternalNode 2 [4; 10; 11]; ExternalNode 3 [20; 21; 22; 23]]%Z,
          ∅).
Proof. split; vm_compute; reflexivity. Qed.

(** C1 (amended): with all siblings holding at least N keys, merge(i) uses the
    sibling with the larger key count, the left one (i-1) on a tie; when
    neither can give a key (both hold N) the child is fused with the right
    sibling (i+1); at the edges the only sibling is used. *)
Theorem merge_sibling_choice N pos m cs :
  1 <= m -> pos <= m -> length cs = S m ->
  (forall j z, j <> pos -> cs !! j = Some z -> N <= node_size z) ->
  (0 < pos < m -> forall l r, cs !! (pos - 1) = Some l -> cs !! S pos = Some r ->
     (node_size l < node_size r -> merge_case N pos m cs = Some FromRight) /\
     (node_size r <= node_size l -> N < node_size l -> merge_case N pos m cs = Some FromLeft) /\
     (node_size l = N -> node_size r = N ->
        merge_case N pos m cs = Some (Fuse MergeDirection.RIGHT))) /\
  (pos = 0 -> forall r, cs !! 1 = Some r ->
     merge_case N 0 m cs = Some (if N <? node_size r then FromRight else Fuse MergeDirection.RIGHT)) /\
  (pos = m -> forall l, cs !! (m - 1) = Some l ->
     merge_case N m m cs = Some (if N <? node_size l then FromLeft else Fuse MergeDirection.LEFT)).
Proof.
  intros Hm Hp Hl Hge.
  destruct (merge_case_eval N pos m cs Hm Hp Hl Hge) as (H0 & Hmm & Hmid).
  split; [|split].
  - intros Hpos l r Hl' Hr'. destruct (Hmid Hpos) as (l0 & r0 & Hl0 & Hr0 & E).
    rewrite Hl' in Hl0. injection Hl0 as <-. rewrite Hr' in Hr0. injection Hr0 as <-.
    rewrite E. split; [|split]; intros.
    + destruct (Nat.ltb_spec (node_size l) (node_size r)); [reflexivity|lia].
    + destruct (Nat.ltb_spec (node_size l) (node_size r)); [lia|].
      destruct (Nat.ltb_spec N (node_size l)); [reflexivity|lia].
    + destruct (Nat.ltb_spec (node_size l) (node_size r)); [lia|].
      destruct (Nat.ltb_spec N (node_size l)); [lia|reflexivity].
  - intros -> r Hr. destruct (H0 eq_refl) as (r0 & Hr0 & E).
    rewrite Hr in Hr0. injection Hr0 as <-. exact E.
  - intros -> l Hl'. destruct (Hmm eq_refl) as (l0 & Hl0 & E).
    rewrite Hl' in Hl0. injection Hl0 as <-. exact E.
Qed.

Lemma merge_sibling_choice_witness :
  merge_case 3 1 2 cs_tie = Some FromLeft.
Proof.
  refine (proj1 (proj2 (proj1 (merge_sibling_choice 3 1 2 cs_tie _ _ _ _) _ _ _ _ _)) _ _);
    try (vm_compute; reflexivity); try lia.
  - intros j z Hj Hz. destruct j as [|[|[|j]]]; [| lia | |];
      vm_compute in Hz; try discriminate Hz; injection Hz as <-; vm_compute; lia.
Defined.

(** C4: split(i) of a leaf child with 2N+1 keys keeps the lower N keys in the
    leaf, moves the upper N+1 keys to a freshly allocated right leaf, splices
    the new leaf between the leaf and its former right neighbour in both
    directions, and inserts the new leaf's first key at position i. *)
Theorem split_leaf_child N pos vs cs h cid cv l :
  cs !! pos = Some (ExternalNode cid cv) -> length cv = S (2 * N) ->
  StronglySorted Z.lt cv -> h !! cid = Some l ->
  (forall o, right_neighbour l = Some o -> o <> cid /\ is_Some (h !! o)) ->
  exists w h3,
    split pos vs cs h =
      Some (take pos vs ++ w :: drop pos vs,
            take pos cs ++ ExternalNode cid (take N cv)
                        :: ExternalNode (fresh (dom h)) (drop N cv) :: drop (S pos) cs, h3) /\
    h !! fresh (dom h) = None /\
    head (drop N cv) = Some w /\
    length (take N cv) = N /\ length (drop N cv) = S N /\
    (forall a b, a ∈ take N cv -> b ∈ drop N cv -> (a < b)%Z) /\
    h3 !! cid = Some (mkLinks (left_neighbour l) (Some (fresh (dom h)))) /\
    h3 !! fresh (dom h) = Some (mkLinks (Some cid) (right_neighbour l)) /\
    (forall o lo, right_neighbour l = Some o -> h !! o = Some lo ->
       h3 !! o = Some (mkLinks (Some (fresh (dom h))) (right_neighbour lo))) /\
    (forall y, y <> cid -> y <> fresh (dom h) -> right_neighbour l <> Some y ->
       h3 !! y = h !! y).
Proof.
  intros Hc Hlen HS Hl Ho.
  set (r := fresh (dom h)).
  assert (Hr : h !! r = None) by (apply not_elem_of_dom, is_fresh).
  assert (Hrc : r <> cid) by (intros E; rewrite E, Hl in Hr; discriminate).
  assert (Hlo : forall a b, a ∈ take N cv -> b ∈ drop N cv -> (a < b)%Z).
  { rewrite <- (take_drop N cv) in HS. apply SS_app in HS. tauto. }
  destruct (drop N cv) as [|w rest] eqn:Ed.
  { exfalso. pose proof (f_equal length Ed) as E. rewrite length_drop in E. cbn in E. lia. }
  unfold split. rewrite Hc, bind_Some. cbv beta iota zeta.
  rewrite Hlen, even_odd, half_odd, Hl, bind_Some. fold r. rewrite Ed. cbn [head].
  destruct (right_neighbour l) as [o|] eqn:Erl.
  - destruct (Ho o eq_refl) as [Hoc [lo Hlo']].
    assert (Hor : o <> r) by (intros E; rewrite E, Hr in Hlo'; discriminate).
    unfold set_left. rewrite lookup_insert_ne by congruence. rewrite Hlo', !bind_Some.
    unfold set_right. rewrite lookup_insert_ne by congruence.
    rewrite lookup_insert_ne by congruence. rewrite Hl, !bind_Some.
    do 2 eexists. split; [reflexivity|].
    split; [exact Hr|]. split; [reflexivity|].
    split; [rewrite length_take; lia|]. split; [rewrite <- Ed, length_drop; lia|].
    split; [exact Hlo|].
    split; [rewrite lookup_insert_eq; reflexivity|].
    split; [rewrite lookup_insert_ne, lookup_insert_ne, lookup_insert_eq by congruence; reflexivity|].
    split.
    + intros o' lo'' E Ho'. injection E as <-. rewrite Hlo' in Ho'. injection Ho' as <-.
      rewrite lookup_insert_ne, lookup_insert_eq by congruence. reflexivity.
    + intros y Hy1 Hy2 Hy3.
      assert (y <> o) by congruence.
      rewrite !lookup_insert_ne by congruence. reflexivity.
  - rewrite !bind_Some. unfold set_right. rewrite lookup_insert_ne by congruence.
    rewrite Hl, bind_Some.
    do 2 eexists. split; [reflexivity|].
    split; [exact Hr|]. split; [reflexivity|].
    split; [rewrite length_take; lia|]. split; [rewrite <- Ed, length_drop; lia|].
    split; [exact Hlo|].
    split; [rewrite lookup_insert_eq; reflexivity|].
    split; [rewrite lookup_insert_ne, lookup_insert_eq by congruence; reflexivity|].
    split.
    + intros o' lo'' E. discriminate E.
    + intros y Hy1 Hy2 _. rewrite !lookup_insert_ne by congruence. reflexivity.
Qed.

Lemma split_leaf_child_witness :
  exists w h3,
    split 0 [5]%Z [ExternalNode 0 [1; 2; 3]; ExternalNode 1 [5]]%Z h_pair =
      Some ([w; 5]%Z, [ExternalNode 0 [1]; ExternalNode (fresh (dom h_pair)) [2; 3];
                      ExternalNode 1 [5]]%Z, h3) /\
    h3 !! fresh (dom h_pair) = Some (mkLinks (Some 0) (Some 1)).
Proof.
  destruct (split_leaf_child 1 0 [5]%Z [ExternalNode 0 [1; 2; 3]; ExternalNode 1 [5]]%Z h_pair 0
              [1; 2; 3]%Z (mkLinks None (Some 1)) eq_refl eq_refl
              ltac:(repeat constructor) eq_refl)
    as (w & h3 & Hs & _ & _ & _ & _ & _ & _ & Hr & _).
  { intros o E. injection E as <-. split; [lia|eexists; reflexivity]. }
  exists w, h3. split; [exact Hs|exact Hr].
Defined.

(** C9: on a node whose children satisfy the fill invariants, when merge(i)
    fuses the underfull child (N-1 keys) with its sibling, the fused node
    holds at most 2N-1 keys (leaf) or 2N keys (internal node), and the
    result has one separator and one child fewer: the fused child is not
    split again. *)
Theorem merge_fuse_bound N d lo hi vs cs h P Q pos c dir :
  1 <= N -> routed_seq lo hi vs cs -> 1 <= length vs -> pos <= length vs ->
  cs !! pos = Some c -> node_size c = N - 1 -> sub_filled N c ->
  Forall (bal d) cs ->
  (forall j z, j <> pos -> cs !! j = Some z -> filled N z) ->
  NoDup (P ++ concat (map ids cs) ++ Q) ->
  chain None (P ++ concat (map ids cs) ++ Q) h ->
  merge_case N pos (length vs) cs = Some (Fuse dir) ->
  exists p f h2, (pos = p \/ pos = S p) /\
    merge N pos vs cs h =
      Some (take p vs ++ drop (S p) vs, take p cs ++ f :: drop (S (S p)) cs, h2) /\
    node_size f <= match f with ExternalNode _ _ => 2 * N - 1 | InternalNode _ _ => 2 * N end.
Proof.
  intros HN HR Hm Hpos Hc Hcn Hcsub Hb Hf Hnd Hch Hmc.
  destruct (merge_fuse_spec N HN d lo hi vs cs h P Q pos c HR Hpos Hc Hcn Hcsub Hb Hf Hnd Hch
              dir Hm Hmc) as (res & Hres & p & f & h2 & Hp & -> & Hsz).
  exists p, f, h2. auto.
Qed.

Lemma merge_fuse_bound_witness :
  exists p f h2, (0 = p \/ 0 = S p) /\
    merge 1 0 [2]%Z [ExternalNode 0 []; ExternalNode 1 [2]]%Z h_pair =
      Some (take p [2]%Z ++ drop (S p) [2]%Z,
            take p [ExternalNode 0 []; ExternalNode 1 [2]]%Z ++ f
              :: drop (S (S p)) [ExternalNode 0 []; ExternalNode 1 [2]]%Z, h2) /\
    node_size f <= match f with ExternalNode _ _ => 1 | InternalNode _ _ => 2 end.
Proof.
  apply (merge_fuse_bound 1 0 None None [2]%Z [ExternalNode 0 []; ExternalNode 1 [2]]%Z h_pair
           [] [] 0 (ExternalNode 0 []) MergeDirection.RIGHT).
  - lia.
  - repeat constructor; cbn; lia.
  - cbn; lia.
  - cbn; lia.
  - reflexivity.
  - reflexivity.
  - exact I.
  - repeat constructor.
  - intros j z Hj Hz. destruct j as [|[|j]]; [lia| |discriminate Hz].
    injection Hz as <-. constructor. cbn. lia.
  - cbn. apply NoDup_cons; split; [set_solver|]. apply NoDup_singleton.
  - cbn. repeat split.
  - vm_compute. reflexivity.
Defined.

(** C10: self-assignment [s = s] empties [s]: [clear()] runs first, so the
    range inserted afterwards is the one of the cleared container. *)
Theorem self_assign_clears N fuel objs h this d :
  objs !! this = Some d ->
  exists d' h', ADS.assign N fuel objs h this this = Some (<[this := d']> objs, h') /\
    (d', h') = ADS.clear d h /\
    sz d' = 0 /\ keys (root d') = [] /\ ADS.iterate d' h' = Some [].
Proof.
  intros Hd. unfold ADS.assign. rewrite Hd, bind_Some.
  destruct (ADS.clear d h) as [d1 h1] eqn:Ec. cbv beta iota zeta.
  rewrite lookup_insert_eq, bind_Some.
  assert (Hd1 : d1 = fst (ADS.clear d h)) by (rewrite Ec; reflexivity).
  assert (Hsz : sz d1 = 0) by (rewrite Hd1; reflexivity).
  assert (Hroot : exists r, root d1 = ExternalNode r []) by (rewrite Hd1; eexists; reflexivity).
  destruct Hroot as [r Hr].
  unfold ADS.begin. rewrite Hsz. cbn [Nat.eqb].
  exists d1, h1. split.
  { destruct fuel; reflexivity. }
  split; [reflexivity|]. split; [exact Hsz|]. split; [rewrite Hr, keys_ext; reflexivity|].
  unfold ADS.iterate, ADS.begin. rewrite Hsz. reflexivity.
Qed.

Lemma self_assign_clears_witness :
  exists d' h', ADS.assign 1 10 objs_one (<[0 := mkLinks None None]> ∅) 0 0 =
    Some (<[0 := d']> objs_one, h') /\ sz d' = 0 /\ keys (root d') = [].
Proof.
  destruct (self_assign_clears 1 10 objs_one (<[0 := mkLinks None None]> ∅) 0
              (mkADS 1 (ExternalNode 0 [5]%Z) 0) eq_refl)
    as (d' & h' & Ha & _ & Hs & Hk & _).
  exists d', h'. auto.
Defined.

(** ** The properties of the specification: the container *)

(** C2: in every reachable state, every node below the root holds between N
    and 2N keys. *)
Theorem fill_invariant N s h :
  1 <= N -> reachable N s h ->
  forall x, descendant x (root s) -> N <= node_size x <= 2 * N.
Proof.
  intros HN Hr x Hx. destruct (reachable_inv N HN s h Hr) as [_ [_ [Hsf _]] _ _ _ _ _].
  apply filled_iff. eapply desc_filled; eauto.
Qed.

Lemma fill_invariant_witness :
  exists s h, insert_all 1 [1; 2; 3]%Z (fst (ADS.construct ∅)) (snd (ADS.construct ∅)) = Some (s, h) /\
    descendant (ExternalNode 0 [1]%Z) (root s) /\ 1 <= node_size (ExternalNode 0 [1]%Z) <= 2.
Proof.
  destruct (insert_all 1 [1; 2; 3]%Z (fst (ADS.construct ∅)) (snd (ADS.construct ∅)))
    as [[s h]|] eqn:E; [|vm_compute in E; discriminate E].
  assert (Hr : reachable 1 s h) by (eapply insert_all_reachable; [apply reach_construct|exact E]).
  exists s, h. split; [reflexivity|].
  vm_compute in E. injection E as <- <-.
  assert (Hx : descendant (ExternalNode 0 [1]%Z) (root (mkADS 3
     (InternalNode [2]%Z [ExternalNode 0 [1]%Z; ExternalNode 1 [2; 3]%Z]) 0)))
    by (constructor; cbn; left; reflexivity).
  split; [exact Hx|].
  apply (fill_invariant 1 _ _ ltac:(lia) Hr). exact Hx.
Defined.

(** C3: in every reachable state, iterating from begin() to end() yields the
    stored keys, each once, in strictly increasing order, and as many as
    size(). *)
Theorem iteration_sorted N s h :
  1 <= N -> reachable N s h ->
  exists ks, ADS.iterate s h = Some ks /\ ks = keys (root s) /\
    StronglySorted Z.lt ks /\ NoDup ks /\ length ks = sz s.
Proof.
  intros HN Hr. pose proof (reachable_inv N HN s h Hr) as Hinv.
  exists (keys (root s)). split; [exact (iterate_spec N HN s h Hinv)|]. split; [reflexivity|].
  destruct Hinv as [_ _ HR _ _ _ Hsz].
  destruct (routed_keys _ _ _ HR) as [_ HS].
  split; [exact HS|]. split; [apply SS_NoDup, HS|]. symmetry. exact Hsz.
Qed.

Lemma iteration_sorted_witness :
  exists s h, insert_all 1 [3; 1; 2]%Z (fst (ADS.construct ∅)) (snd (ADS.construct ∅)) = Some (s, h) /\
    ADS.iterate s h = Some [1; 2; 3]%Z /\ sz s = 3.
Proof.
  destruct (insert_all 1 [3; 1; 2]%Z (fst (ADS.construct ∅)) (snd (ADS.construct ∅)))
    as [[s h]|] eqn:E; [|vm_compute in E; discriminate E].
  assert (Hr : reachable 1 s h) by (eapply insert_all_reachable; [apply reach_construct|exact E]).
  destruct (iteration_sorted 1 s h ltac:(lia) Hr) as (ks & Hit & Hks & _ & _ & Hl).
  exists s, h. split; [reflexivity|].
  vm_compute in E. injection E as <- <-.
  rewrite Hit, Hks. split; reflexivity.
Defined.

(** C5: inserting 2N+1 strictly increasing keys into an empty container
    gives an internal root over two leaves (height 2), with one separator, N
    keys in the left leaf and N+1 in the right leaf; iteration yields the
    keys in order. *)
Theorem insert_increasing_root_split N ks h0 :
  1 <= N -> length ks = S (2 * N) -> StronglySorted Z.lt ks ->
  exists s h x i1 i2,
    insert_all N ks (fst (ADS.construct h0)) (snd (ADS.construct h0)) = Some (s, h) /\
    root s = InternalNode [x] [ExternalNode i1 (take N ks); ExternalNode i2 (drop N ks)] /\
    bal 1 (root s) /\ length (take N ks) = N /\ length (drop N ks) = S N /\
    ADS.iterate s h = Some ks.
Proof.
  intros HN Hlen HS.
  destruct (exists_last (l := ks)) as (l & k & ->); [intros E; rewrite E in Hlen; discriminate|].
  rewrite length_app in Hlen. cbn [length] in Hlen.
  assert (HSl : StronglySorted Z.lt l) by (apply SS_app in HS; tauto).
  set (r := fresh (dom h0)).
  set (h1 := <[r := mkLinks None None]> h0).
  assert (Hs0 : fst (ADS.construct h0) = mkADS (length (@nil Z)) (ExternalNode r []) r) by reflexivity.
  assert (Hh0 : snd (ADS.construct h0) = h1) by reflexivity.
  assert (E : insert_all N (l ++ [k]) (fst (ADS.construct h0)) (snd (ADS.construct h0)) =
              insert_all N [k] (mkADS (length l) (ExternalNode r l) r) h1).
  { rewrite insert_all_app, Hs0, Hh0.
    rewrite (insert_all_leaf N l [] r h1 HSl ltac:(cbn; lia)), bind_Some. reflexivity. }
  destruct (insert_split_step N r l h1 k HN HS ltac:(lia) (lookup_insert_eq _ _ _))
    as (it & x & r' & h' & Hins).
  cbn [insert_all] in E. rewrite Hins, bind_Some in E. cbv beta iota in E.
  do 5 eexists. split; [exact E|]. cbn [root].
  split; [reflexivity|].
  split; [repeat constructor|].
  split; [rewrite length_take, length_app; cbn; lia|].
  split; [rewrite length_drop, length_app; cbn; lia|].
  assert (Hr : reachable N (mkADS (S (length l))
      (InternalNode [x] [ExternalNode r (take N (l ++ [k])); ExternalNode r' (drop N (l ++ [k]))]) r) h')
    by (eapply insert_all_reachable; [apply reach_construct|exact E]).
  rewrite (iterate_spec N HN _ _ (reachable_inv N HN _ _ Hr)). cbn [root].
  rewrite keys_int. cbn [map concat]. rewrite !keys_ext, app_nil_r, take_drop. reflexivity.
Qed.

Lemma insert_increasing_root_split_witness :
  exists s h x i1 i2,
    insert_all 3 [1; 2; 3; 4; 5; 6; 7]%Z (fst (ADS.construct ∅)) (snd (ADS.construct ∅)) = Some (s, h) /\
    root s = InternalNode [x] [ExternalNode i1 [1; 2; 3]%Z; ExternalNode i2 [4; 5; 6; 7]%Z] /\
    ADS.iterate s h = Some [1; 2; 3; 4; 5; 6; 7]%Z.
Proof.
  destruct (insert_increasing_root_split 3 [1; 2; 3; 4; 5; 6; 7]%Z ∅ ltac:(lia) eq_refl
              ltac:(repeat constructor))
    as (s & h & x & i1 & i2 & E & Hr & _ & _ & _ & Hit).
  exists s, h, x, i1, i2. auto.
Defined.

(** C6: when the removal below the root leaves an internal root with no
    separator and one child, erase makes that child the root (one level
    less), keeps the child's leaves allocated, returns 1 and decrements
    size(). *)
Theorem erase_root_shrink N s h k c h1 :
  1 <= N -> reachable N s h ->
  remove_elem N (root s) k h = Some (EraseMsg.MERGE, InternalNode [] [c], h1) ->
  exists s', ADS.erase N s h k = Some (1, (s', h1)) /\
    root s' = c /\ left_leaf s' = left_leaf s /\ S (sz s') = sz s /\
    k ∈ keys (root s) /\ keys (root s) ≡ₚ k :: keys c /\
    (exists d, bal (S d) (root s) /\ bal d c) /\
    inv N s' h1 /\ (forall i, i ∈ ids c -> is_Some (h1 !! i)).
Proof.
  intros HN Hr Hrem. pose proof (reachable_inv N HN s h Hr) as Hinv.
  pose proof Hinv as [[d Hb] Hok HR Hnd Hch Hleft Hsz].
  assert (Hk : in_range None None k) by (split; exact I).
  destruct (remove_spec N HN d (root s) None None h [] [] k Hb HR Hk Hok
              (nodup_nil_app _ Hnd) (chain_nil_app _ _ Hch))
    as (res & Hrem' & Hpost).
  rewrite Hrem in Hrem'. injection Hrem' as <-.
  destruct Hpost as (Hb' & _ & _ & Hch1 & _ & Hkin & Hperm & _).
  rewrite app_nil_r in Hch1. cbn [app] in Hch1.
  rewrite ids_int in Hch1. cbn [map concat] in Hch1. rewrite app_nil_r in Hch1.
  assert (Hkc : keys (InternalNode [] [c]) = keys c)
    by (rewrite keys_int; cbn [map concat]; apply app_nil_r).
  rewrite Hkc in Hperm.
  assert (He : ADS.erase N s h k = Some (1, (mkADS (pred (sz s)) c (left_leaf s), h1))).
  { unfold ADS.erase. rewrite Hrem, bind_Some. reflexivity. }
  exists (mkADS (pred (sz s)) c (left_leaf s)). split; [exact He|].
  cbn [root left_leaf sz]. split; [reflexivity|]. split; [reflexivity|].
  split; [rewrite Hsz, (Permutation_length Hperm); reflexivity|].
  split; [exact Hkin|]. split; [exact Hperm|].
  split.
  { inversion Hb' as [|d' ? ? _ Hbc]; subst. exists d'. split; [exact Hb|].
    apply Forall_cons in Hbc as [Hbc _]. exact Hbc. }
  split.
  { destruct (erase_spec N HN s h k Hinv) as (n & s2 & h2 & He2 & Hinv2 & _).
    rewrite He in He2. injection He2 as _ <- <-. exact Hinv2. }
  intros i Hi. eapply chain_dom; eauto.
Qed.

Lemma erase_root_shrink_witness :
  exists s h c h1, reachable 1 s h /\
    remove_elem 1 (root s) 1%Z h = Some (EraseMsg.MERGE, InternalNode [] [c], h1) /\
    exists s', ADS.erase 1 s h 1%Z = Some (1, (s', h1)) /\ root s' = c /\ sz s' = 1.
Proof.
  destruct (insert_all 1 [1; 2; 3]%Z (fst (ADS.construct ∅)) (snd (ADS.construct ∅)))
    as [[s0 h0]|] eqn:E0; [|vm_compute in E0; discriminate E0].
  assert (R0 : reachable 1 s0 h0) by (eapply insert_all_reachable; [apply reach_construct|exact E0]).
  destruct (ADS.erase 1 s0 h0 3%Z) as [[n [s h]]|] eqn:E1;
    [|vm_compute in E0; injection E0 as <- <-; vm_compute in E1; discriminate E1].
  assert (R1 : reachable 1 s h) by (eapply reach_erase; [exact R0|exact E1]).
  vm_compute in E0. injection E0 as <- <-.
  vm_compute in E1. injection E1 as En Es Eh.
  destruct (remove_elem 1 (root s) 1%Z h) as [[[r t] h1]|] eqn:E2;
    rewrite <- Es, <- Eh in E2; vm_compute in E2; [|discriminate E2].
  injection E2 as <- <- <-. rewrite <- Es, <- Eh in R1.
  destruct (erase_root_shrink 1 _ _ 1%Z (ExternalNode 0 [2]%Z) _ ltac:(lia) R1 eq_refl)
    as (s' & He & Hroot & _ & Hsz & _).
  do 4 eexists. split; [exact R1|]. split; [reflexivity|].
  exists s'. split; [exact He|]. split; [exact Hroot|].
  cbn [sz] in Hsz. lia.
Defined.

(** C7: erase(k) returns 0 or 1: 1 with size() decremented when k is stored,
    0 with the container unchanged when it is not; on an empty container it
    returns 0 and the root stays an empty leaf. *)
Theorem erase_result N s h k :
  1 <= N -> reachable N s h ->
  exists n s' h', ADS.erase N s h k = Some (n, (s', h')) /\ (n = 0 \/ n = 1) /\
    (k ∈ keys (root s) -> n = 1 /\ S (sz s') = sz s /\ keys (root s) ≡ₚ k :: keys (root s')) /\
    (k ∉ keys (root s) -> n = 0 /\ s' = s /\ h' = h) /\
    (sz s = 0 -> n = 0 /\ s' = s /\ h' = h /\ exists id, root s' = ExternalNode id []).
Proof.
  intros HN Hr. pose proof (reachable_inv N HN s h Hr) as Hinv.
  destruct (erase_spec N HN s h k Hinv) as (n & s' & h' & He & Hinv' & Hin & Hnin).
  exists n, s', h'. split; [exact He|].
  assert (Hsz : sz s = length (keys (root s))) by (destruct Hinv; auto).
  split; [destruct (decide (k ∈ keys (root s))) as [Hk|Hk];
          [right; apply Hin, Hk|left; apply Hnin, Hk]|].
  split.
  { intros Hk. destruct (Hin Hk) as (-> & Hp & Hs'). split; [reflexivity|].
    split; [|exact Hp]. rewrite Hs', Hsz, Hp. reflexivity. }
  split; [exact Hnin|].
  intros H0. rewrite H0 in Hsz. destruct (keys (root s)) as [|x l] eqn:Ek; [|discriminate Hsz].
  destruct (Hnin (not_elem_of_nil k)) as (-> & -> & ->).
  split; [reflexivity|]. split; [reflexivity|]. split; [reflexivity|].
  eapply empty_root_leaf; eauto.
Qed.

Lemma erase_result_witness :
  exists n s' h', ADS.erase 1 (fst (ADS.construct ∅)) (snd (ADS.construct ∅)) 42%Z = Some (n, (s', h')) /\
    n = 0 /\ exists id, root s' = ExternalNode id [].
Proof.
  destruct (erase_result 1 (fst (ADS.construct ∅)) (snd (ADS.construct ∅)) 42%Z ltac:(lia)
              (reach_construct 1 ∅))
    as (n & s' & h' & He & _ & _ & _ & H0).
  destruct (H0 eq_refl) as (Hn & _ & _ & Hl).
  exists n, s', h'. auto.
Defined.

(** C8: a second insert(k) right after insert(k) changes nothing and reports
    that k was already present. *)
Theorem insert_idempotent N s h k :
  1 <= N -> reachable N s h ->
  exists it b s1 h1, ADS.insert N s h k = Some ((it, b), (s1, h1)) /\
    ADS.insert N s1 h1 k = Some ((it, false), (s1, h1)) /\
    sz s1 = (if b then S (sz s) else sz s).
Proof.
  intros HN Hr. pose proof (reachable_inv N HN s h Hr) as Hinv.
  destruct (insert_spec N HN s h k Hinv) as (it & b & s1 & h1 & Hi & Hf & Hinv1 & Hk1 & Hb).
  destruct (insert_spec N HN s1 h1 k Hinv1) as (it2 & b2 & s2 & h2 & Hi2 & Hf2 & _ & _ & Hb2).
  exists it, b, s1, h1. split; [exact Hi|].
  destruct b2.
  - destruct Hb2 as [Hn _]. contradiction.
  - destruct Hb2 as [-> ->]. rewrite Hf in Hf2. injection Hf2 as <-.
    split; [exact Hi2|].
    destruct b; [tauto|]. destruct Hb as [-> _]. reflexivity.
Qed.

Lemma insert_idempotent_witness :
  exists it b s1 h1,
    ADS.insert 2 (fst (ADS.construct ∅)) (snd (ADS.construct ∅)) 5%Z = Some ((it, b), (s1, h1)) /\
    ADS.insert 2 s1 h1 5%Z = Some ((it, false), (s1, h1)).
Proof.
  destruct (insert_idempotent 2 (fst (ADS.construct ∅)) (snd (ADS.construct ∅)) 5%Z ltac:(lia)
              (reach_construct 2 ∅))
    as (it & b & s1 & h1 & H1 & H2 & _).
  exists it, b, s1, h1. auto.
Defined.

Lemma leaves_child c cs p : cs !! p = Some c -> forall x, In x (leaves c) -> In x (concat (map leaves cs)).
Proof.
  intros Hc x Hx. apply in_concat. exists (leaves c). split; [|exact Hx].
  apply in_map. apply list_elem_of_lookup_2 in Hc. apply list_elem_of_In. exact Hc.
Qed.

Lemma lookup_node_spec d : forall t lo hi k,
  bal d t -> routed lo hi t -> in_range lo hi k ->
  count_node t k = Some (bool_decide (k ∈ keys t)) /\
  (k ∈ keys t -> exists id v i, find_node t k = Some (mkIterator (Some id) i) /\
     In (id, v) (leaves t) /\ v !! i = Some k) /\
  (k ∉ keys t -> find_node t k = Some end_iterator).
Proof.
  induction d as [|d IH]; intros t lo hi k Hb HR Hk; inversion Hb as [id v|? vs cs Hl Hbc]; subst.
  - inversion HR as [? ? ? ? HS _|]; subst. rewrite keys_ext. cbn [count_node find_node].
    pose proof (ext_find_pos_iff v k HS) as Hiff.
    split; [|split].
    + f_equal. destruct (Z.eqb_spec (ext_find_pos v k) (-1)) as [E|E]; cbn [negb].
      * symmetry. apply bool_decide_eq_false. apply Hiff. exact E.
      * symmetry. apply bool_decide_eq_true. destruct (decide (k ∈ v)); [auto|].
        exfalso. apply E, Hiff. auto.
    + intros Hin. destruct (Nat.eqb_spec (length v) 0) as [E|E].
      { destruct v; [inversion Hin|discriminate E]. }
      destruct (Z.eqb_spec (ext_find_pos v k) (-1)) as [E'|E'].
      { exfalso. apply Hiff in E'. auto. }
      destruct (ext_find_pos_sound v k E') as [_ Hl].
      exists id, v, (Z.to_nat (ext_find_pos v k)). split; [reflexivity|]. split; [left; reflexivity|exact Hl].
    + intros Hn. destruct (length v =? 0); [reflexivity|].
      apply Hiff in Hn. rewrite Hn. reflexivity.
  - inversion HR as [|? ? ? ? HRs]; subst.
    pose proof (find_pos_le vs k) as Hle.
    destruct (lookup_lt_is_Some_2 cs (find_pos vs k)) as [c Hc]; [lia|].
    destruct (routed_descend _ _ _ _ _ _ HRs Hk Hc) as (b & _ & Hseq & Hkc & Hiff).
    pose proof (routed_seq_head _ _ _ _ _ Hseq) as Hcr.
    assert (Hcb : bal d c) by (eapply Forall_lookup_1; eauto).
    destruct (IH c _ _ k Hcb Hcr Hkc) as (Hcnt & Hhit & Hmiss).
    cbn [count_node find_node]. rewrite !read_at_spec, Hc, !bind_Some.
    rewrite keys_int. split; [|split].
    + rewrite Hcnt. f_equal. apply bool_decide_ext. symmetry. exact Hiff.
    + intros Hin. apply Hiff in Hin. destruct (Hhit Hin) as (id & v & i & E & Hlv & Hv).
      exists id, v, i. split; [exact E|]. split; [|exact Hv].
      cbn [leaves]. eapply leaves_child; [exact Hc|exact Hlv].
    + intros Hn. apply Hmiss. rewrite <- Hiff. exact Hn.
Qed.

Lemma inv_lookup N s h k : inv N s h ->
  ADS.count s k = Some (if bool_decide (k ∈ keys (root s)) then 1 else 0) /\
  (k ∈ keys (root s) -> exists it, ADS.find s k = Some it /\ deref (leaf_of (root s)) it = Some k) /\
  (k ∉ keys (root s) -> ADS.find s k = Some end_iterator).
Proof.
  intros [[d Hb] _ HR Hnd _ _ _].
  destruct (lookup_node_spec d (root s) None None k Hb HR ltac:(split; exact I))
    as (Hc & Hhit & Hmiss).
  unfold ADS.count, ADS.find. rewrite Hc, bind_Some. split; [reflexivity|]. split; [|exact Hmiss].
  intros Hin. destruct (Hhit Hin) as (id & v & i & E & Hl & Hv).
  exists (mkIterator (Some id) i). split; [exact E|].
  unfold deref, leaf_of. cbn [current_node current_element]. rewrite bind_Some.
  rewrite (assoc_leaf_in id v (leaves (root s)) Hnd Hl), bind_Some. exact Hv.
Qed.

Lemma inv_keys_nodup N s h : inv N s h -> NoDup (keys (root s)).
Proof. intros [_ _ HR _ _ _ _]. apply SS_NoDup. apply (routed_keys _ _ _ HR). Qed.

(** X1: on every reachable container, [count(k)] returns 1 when [k] is stored
    and 0 otherwise. *)
Theorem count_correct N s h k :
  1 <= N -> reachable N s h ->
  ADS.count s k = Some (if bool_decide (k ∈ keys (root s)) then 1 else 0).
Proof. intros HN Hr. apply (inv_lookup N s h k (reachable_inv N HN s h Hr)). Qed.

(** X2: on every reachable container, [find(k)] returns an iterator that
    dereferences to [k] when [k] is stored, and [end()] when it is not. *)
Theorem find_correct N s h k :
  1 <= N -> reachable N s h ->
  (k ∈ keys (root s) -> exists it, ADS.find s k = Some it /\ deref (leaf_of (root s)) it = Some k) /\
  (k ∉ keys (root s) -> ADS.find s k = Some end_iterator).
Proof. intros HN Hr. apply (inv_lookup N s h k (reachable_inv N HN s h Hr)). Qed.

(** X3: on every reachable container, [insert(k)] returns an iterator that
    dereferences to [k] in the new container, and its flag is [true] exactly
    when [k] was not stored before. *)
Theorem insert_result N s h k :
  1 <= N -> reachable N s h ->
  exists it b s' h', ADS.insert N s h k = Some ((it, b), (s', h')) /\
    deref (leaf_of (root s')) it = Some k /\ (b = true <-> k ∉ keys (root s)).
Proof.
  intros HN Hr. pose proof (reachable_inv N HN s h Hr) as Hi.
  destruct (insert_spec N HN s h k Hi) as (it & b & s' & h' & E & Hf & Hi' & Hk & Hb).
  exists it, b, s', h'. split; [exact E|].
  destruct (inv_lookup N s' h' k Hi') as (_ & Hhit & _).
  destruct (Hhit Hk) as (it' & Hf' & Hd). rewrite Hf in Hf'. injection Hf' as <-.
  split; [exact Hd|]. destruct b.
  - split; [intros _; tauto|reflexivity].
  - destruct Hb as [-> ->]. split; [discriminate|]. intros Hn. contradiction.
Qed.

(** X4: after [insert(k)] on a reachable container, [count(k)] is 1 and
    [count(x)] is unchanged for every other key [x]. *)
Theorem insert_count N s h k r s' h' x :
  1 <= N -> reachable N s h -> ADS.insert N s h k = Some (r, (s', h')) ->
  ADS.count s' x = if bool_decide (x = k) then Some 1 else ADS.count s x.
Proof.
  intros HN Hr E. pose proof (reachable_inv N HN s h Hr) as Hi.
  destruct (insert_spec N HN s h k Hi) as (it & b & s1 & h1 & E1 & _ & Hi1 & Hk & Hb).
  rewrite E in E1. injection E1 as Er <- <-.
  rewrite (proj1 (inv_lookup N s' h' x Hi1)), (proj1 (inv_lookup N s h x Hi)).
  assert (Hiff : x <> k -> (x ∈ keys (root s') <-> x ∈ keys (root s))).
  { intros Hne. destruct b.
    - destruct Hb as (_ & Hp & _). rewrite Hp. rewrite elem_of_cons. intuition congruence.
    - destruct Hb as [-> ->]. reflexivity. }
  repeat case_bool_decide; subst; try reflexivity; try contradiction; exfalso;
    match goal with H : ?a <> ?b |- _ => specialize (Hiff H) end; tauto.
Qed.

(** X5: after [erase(k)] on a reachable container, [count(k)] is 0 and
    [count(x)] is unchanged for every other key [x]. *)
Theorem erase_count N s h k n s' h' x :
  1 <= N -> reachable N s h -> ADS.erase N s h k = Some (n, (s', h')) ->
  ADS.count s' x = if bool_decide (x = k) then Some 0 else ADS.count s x.
Proof.
  intros HN Hr E. pose proof (reachable_inv N HN s h Hr) as Hi.
  destruct (erase_spec N HN s h k Hi) as (n1 & s1 & h1 & E1 & Hi1 & Hin & Hnin).
  rewrite E in E1. injection E1 as Er <- <-.
  rewrite (proj1 (inv_lookup N s' h' x Hi1)), (proj1 (inv_lookup N s h x Hi)).
  destruct (decide (k ∈ keys (root s))) as [Hk|Hk].
  - destruct (Hin Hk) as (_ & Hp & _).
    pose proof (inv_keys_nodup N s h Hi) as Hnd. rewrite Hp in Hnd.
    apply NoDup_cons in Hnd as [Hk' _].
    assert (Hiff : x <> k -> (x ∈ keys (root s') <-> x ∈ keys (root s)))
      by (intros Hne; rewrite Hp, elem_of_cons; intuition congruence).
    repeat case_bool_decide; subst; try reflexivity; try contradiction; exfalso;
      match goal with H : ?a <> ?b |- _ => specialize (Hiff H) end; tauto.
  - destruct (Hnin Hk) as (_ & -> & ->).
    repeat case_bool_decide; subst; try reflexivity; contradiction.
Qed.

(** X6: on every reachable container, [size()] is the number of stored keys
    and [empty()] is [true] exactly when no key is stored. *)
Theorem empty_correct N s h :
  1 <= N -> reachable N s h ->
  ADS.size s = length (keys (root s)) /\ (ADS.empty s = true <-> keys (root s) = []).
Proof.
  intros HN Hr. destruct (reachable_inv N HN s h Hr) as [_ _ _ _ _ _ Hsz].
  unfold ADS.size, ADS.empty. rewrite Hsz. split; [reflexivity|].
  destruct (keys (root s)); cbn; split; congruence.
Qed.

Lemma insert_list_eq N ks : forall s h, ADS.insert_list N s h ks = insert_all N ks s h.
Proof.
  induction ks as [|k ks IH]; intros s h; [reflexivity|]. cbn [ADS.insert_list insert_all].
  destruct (ADS.insert N s h k) as [[r [s1 h1]]|]; [rewrite !bind_Some; apply IH|reflexivity].
Qed.

Lemma insert_all_spec N ks : 1 <= N -> forall s h, reachable N s h ->
  exists s' h', insert_all N ks s h = Some (s', h') /\ reachable N s' h' /\
    (forall x, x ∈ keys (root s') <-> x ∈ ks \/ x ∈ keys (root s)).
Proof.
  intros HN. induction ks as [|k ks IH]; intros s h Hr; cbn [insert_all].
  - exists s, h. split; [reflexivity|]. split; [exact Hr|]. intros x. rewrite elem_of_nil. tauto.
  - destruct (insert_spec N HN s h k (reachable_inv N HN s h Hr))
      as (it & b & s1 & h1 & E & _ & _ & Hk & Hb).
    rewrite E, bind_Some. cbv beta iota.
    assert (Hr1 : reachable N s1 h1) by (eapply reach_insert; eauto).
    destruct (IH s1 h1 Hr1) as (s' & h' & E' & Hr' & Hks).
    exists s', h'. split; [exact E'|]. split; [exact Hr'|].
    intros x. rewrite Hks, elem_of_cons.
    assert (Hx : x ∈ keys (root s1) <-> x = k \/ x ∈ keys (root s)).
    { destruct b.
      - destruct Hb as (_ & Hp & _). rewrite Hp, elem_of_cons. tauto.
      - destruct Hb as [-> ->]. split; [tauto|]. intros [->|H]; auto. }
    rewrite Hx. tauto.
Qed.

Lemma reachable_iterate N s h : 1 <= N -> reachable N s h ->
  ADS.iterate s h = Some (keys (root s)) /\ StronglySorted Z.lt (keys (root s)).
Proof.
  intros HN Hr. pose proof (reachable_inv N HN s h Hr) as Hi.
  split; [apply (iterate_spec N HN s h Hi)|].
  destruct Hi as [_ _ HR _ _ _ _]. apply (routed_keys _ _ _ HR).
Qed.

(** X7: [insert(ilist)] on a reachable container succeeds, and iterating the
    result gives a strictly increasing sequence of exactly the old keys and
    the keys of the list. *)
Theorem insert_list_correct N s h ks :
  1 <= N -> reachable N s h ->
  exists s' h' l, ADS.insert_list N s h ks = Some (s', h') /\ ADS.iterate s' h' = Some l /\
    StronglySorted Z.lt l /\ (forall x, x ∈ l <-> x ∈ ks \/ x ∈ keys (root s)).
Proof.
  intros HN Hr. rewrite insert_list_eq. destruct (insert_all_spec N ks HN s h Hr) as (s' & h' & E & Hr' & Hks).
  destruct (reachable_iterate N s' h' HN Hr') as [Hit HS].
  exists s', h', (keys (root s')). auto.
Qed.

(** X8: [ADS_set(ilist)] builds a container whose iteration is strictly
    increasing and holds exactly the keys of the list, each once; [size()]
    is the number of distinct keys. *)
Theorem from_list_correct N ks h :
  1 <= N ->
  exists s h' l, ADS.from_list N ks h = Some (s, h') /\ ADS.iterate s h' = Some l /\
    StronglySorted Z.lt l /\ (forall x, x ∈ l <-> x ∈ ks) /\ ADS.size s = length l.
Proof.
  intros HN. unfold ADS.from_list.
  pose proof (reach_construct N h) as Hr0.
  destruct (ADS.construct h) as [s0 h0] eqn:E0. cbn [fst snd] in Hr0. rewrite insert_list_eq.
  destruct (insert_all_spec N ks HN s0 h0 Hr0) as (s' & h' & E & Hr' & Hks).
  destruct (reachable_iterate N s' h' HN Hr') as [Hit HS].
  destruct (reachable_inv N HN s' h' Hr') as [_ _ _ _ _ _ Hsz].
  exists s', h', (keys (root s')). split; [exact E|]. split; [exact Hit|]. split; [exact HS|].
  split; [|exact Hsz].
  intros x. rewrite Hks. unfold ADS.construct in E0. injection E0 as <- <-.
  cbn [root]. rewrite keys_ext, elem_of_nil. tauto.
Qed.

(** X9: two containers built from initializer lists with the same elements,
    in any order and with any repetitions, iterate the same sequence and have
    the same [size()]. *)
Theorem from_list_order_independent N ks1 ks2 h1 h2 s1 s2 h1' h2' :
  1 <= N -> (forall x, x ∈ ks1 <-> x ∈ ks2) ->
  ADS.from_list N ks1 h1 = Some (s1, h1') -> ADS.from_list N ks2 h2 = Some (s2, h2') ->
  ADS.iterate s1 h1' = ADS.iterate s2 h2' /\ ADS.size s1 = ADS.size s2.
Proof.
  intros HN Hx E1 E2.
  assert (G : forall ks h s h', ADS.from_list N ks h = Some (s, h') ->
            reachable N s h' /\ forall x, x ∈ keys (root s) <-> x ∈ ks).
  { intros ks h s h' E. unfold ADS.from_list in E.
    pose proof (reach_construct N h) as Hr0.
    destruct (ADS.construct h) as [s0 h0] eqn:E0. cbn [fst snd] in Hr0. rewrite insert_list_eq in E.
    destruct (insert_all_spec N ks HN s0 h0 Hr0) as (s' & h'' & E' & Hr' & Hks).
    rewrite E in E'. injection E' as <- <-. split; [exact Hr'|].
    intros x. rewrite Hks. unfold ADS.construct in E0. injection E0 as <- <-.
    cbn [root]. rewrite keys_ext, elem_of_nil. tauto. }
  destruct (G _ _ _ _ E1) as [Hr1 Hk1]. destruct (G _ _ _ _ E2) as [Hr2 Hk2].
  destruct (reachable_iterate N s1 h1' HN Hr1) as [-> HS1].
  destruct (reachable_iterate N s2 h2' HN Hr2) as [-> HS2].
  assert (Hk : keys (root s1) = keys (root s2)).
  { apply ss_unique; [exact HS1|exact HS2|].
    apply NoDup_Permutation; [apply SS_NoDup; exact HS1|apply SS_NoDup; exact HS2|].
    intros x. rewrite Hk1, Hk2. apply Hx. }
  split; [rewrite Hk; reflexivity|].
  destruct (reachable_inv N HN s1 h1' Hr1) as [_ _ _ _ _ _ Hs1].
  destruct (reachable_inv N HN s2 h2' Hr2) as [_ _ _ _ _ _ Hs2].
  unfold ADS.size. rewrite Hs1, Hs2, Hk. reflexivity.
Qed.

(** X10: [operator=(ilist)] on a reachable container drops every old key:
    iterating the result gives exactly the keys of the list, strictly
    increasing. *)
Theorem assign_list_correct N s h ks :
  1 <= N -> reachable N s h ->
  exists s' h' l, ADS.assign_list N s h ks = Some (s', h') /\ ADS.iterate s' h' = Some l /\
    StronglySorted Z.lt l /\ (forall x, x ∈ l <-> x ∈ ks).
Proof.
  intros HN Hr. unfold ADS.assign_list.
  pose proof (reach_clear N s h Hr) as Hr0.
  destruct (ADS.clear s h) as [s0 h0] eqn:E0. cbn [fst snd] in Hr0. rewrite insert_list_eq.
  destruct (insert_all_spec N ks HN s0 h0 Hr0) as (s' & h' & E & Hr' & Hks).
  destruct (reachable_iterate N s' h' HN Hr') as [Hit HS].
  exists s', h', (keys (root s')). split; [exact E|]. split; [exact Hit|]. split; [exact HS|].
  intros x. rewrite Hks. unfold ADS.clear, ADS.construct in E0. injection E0 as <- <-.
  cbn [root]. rewrite keys_ext, elem_of_nil. tauto.
Qed.

Lemma walk_inv fuel vals h it l :
  walk fuel vals h it = Some l ->
  (iterator_eqb it end_iterator = true /\ l = []) \/
  (iterator_eqb it end_iterator = false /\ exists f x it' xs, fuel = S f /\
     deref vals it = Some x /\ incr vals h it = Some it' /\ walk f vals h it' = Some xs /\ l = x :: xs).
Proof.
  destruct fuel as [|f]; cbn [walk]; destruct (iterator_eqb it end_iterator) eqn:E;
    intros W; try (injection W as <-; left; auto); try discriminate W.
  right. split; [reflexivity|]. exists f.
  destruct (deref vals it) as [x|] eqn:Ex; [rewrite bind_Some in W|discriminate W].
  destruct (incr vals h it) as [it'|] eqn:Ei; [rewrite bind_Some in W|discriminate W].
  destruct (walk f vals h it') as [xs|] eqn:Ew; [rewrite bind_Some in W|discriminate W].
  injection W as <-. eauto 10.
Qed.

Lemma equal_loop_walk f : forall vl vr h lit rit l1 l2 f2,
  walk f vl h lit = Some l1 -> walk f2 vr h rit = Some l2 -> length l1 <= length l2 ->
  ADS.equal_loop f vl vr h lit rit = Some (bool_decide (l1 = take (length l1) l2)).
Proof.
  induction f as [|f IH]; intros vl vr h lit rit l1 l2 f2 W1 W2 Hl.
  - apply walk_inv in W1 as [[E ->]|(_ & f' & _ & _ & _ & Hf & _)]; [|discriminate Hf].
    cbn [ADS.equal_loop]. rewrite E. reflexivity.
  - apply walk_inv in W1 as [[E ->]|(E & f' & x & lit' & xs & Hf & Hx & Hi & W1 & ->)].
    + cbn [ADS.equal_loop]. rewrite E. reflexivity.
    + injection Hf as <-.
      apply walk_inv in W2 as [[_ ->]|(_ & f2' & y & rit' & ys & _ & Hy & Hj & W2 & ->)];
        [cbn in Hl; lia|].
      cbn [ADS.equal_loop]. rewrite E, Hx, Hy, !bind_Some.
      cbn [length take].
      destruct (Z.eqb_spec x y) as [<-|Hne]; cbn [negb].
      * rewrite Hi, Hj, !bind_Some. rewrite (IH vl vr h lit' rit' xs ys f2' W1 W2 ltac:(cbn in Hl; lia)).
        f_equal. apply bool_decide_ext. split; [intros H; f_equal; exact H|intros H; injection H; auto].
      * f_equal. symmetry. apply bool_decide_eq_false_2. intros H. injection H. auto.
Qed.

Lemma equal_spec N s r h :
  1 <= N -> inv N s h -> inv N r h ->
  exists b, ADS.equal s r h = Some b /\ (b = true <-> forall x, x ∈ keys (root s) <-> x ∈ keys (root r)).
Proof.
  intros HN Hs Hr.
  pose proof (iterate_spec N HN s h Hs) as Is. pose proof (iterate_spec N HN r h Hr) as Ir.
  assert (HSs : StronglySorted Z.lt (keys (root s))) by (destruct Hs as [_ _ HR _ _ _ _]; apply (routed_keys _ _ _ HR)).
  assert (HSr : StronglySorted Z.lt (keys (root r))) by (destruct Hr as [_ _ HR _ _ _ _]; apply (routed_keys _ _ _ HR)).
  assert (Hset : keys (root s) = keys (root r) <-> forall x, x ∈ keys (root s) <-> x ∈ keys (root r)).
  { split; [intros ->; reflexivity|]. intros Hx. apply ss_unique; auto.
    apply NoDup_Permutation; [apply SS_NoDup; auto|apply SS_NoDup; auto|exact Hx]. }
  destruct Hs as [_ _ _ _ _ _ Hss]. destruct Hr as [_ _ _ _ _ _ Hsr].
  unfold ADS.equal. destruct (Nat.eqb_spec (sz s) (sz r)) as [E|E]; cbn [negb].
  - unfold ADS.iterate in Is, Ir.
    rewrite (equal_loop_walk _ _ _ _ _ _ _ _ _ Is Ir ltac:(rewrite <- Hss, <- Hsr, E; lia)).
    eexists; split; [reflexivity|]. rewrite <- Hset.
    assert (Hl : length (keys (root s)) = length (keys (root r))) by (rewrite <- Hss, <- Hsr; exact E).
    rewrite Hl, firstn_all. apply bool_decide_eq_true.
  - eexists; split; [reflexivity|]. rewrite <- Hset. split; [discriminate|].
    intros Hk. exfalso. apply E. rewrite Hss, Hsr, Hk. reflexivity.
Qed.

(** X11: for two valid containers in one heap, [operator==] returns [true]
    exactly when they store the same keys, and [operator!=] returns the
    negation. *)
Theorem equal_correct N s r h :
  1 <= N -> inv N s h -> inv N r h ->
  exists b, ADS.equal s r h = Some b /\ ADS.not_equal s r h = Some (negb b) /\
    (b = true <-> forall x, x ∈ keys (root s) <-> x ∈ keys (root r)).
Proof.
  intros HN Hs Hr. destruct (equal_spec N s r h HN Hs Hr) as (b & E & Hb).
  exists b. unfold ADS.not_equal. rewrite E, bind_Some. auto.
Qed.

Lemma chain_right prev L h y l z :
  chain prev L h -> y ∈ L -> h !! y = Some l -> right_neighbour l = Some z -> z ∈ L.
Proof.
  revert prev; induction L as [|x L IH]; intros prev Hc Hy Hl Hz; [set_solver|].
  destruct Hc as [Hx Hc]. apply elem_of_cons in Hy as [->|Hy].
  - rewrite Hx in Hl. injection Hl as <-. cbn [right_neighbour] in Hz.
    destruct L; cbn in Hz; [discriminate|]. injection Hz as ->. set_solver.
  - right. eapply IH; eauto.
Qed.

Lemma set_left_lookup p x h h' n :
  set_left p x h = Some h' -> n <> p -> h' !! n = h !! n.
Proof.
  unfold set_left. destruct (h !! p); [rewrite bind_Some|discriminate].
  intros E Hn. injection E as <-. apply lookup_insert_ne. congruence.
Qed.

Lemma set_right_lookup p x h h' n :
  set_right p x h = Some h' -> n <> p -> h' !! n = h !! n.
Proof.
  unfold set_right. destruct (h !! p); [rewrite bind_Some|discriminate].
  intros E Hn. injection E as <-. apply lookup_insert_ne. congruence.
Qed.

Lemma set_left_some p x h h' n :
  set_left p x h = Some h' -> is_Some (h !! n) -> is_Some (h' !! n).
Proof.
  unfold set_left. destruct (h !! p); [rewrite bind_Some|discriminate].
  intros E Hn. injection E as <-. destruct (decide (n = p)) as [->|];
    [rewrite lookup_insert_eq; eauto|rewrite lookup_insert_ne; auto].
Qed.

Lemma set_right_some p x h h' n :
  set_right p x h = Some h' -> is_Some (h !! n) -> is_Some (h' !! n).
Proof.
  unfold set_right. destruct (h !! p); [rewrite bind_Some|discriminate].
  intros E Hn. injection E as <-. destruct (decide (n = p)) as [->|];
    [rewrite lookup_insert_eq; eauto|rewrite lookup_insert_ne; auto].
Qed.

Lemma fresh_not_some (h : heap) n : is_Some (h !! n) -> fresh (dom h) <> n.
Proof.
  intros Hn E. apply (is_fresh (dom h)). rewrite E. apply elem_of_dom. exact Hn.
Qed.

Lemma ids_concat_split_int (cv : list Z) cc m :
  ids (InternalNode (take m cv) (take (S m) cc)) ++ ids (InternalNode (drop (S m) cv) (drop (S m) cc))
  = ids (InternalNode cv cc).
Proof. rewrite !ids_int, <- concat_app, <- map_app, take_drop. reflexivity. Qed.

(** [split] allocates one leaf at most, and it is not live before. *)
Lemma split_alloc pos vs cs h vs' cs' h' :
  split pos vs cs h = Some (vs', cs', h') ->
  (forall n, is_Some (h !! n) -> is_Some (h' !! n)) /\
  (forall n, n ∈ concat (map ids cs') -> n ∈ concat (map ids cs) \/ h !! n = None).
Proof.
  unfold split. destruct (cs !! pos) as [c|] eqn:Hc; [rewrite bind_Some|discriminate].
  pose proof (take_drop_middle cs pos c Hc) as Hcs.
  destruct c as [cid cv|cv cc].
  - destruct (Nat.even (length cv)); [discriminate|].
    destruct (h !! cid) as [cl|] eqn:Hcl; [rewrite bind_Some|discriminate]. cbv zeta.
    set (r := fresh (dom h)).
    set (h1 := <[r := mkLinks (Some cid) (right_neighbour cl)]> h).
    destruct (match right_neighbour cl with Some o => set_left o (Some r) h1 | None => Some h1 end)
      as [h2|] eqn:H2; [rewrite bind_Some|discriminate].
    destruct (set_right cid (Some r) h2) as [h3|] eqn:H3; [rewrite bind_Some|discriminate].
    destruct (head (drop (length cv / 2) cv)) as [k|]; [rewrite bind_Some|discriminate].
    intros E. injection E as <- <- <-. split.
    + intros n Hn. eapply set_right_some; [exact H3|].
      assert (Hn1 : is_Some (h1 !! n)).
      { unfold h1. destruct (decide (n = r)) as [->|];
          [rewrite lookup_insert_eq; eauto|rewrite lookup_insert_ne; auto]. }
      destruct (right_neighbour cl); [eapply set_left_some; eauto|injection H2 as <-; exact Hn1].
    + intros n Hn. rewrite <- Hcs.
      rewrite !map_app, !concat_app in *. cbn [map concat] in *. rewrite !ids_ext in *.
      destruct (decide (n = r)) as [->|Hnr].
      * right. unfold r. apply not_elem_of_dom. apply is_fresh.
      * left. set_solver.
  - destruct (Nat.even (length cv)); [discriminate|].
    destruct (cv !! (length cv / 2)) as [k|]; [rewrite bind_Some|discriminate].
    intros E. injection E as <- <- <-. split; [auto|].
    intros n Hn. left. rewrite <- Hcs.
    rewrite !map_app, !concat_app in *. cbn [map concat] in *.
    rewrite <- (ids_concat_split_int cv cc (length cv / 2)).
    rewrite !elem_of_app in *. tauto.
Qed.

(** [split] writes the neighbour pointers of the split leaf and of its right
    neighbour only. *)
Lemma split_frame pos vs cs h vs' cs' h' L :
  split pos vs cs h = Some (vs', cs', h') -> chain None L h ->
  (forall n, n ∈ concat (map ids cs) -> n ∈ L) ->
  forall n, is_Some (h !! n) -> n ∉ L -> h' !! n = h !! n.
Proof.
  unfold split. destruct (cs !! pos) as [c|] eqn:Hc; [rewrite bind_Some|discriminate].
  pose proof (take_drop_middle cs pos c Hc) as Hcs.
  destruct c as [cid cv|cv cc].
  - destruct (Nat.even (length cv)); [discriminate|].
    destruct (h !! cid) as [cl|] eqn:Hcl; [rewrite bind_Some|discriminate]. cbv zeta.
    set (r := fresh (dom h)).
    set (h1 := <[r := mkLinks (Some cid) (right_neighbour cl)]> h).
    destruct (match right_neighbour cl with Some o => set_left o (Some r) h1 | None => Some h1 end)
      as [h2|] eqn:H2; [rewrite bind_Some|discriminate].
    destruct (set_right cid (Some r) h2) as [h3|] eqn:H3; [rewrite bind_Some|discriminate].
    destruct (head (drop (length cv / 2) cv)) as [k|]; [rewrite bind_Some|discriminate].
    intros E Hch Hsub n Hn HnL. injection E as <- <- <-.
    assert (Hcid : cid ∈ L).
    { apply Hsub. rewrite <- Hcs, map_app, concat_app. cbn [map concat]. rewrite ids_ext. set_solver. }
    rewrite (set_right_lookup _ _ _ _ _ H3) by (intros ->; contradiction).
    assert (Hh1 : h1 !! n = h !! n)
      by (unfold h1; rewrite lookup_insert_ne; [reflexivity|apply fresh_not_some; exact Hn]).
    destruct (right_neighbour cl) as [o|] eqn:Ho.
    + rewrite (set_left_lookup _ _ _ _ _ H2); [exact Hh1|].
      intros ->. apply HnL. eapply chain_right; eauto.
    + injection H2 as <-. exact Hh1.
  - destruct (Nat.even (length cv)); [discriminate|].
    destruct (cv !! (length cv / 2)) as [k|]; [rewrite bind_Some|discriminate].
    intros E. injection E as <- <- <-. auto.
Qed.

(** [add_elem] allocates only leaves that are not live before. *)
Lemma add_alloc N d : forall t k h r t' h', bal d t ->
  add_elem N t k h = Some (r, t', h') ->
  (forall n, is_Some (h !! n) -> is_Some (h' !! n)) /\
  (forall n, n ∈ ids t' -> n ∈ ids t \/ h !! n = None).
Proof.
  induction d as [|d IH']; intros t k h r t' h' Hb; inversion Hb as [id v|? vs cs _ Hbc]; subst;
    cbn [add_elem].
  - destruct (ext_add_elem N v k). intros E. injection E as <- <- <-. auto.
  - rewrite apply_at_spec. destruct (cs !! find_pos vs k) as [c|] eqn:Hc; [rewrite bind_Some|discriminate].
    destruct (add_elem N c k h) as [[[r1 c1] h1]|] eqn:Ha; [rewrite !bind_Some|discriminate].
    cbv beta iota.
    destruct (IH' c k h r1 c1 h1 (Forall_lookup_1 _ _ _ _ Hbc Hc) Ha) as [Hd1 Hi1].
    assert (Hpos : find_pos vs k < length cs) by (eapply lookup_lt_Some; eauto).
    assert (Hids1 : forall n, n ∈ concat (map ids (<[find_pos vs k := c1]> cs)) ->
                      n ∈ concat (map ids cs) \/ h !! n = None).
    { intros n. rewrite (concat_map_insert ids cs _ c c1 Hc), (concat_map_middle ids cs _ c Hc).
      rewrite !elem_of_app.
      intros [Hn|[Hn|Hn]]; [tauto| |tauto]. destruct (Hi1 n Hn); tauto. }
    destruct r1.
    + intros E. injection E as <- <- <-. rewrite !ids_int. auto.
    + intros E. injection E as <- <- <-. rewrite !ids_int. auto.
    + destruct (split (find_pos vs k) vs (<[find_pos vs k := c1]> cs) h1) as [[[vs2 cs2] h2]|] eqn:Hs;
        [rewrite bind_Some|discriminate].
      intros E. injection E as <- <- <-.
      destruct (split_alloc _ _ _ _ _ _ _ Hs) as [Hd2 Hi2]. split; [auto|].
      intros n Hn. rewrite ids_int in *. destruct (Hi2 n Hn) as [Hn1|Hn1]; [apply Hids1; exact Hn1|].
      right. destruct (h !! n) eqn:Hh; [|reflexivity].
      exfalso. destruct (Hd1 n ltac:(eauto)) as [? Hx]. congruence.
Qed.

Section AddFrame.
Variable N : nat.
Hypothesis HN : 1 <= N.

(** [add_elem] leaves the neighbour pointers of every other live leaf as they are. *)
Lemma add_frame d : forall t lo hi h P Q k r t' h',
  bal d t -> routed lo hi t -> in_range lo hi k -> root_ok N t ->
  NoDup (P ++ ids t ++ Q) -> chain None (P ++ ids t ++ Q) h ->
  add_elem N t k h = Some (r, t', h') ->
  forall n, is_Some (h !! n) -> n ∉ P ++ ids t ++ Q -> h' !! n = h !! n.
Proof.
  induction d as [|d IH]; intros t lo hi h P Q k r t' h' Hb HR Hk Hok Hnd Hch E n Hn HnL.
  - inversion Hb; subst. cbn [add_elem] in E. destruct (ext_add_elem N v k).
    injection E as <- <- <-. reflexivity.
  - inversion Hb as [|d' vs cs Hlen Hbc]; subst.
    inversion HR as [|? ? ? ? HRs]; subst.
    destruct Hok as (Hsz & Hsf & Hone). simpl in Hsf.
    pose proof (find_pos_le vs k) as Hle.
    destruct (lookup_lt_is_Some_2 cs (find_pos vs k)) as [c Hc]; [lia|].
    destruct (routed_descend _ _ _ _ _ _ HRs Hk Hc) as (b & Hpre & Hseq & Hkc & Hiff).
    set (pos := find_pos vs k) in *.
    pose proof (routed_seq_head _ _ _ _ _ Hseq) as Hcr.
    assert (Hcf : filled N c) by (eapply Forall_lookup_1; eauto).
    assert (Hcb : bal d c) by (eapply Forall_lookup_1; eauto).
    rewrite ids_int, (concat_map_middle ids cs pos c Hc) in Hnd, Hch, HnL.
    set (A := concat (map ids (take pos cs))) in *.
    set (B := concat (map ids (drop (S pos) cs))) in *.
    assert (Hnd' : NoDup ((P ++ A) ++ ids c ++ (B ++ Q))) by (rewrite mid_assoc; exact Hnd).
    assert (Hch' : chain None ((P ++ A) ++ ids c ++ (B ++ Q)) h)
      by (rewrite mid_assoc; exact Hch).
    assert (HnL' : n ∉ (P ++ A) ++ ids c ++ (B ++ Q)) by (rewrite mid_assoc; exact HnL).
    destruct (add_spec N HN d c _ _ h (P ++ A) (B ++ Q) k Hcb Hcr Hkc (filled_root_ok N c HN Hcf) Hnd' Hch')
      as ([[r1 c1] h1] & Hadd & Hpost).
    pose proof (IH c _ _ h (P ++ A) (B ++ Q) k r1 c1 h1 Hcb Hcr Hkc (filled_root_ok N c HN Hcf)
                  Hnd' Hch' Hadd n Hn HnL') as Hf1.
    cbn [add_elem] in E. rewrite apply_at_spec in E. fold pos in E.
    rewrite Hc, bind_Some, Hadd, bind_Some in E. cbv beta iota in E. rewrite bind_Some in E. cbv beta iota in E.
    destruct r1; [injection E as <- <- <-; exact Hf1|injection E as <- <- <-; exact Hf1|].
    destruct (split pos vs (<[pos := c1]> cs) h1) as [[[vs2 cs2] h2]|] eqn:Hs;
      [rewrite bind_Some in E|discriminate E].
    injection E as <- <- <-. rewrite <- Hf1.
    destruct Hpost as (_ & _ & _ & Hch1 & _). rewrite mid_assoc in Hch1.
    assert (HI : concat (map ids (<[pos := c1]> cs)) = A ++ ids c1 ++ B)
      by (apply concat_map_insert with (c := c); exact Hc).
    apply (split_frame pos vs (<[pos := c1]> cs) h1 vs2 cs2 h2 (P ++ (A ++ ids c1 ++ B) ++ Q) Hs Hch1).
    + intros x Hx. rewrite HI in Hx. clear -Hx. set_solver.
    + rewrite Hf1. exact Hn.
    + destruct (add_alloc N d c k h _ c1 h1 Hcb Hadd) as [_ Hi].
      intros Hin. apply elem_of_app in Hin as [Hin|Hin]; [apply HnL; set_solver|].
      apply elem_of_app in Hin as [Hin|Hin]; [|apply HnL; set_solver].
      apply elem_of_app in Hin as [Hin|Hin]; [apply HnL; set_solver|].
      apply elem_of_app in Hin as [Hin|Hin]; [|apply HnL; set_solver].
      destruct (Hi n Hin) as [Hin'|Hnone]; [apply HnL; set_solver|].
      destruct Hn as [? Hn]. congruence.
Qed.

End AddFrame.

(** [ADS_set::insert] leaves every live leaf outside the container as it is,
    and the container's leaves afterwards are its former leaves or leaves
    that were not live. *)
Lemma insert_frame N s h k r s' h' :
  1 <= N -> inv N s h -> ADS.insert N s h k = Some (r, (s', h')) ->
  (forall n, is_Some (h !! n) -> is_Some (h' !! n)) /\
  (forall n, n ∈ ids (root s') -> n ∈ ids (root s) \/ h !! n = None) /\
  (forall n, is_Some (h !! n) -> n ∉ ids (root s) -> h' !! n = h !! n).
Proof.
  intros HN Hi E. pose proof Hi as [[d Hb] Hok HR Hnd Hch Hleft Hsz].
  assert (Hk : in_range None None k) by (split; exact I).
  unfold ADS.insert in E.
  destruct (add_elem N (root s) k h) as [[[r1 t1] h1]|] eqn:Ha; [rewrite bind_Some in E|discriminate E].
  cbv beta iota in E.
  destruct (add_alloc N d (root s) k h r1 t1 h1 Hb Ha) as [Hd1 Hi1].
  assert (Hf1 : forall n, is_Some (h !! n) -> n ∉ ids (root s) -> h1 !! n = h !! n).
  { intros n Hn Hni. apply (add_frame N HN d (root s) None None h [] [] k r1 t1 h1 Hb HR Hk Hok);
      [exact (nodup_nil_app _ Hnd)|exact (chain_nil_app _ _ Hch)|exact Ha|exact Hn|].
    rewrite app_nil_r. exact Hni. }
  destruct r1.
  - destruct (ADS.find _ k) as [it|]; [rewrite bind_Some in E|discriminate E].
    injection E as _ <- <-. cbn [root]. auto.
  - destruct (ADS.find _ k) as [it|]; [rewrite bind_Some in E|discriminate E].
    injection E as _ <- <-. cbn [root]. auto.
  - destruct (split 0 [] [t1] h1) as [[[vs cs] h2]|] eqn:Hs; [rewrite bind_Some in E|discriminate E].
    cbv beta iota in E.
    destruct (ADS.find _ k) as [it|]; [rewrite bind_Some in E|discriminate E].
    injection E as _ <- <-. cbn [root].
    destruct (split_alloc _ _ _ _ _ _ _ Hs) as [Hd2 Hi2].
    destruct (add_spec N HN d (root s) None None h [] [] k Hb HR Hk Hok
                (nodup_nil_app _ Hnd) (chain_nil_app _ _ Hch)) as ([[r2 t2] h3] & Ha' & Hpost).
    rewrite Ha in Ha'. injection Ha' as <- <- <-.
    destruct Hpost as (_ & _ & _ & Hch1 & _). rewrite app_nil_r in Hch1. cbn [app] in Hch1.
    split; [auto|]. split.
    + intros n Hn. rewrite ids_int in Hn. destruct (Hi2 n Hn) as [Hn'|Hn'].
      * cbn [map concat] in Hn'. rewrite app_nil_r in Hn'. apply Hi1. exact Hn'.
      * right. destruct (h !! n) eqn:Hh; [|reflexivity].
        destruct (Hd1 n ltac:(eauto)) as [? Hx]. congruence.
    + intros n Hn Hni. rewrite <- (Hf1 n Hn Hni).
      apply (split_frame 0 [] [t1] h1 vs cs h2 (ids t1) Hs Hch1).
      * intros x Hx. cbn [map concat] in Hx. rewrite app_nil_r in Hx. exact Hx.
      * rewrite (Hf1 n Hn Hni). exact Hn.
      * intros Hin. destruct (Hi1 n Hin) as [|Hnone]; [contradiction|].
        destruct Hn as [? Hn]. congruence.
Qed.

Lemma assoc_leaf_none n L : n ∉ map fst L -> assoc_leaf n L = None.
Proof.
  induction L as [|[i w] L IH]; cbn [map fst assoc_leaf]; intros Hn; [reflexivity|].
  destruct (Nat.eqb_spec i n) as [->|]; [set_solver|]. apply IH. set_solver.
Qed.

Lemma leaf_of_none t n : n ∉ ids t -> leaf_of t n = None.
Proof. apply assoc_leaf_none. Qed.

Lemma foldr_first (g : ADS_set -> option (list Z)) (X : option (list Z)) L :
  (forall y, y ∈ L -> g y = None \/ g y = X) ->
  (X = None \/ exists y, y ∈ L /\ g y = X) ->
  foldr (fun o acc => match g o with Some v => Some v | None => acc end) None L = X.
Proof.
  induction L as [|y L IH]; cbn [foldr]; intros Hall Hex.
  - destruct Hex as [->|(y & Hy & _)]; [reflexivity|set_solver].
  - destruct (Hall y ltac:(set_solver)) as [Hy|Hy]; rewrite Hy.
    + apply IH; [intros z Hz; apply Hall; set_solver|].
      destruct Hex as [->|(z & Hz & Hgz)]; [left; reflexivity|].
      apply elem_of_cons in Hz as [->|Hz]; [left; congruence|right; eauto].
    + destruct X as [v|]; [reflexivity|].
      apply IH; [intros z Hz; apply Hall; set_solver|left; reflexivity].
Qed.

Lemma world_leaf_owner (objs : gmap nat ADS_set) other o n :
  objs !! other = Some o ->
  (forall j o', objs !! j = Some o' -> j <> other -> n ∉ ids (root o')) ->
  ADS.world_leaf objs n = leaf_of (root o) n.
Proof.
  intros Ho Hdis. unfold ADS.world_leaf.
  apply (foldr_first (fun o => leaf_of (root o) n)).
  - intros y Hy. apply list_elem_of_In, in_map_iff in Hy as ([j y'] & <- & Hj).
    apply list_elem_of_In, elem_of_map_to_list in Hj. cbn [snd].
    destruct (decide (j = other)) as [->|Hjn].
    + right. rewrite Ho in Hj. injection Hj as ->. reflexivity.
    + left. apply leaf_of_none. exact (Hdis j y' Hj Hjn).
  - right. exists o. split; [|reflexivity].
    apply list_elem_of_In, in_map_iff. exists (other, o). split; [reflexivity|].
    apply list_elem_of_In, elem_of_map_to_list. exact Ho.
Qed.

Lemma free_tree_lookup t h n :
  free_tree t h !! n = if decide (n ∈ ids t) then None else h !! n.
Proof.
  unfold free_tree, ids. induction (map fst (leaves t)) as [|i L IH]; cbn [foldr].
  - destruct (decide (n ∈ [])); [set_solver|reflexivity].
  - destruct (decide (i = n)) as [->|Hin].
    + rewrite lookup_delete_eq. destruct (decide (n ∈ n :: L)); [reflexivity|set_solver].
    + rewrite lookup_delete_ne by exact Hin. rewrite IH.
      destruct (decide (n ∈ L)), (decide (n ∈ i :: L)); set_solver.
Qed.

Lemma insert_range_end N f objs h this :
  ADS.insert_range N f objs h this end_iterator end_iterator = Some (objs, h).
Proof. destruct f; reflexivity. Qed.

Lemma inv_keys_sorted N s h : inv N s h -> StronglySorted Z.lt (keys (root s)).
Proof. intros Hi. apply (routed_keys None None), (inv_routed _ _ _ Hi). Qed.

Lemma inv_frame N s h h' :
  inv N s h -> (forall n, n ∈ ids (root s) -> h' !! n = h !! n) -> inv N s h'.
Proof.
  intros [Hb Hok HR Hnd Hch Hleft Hsz] Hf. constructor; auto.
  eapply chain_frame; [exact Hf|exact Hch].
Qed.

Lemma inv_ids_live N s h n : inv N s h -> n ∈ ids (root s) -> is_Some (h !! n).
Proof. intros Hi. apply chain_dom with None, (inv_chain _ _ _ Hi). Qed.

Lemma construct_frame N s h :
  inv N s h ->
  inv N s (snd (ADS.construct h)) /\
  (forall n, n ∈ ids (root s) -> n ∉ ids (root (fst (ADS.construct h)))).
Proof.
  intros Hi. unfold ADS.construct. cbn [fst snd root]. rewrite ids_ext. split.
  - apply (inv_frame N s h _ Hi). intros n Hn.
    apply lookup_insert_ne, fresh_not_some, (inv_ids_live N s h n Hi Hn).
  - intros n Hn Hn0. apply list_elem_of_singleton in Hn0.
    exact (fresh_not_some h n (inv_ids_live N s h n Hi Hn) (eq_sym Hn0)).
Qed.

Section CopyLoop.
Variable N : nat.
Hypothesis HN : 1 <= N.
Variables (this other : nat) (o : ADS_set).
Hypothesis Hne : this <> other.

Lemma insert_range_loop : forall fuel objs h d id v i R prev,
  objs !! other = Some o -> objs !! this = Some d -> inv N d h ->
  (forall j o', objs !! j = Some o' -> j <> other ->
     forall n, n ∈ ids (root o) -> n ∉ ids (root o')) ->
  (forall n, n ∈ ids (root o) -> is_Some (h !! n)) ->
  leaf_of (root o) id = Some v -> i < length v -> id ∈ ids (root o) ->
  Forall (fun p : nat * list Z =>
            leaf_of (root o) p.1 = Some p.2 /\ p.2 <> [] /\ p.1 ∈ ids (root o)) R ->
  h !! id = Some (mkLinks prev (head (map fst R))) ->
  chain (Some id) (map fst R) h ->
  length (drop i v) + length (concat (map snd R)) <= fuel ->
  exists objs' h' d',
    ADS.insert_range N fuel objs h this (mkIterator (Some id) i) end_iterator = Some (objs', h') /\
    objs' !! this = Some d' /\ inv N d' h' /\
    (forall x, x ∈ keys (root d') <-> x ∈ keys (root d) \/ x ∈ drop i v ++ concat (map snd R)) /\
    (forall n, n ∈ ids (root o) -> h' !! n = h !! n) /\
    (forall j, j <> this -> objs' !! j = objs !! j).
Proof.
  induction fuel as [|f IH];
    intros objs h d id v i R prev Ho Hd Hinv Hdis Hlive Hv Hi Hid HR Hl Hch Hf.
  - rewrite length_drop in Hf. lia.
  - cbn [ADS.insert_range]. unfold iterator_eqb, end_iterator, deref, incr.
    cbn [current_node current_element andb]. cbv beta iota.
    destruct (lookup_lt_is_Some_2 v i Hi) as [x Hx].
    assert (Hw : ADS.world_leaf objs id = Some v).
    { rewrite (world_leaf_owner objs other o id Ho); [exact Hv|].
      intros j o' Hj Hjn. exact (Hdis j o' Hj Hjn id Hid). }
    repeat progress (rewrite ?Hw, ?Hx, ?bind_Some; cbv beta).
    rewrite Hd, bind_Some.
    destruct (insert_spec N HN d h x Hinv) as (it & b & d1 & h1 & Eins & _ & Hinv1 & Hxin & Hb).
    destruct (insert_frame N d h x (it, b) d1 h1 HN Hinv Eins) as (Hdom & Hids1 & Hfr).
    rewrite Eins, bind_Some. cbv beta iota.
    assert (Hk1 : forall y, y ∈ keys (root d1) <-> y = x \/ y ∈ keys (root d)).
    { destruct b.
      - destruct Hb as (_ & Hp & _). intros y. rewrite Hp, elem_of_cons. tauto.
      - destruct Hb as [-> ->]. intros y. split; [tauto|].
        intros [->|Hy]; [exact Hxin|exact Hy]. }
    set (objs1 := <[this := d1]> objs).
    assert (Hheap : forall n, n ∈ ids (root o) -> h1 !! n = h !! n).
    { intros n Hn. apply Hfr; [exact (Hlive n Hn)|exact (Hdis this d Hd Hne n Hn)]. }
    assert (Ho1 : objs1 !! other = Some o).
    { unfold objs1. rewrite lookup_insert_ne by congruence. exact Ho. }
    assert (Hdis1 : forall j o', objs1 !! j = Some o' -> j <> other ->
              forall n, n ∈ ids (root o) -> n ∉ ids (root o')).
    { intros j o' Hj Hjn n Hn. unfold objs1 in Hj.
      destruct (decide (j = this)) as [->|Hjt].
      - rewrite lookup_insert_eq in Hj. injection Hj as <-. intros Hn1.
        destruct (Hids1 n Hn1) as [Hn0|Hn0].
        + exact (Hdis this d Hd Hne n Hn Hn0).
        + destruct (Hlive n Hn) as [? Hs]. congruence.
      - rewrite lookup_insert_ne in Hj by congruence. exact (Hdis j o' Hj Hjn n Hn). }
    assert (Hlive1 : forall n, n ∈ ids (root o) -> is_Some (h1 !! n)).
    { intros n Hn. rewrite Hheap by exact Hn. exact (Hlive n Hn). }
    assert (Hw1 : ADS.world_leaf objs1 id = Some v).
    { rewrite (world_leaf_owner objs1 other o id Ho1); [exact Hv|].
      intros j o' Hj Hjn. exact (Hdis1 j o' Hj Hjn id Hid). }
    fold objs1. rewrite Hw1, bind_Some. cbv beta.
    assert (Hch1 : forall L, (forall y, y ∈ L -> y ∈ ids (root o)) ->
              forall p, chain p L h -> chain p L h1).
    { intros L HL p. apply chain_frame. intros y Hy. apply Hheap, HL, Hy. }
    assert (HRo : forall y, y ∈ map fst R -> y ∈ ids (root o)).
    { intros y Hy. apply list_elem_of_In, in_map_iff in Hy as ([y' w] & <- & Hy).
      apply list_elem_of_In in Hy. eapply Forall_forall in HR; [|exact Hy]. exact (proj2 (proj2 HR)). }
    rewrite (drop_S v x i Hx) in *.
    destruct (Nat.leb_spec (length v) (S i)) as [Hle|Hgt].
    + rewrite (Hheap id Hid), Hl, bind_Some. cbn [right_neighbour].
      rewrite (drop_ge v (S i)) by lia.
      destruct R as [|[id2 v2] R].
      * cbn [map head].
        rewrite bind_Some. cbv beta. rewrite (insert_range_end N f objs1 h1 this : ADS.insert_range N f objs1 h1 this (mkIterator None 0) (mkIterator None 0) = Some (objs1, h1)).
        exists objs1, h1, d1. split; [reflexivity|].
        split; [unfold objs1; apply lookup_insert_eq|].
        split; [exact Hinv1|].
        split; [intros y; rewrite Hk1; cbn [map concat app]; rewrite list_elem_of_singleton; tauto|].
        split; [exact Hheap|].
        intros j Hj. unfold objs1. apply lookup_insert_ne. congruence.
      * cbn [map head fst snd concat] in *.
        apply Forall_cons in HR as [[Hv2 [Hne2 Hid2]] HR]. cbn [fst snd] in Hv2, Hne2, Hid2.
        destruct Hch as [Hl2 Hch].
        assert (Hlen2 : 0 < length v2) by (destruct v2; [congruence|cbn; lia]).
        destruct (IH objs1 h1 d1 id2 v2 0 R (Some id) Ho1 ltac:(unfold objs1; apply lookup_insert_eq)
                    Hinv1 Hdis1 Hlive1 Hv2 Hlen2 Hid2 HR)
          as (objs' & h' & d' & E & Hd' & Hinv' & Hk' & Hh' & Hob').
        { rewrite (Hheap id2 Hid2). exact Hl2. }
        { apply Hch1; [intros y Hy; apply HRo; set_solver|exact Hch]. }
        { rewrite drop_0. cbn [length] in Hf. rewrite length_app, length_drop in Hf. lia. }
        exists objs', h', d'. split; [exact E|].
        split; [exact Hd'|]. split; [exact Hinv'|].
        split.
        { intros y. rewrite Hk', Hk1, drop_0. cbn [app]. rewrite elem_of_cons. tauto. }
        split.
        { intros n Hn. rewrite Hh' by exact Hn. apply Hheap, Hn. }
        intros j Hj. rewrite Hob' by exact Hj. unfold objs1. apply lookup_insert_ne. congruence.
    + destruct (IH objs1 h1 d1 id v (S i) R prev Ho1 ltac:(unfold objs1; apply lookup_insert_eq)
                  Hinv1 Hdis1 Hlive1 Hv ltac:(lia) Hid HR)
        as (objs' & h' & d' & E & Hd' & Hinv' & Hk' & Hh' & Hob').
      { rewrite (Hheap id Hid). exact Hl. }
      { apply Hch1; [exact HRo|exact Hch]. }
      { cbn [length] in Hf. lia. }
      exists objs', h', d'. split; [exact E|].
      split; [exact Hd'|]. split; [exact Hinv'|].
      split.
      { intros y. rewrite Hk', Hk1. cbn [app]. rewrite elem_of_cons. tauto. }
      split.
      { intros n Hn. rewrite Hh' by exact Hn. apply Hheap, Hn. }
      intros j Hj. rewrite Hob' by exact Hj. unfold objs1. apply lookup_insert_ne. congruence.
Qed.

Lemma insert_range_all fuel objs h d :
  objs !! other = Some o -> objs !! this = Some d -> inv N d h -> inv N o h ->
  (forall j o', objs !! j = Some o' -> j <> other ->
     forall n, n ∈ ids (root o) -> n ∉ ids (root o')) ->
  sz o <= fuel ->
  exists objs' h' d',
    ADS.insert_range N fuel objs h this (ADS.begin o) end_iterator = Some (objs', h') /\
    objs' !! this = Some d' /\ inv N d' h' /\ inv N o h' /\
    (forall x, x ∈ keys (root d') <-> x ∈ keys (root d) \/ x ∈ keys (root o)) /\
    (forall j, j <> this -> objs' !! j = objs !! j).
Proof.
  intros Ho Hd Hinv Hio Hdis Hf.
  pose proof Hio as [[dd Hb] Hok HR Hnd Hch Hleft Hsz].
  unfold ADS.begin.
  destruct (Nat.eqb_spec (sz o) 0) as [H0|H0].
  - rewrite insert_range_end. exists objs, h, d.
    rewrite H0 in Hsz. destruct (keys (root o)) as [|k ks] eqn:Ek; [|discriminate Hsz].
    split; [reflexivity|]. split; [exact Hd|]. split; [exact Hinv|]. split; [exact Hio|].
    split; [intros x; set_solver|auto].
  - assert (Hk : keys (root o) <> []) by (intros E; rewrite E in Hsz; cbn in Hsz; lia).
    pose proof (root_leaves_nonempty N HN dd (root o) Hb Hok Hk) as Hne0.
    assert (Hlv : forall i w, In (i, w) (leaves (root o)) -> leaf_of (root o) i = Some w).
    { intros i w Hin. apply assoc_leaf_in; [exact Hnd|exact Hin]. }
    assert (Hli : forall i w, In (i, w) (leaves (root o)) -> i ∈ ids (root o)).
    { intros i w Hin. apply list_elem_of_In, in_map_iff. exists (i, w). auto. }
    assert (Hlive : forall n, n ∈ ids (root o) -> is_Some (h !! n)).
    { intros n Hn. exact (inv_ids_live N o h n Hio Hn). }
    unfold ids in Hnd, Hch, Hleft. unfold keys in Hsz, Hk.
    destruct (leaves (root o)) as [|[id0 v0] R] eqn:EL; [discriminate Hleft|].
    cbn [map head fst] in Hleft, Hch. injection Hleft as <-.
    destruct Hch as [Hl0 Hch].
    apply Forall_cons in Hne0 as [Hne0 HneR]. cbn [snd] in Hne0.
    destruct (insert_range_loop fuel objs h d id0 v0 0 R None Ho Hd Hinv Hdis Hlive)
      as (objs' & h' & d' & E & Hd' & Hinv' & Hk' & Hh' & Hob').
    { apply Hlv. left. reflexivity. }
    { destruct v0; [congruence|cbn; lia]. }
    { apply (Hli _ v0). left. reflexivity. }
    { apply Forall_forall. intros [i w] Hin. apply list_elem_of_In in Hin. cbn [fst snd].
      split; [apply Hlv; right; exact Hin|].
      split; [eapply Forall_forall in HneR; [|apply list_elem_of_In; exact Hin]; exact HneR|].
      apply (Hli _ w). right. exact Hin. }
    { exact Hl0. }
    { exact Hch. }
    { rewrite drop_0. cbn [map concat snd] in Hsz. rewrite length_app in Hsz. lia. }
    exists objs', h', d'. split; [exact E|].
    split; [exact Hd'|]. split; [exact Hinv'|].
    split; [apply (inv_frame N o h h' Hio); exact Hh'|].
    split; [|exact Hob'].
    intros x. rewrite Hk', drop_0. unfold keys. rewrite EL. reflexivity.
Qed.

End CopyLoop.

Lemma keys_same N s t h h' :
  inv N s h -> inv N t h' -> (forall x, x ∈ keys (root s) <-> x ∈ keys (root t)) ->
  keys (root s) = keys (root t).
Proof.
  intros Hs Ht Hx. apply ss_unique; [exact (inv_keys_sorted N s h Hs)|exact (inv_keys_sorted N t h' Ht)|].
  apply NoDup_Permutation; [apply SS_NoDup, (inv_keys_sorted N s h Hs)|apply SS_NoDup, (inv_keys_sorted N t h' Ht)|exact Hx].
Qed.

(** X12: [s.insert(o.begin(), o.end())], for a valid container [o] other
    than [s] whose leaves belong to no other container, adds exactly the keys
    of [o] to [s]; [o] stays as it was and valid, and no other container
    changes. *)
Theorem range_insert_correct N fuel objs h this other d o :
  1 <= N -> this <> other -> objs !! this = Some d -> objs !! other = Some o ->
  inv N d h -> inv N o h ->
  (forall j o', objs !! j = Some o' -> j <> other ->
     forall n, n ∈ ids (root o) -> n ∉ ids (root o')) ->
  sz o <= fuel ->
  exists objs' h' d',
    ADS.insert_range N fuel objs h this (ADS.begin o) end_iterator = Some (objs', h') /\
    objs' !! this = Some d' /\ inv N d' h' /\
    (forall x, x ∈ keys (root d') <-> x ∈ keys (root d) \/ x ∈ keys (root o)) /\
    objs' !! other = Some o /\ inv N o h' /\
    (forall j, j <> this -> objs' !! j = objs !! j).
Proof.
  intros HN Hne Hd Ho Hi Hio Hdis Hf.
  destruct (insert_range_all N HN this other o Hne fuel objs h d Ho Hd Hi Hio Hdis Hf)
    as (objs' & h' & d' & E & Hd' & Hi' & Hio' & Hk & Hob).
  exists objs', h', d'. split; [exact E|]. split; [exact Hd'|]. split; [exact Hi'|].
  split; [exact Hk|]. split; [rewrite Hob by congruence; exact Ho|]. split; [exact Hio'|exact Hob].
Qed.

(** X13: the copy constructor [ADS_set(o)] builds a valid container with
    exactly the keys of [o], in the same order; [o] stays as it was and
    valid, and no other container changes. *)
Theorem copy_correct N fuel objs h this other o :
  1 <= N -> this <> other -> objs !! other = Some o -> inv N o h ->
  (forall j o', objs !! j = Some o' -> j <> other -> j <> this ->
     forall n, n ∈ ids (root o) -> n ∉ ids (root o')) ->
  sz o <= fuel ->
  exists objs' h' d,
    ADS.copy N fuel objs h this other = Some (objs', h') /\
    objs' !! this = Some d /\ inv N d h' /\ keys (root d) = keys (root o) /\
    objs' !! other = Some o /\ inv N o h' /\
    (forall j, j <> this -> objs' !! j = objs !! j).
Proof.
  intros HN Hne Ho Hio Hdis Hf.
  pose proof (inv_construct N h) as Hi0.
  unfold ADS.copy. destruct (ADS.construct h) as [d0 h1] eqn:E0. cbn [fst snd] in Hi0.
  unfold ADS.construct in E0. injection E0 as Ed0 Eh1.
  set (objs1 := <[this := d0]> objs).
  assert (Ho1 : objs1 !! other = Some o).
  { unfold objs1. rewrite lookup_insert_ne by congruence. exact Ho. }
  rewrite Ho1, bind_Some.
  assert (Hio1 : inv N o h1).
  { apply (inv_frame N o h h1 Hio). intros n Hn. rewrite <- Eh1.
    apply lookup_insert_ne. apply fresh_not_some, (inv_ids_live N o h n Hio Hn). }
  assert (Hdis1 : forall j o', objs1 !! j = Some o' -> j <> other ->
            forall n, n ∈ ids (root o) -> n ∉ ids (root o')).
  { intros j o' Hj Hjn n Hn. unfold objs1 in Hj.
    destruct (decide (j = this)) as [->|Hjt].
    - rewrite lookup_insert_eq in Hj. injection Hj as <-. rewrite <- Ed0. cbn [root].
      rewrite ids_ext. intros Hn0. apply list_elem_of_singleton in Hn0.
      apply (fresh_not_some h n); [exact (inv_ids_live N o h n Hio Hn)|congruence].
    - rewrite lookup_insert_ne in Hj by congruence. exact (Hdis j o' Hj Hjn Hjt n Hn). }
  destruct (insert_range_all N HN this other o Hne fuel objs1 h1 d0 Ho1
              ltac:(unfold objs1; apply lookup_insert_eq) Hi0 Hio1 Hdis1 Hf)
    as (objs' & h' & d' & E & Hd' & Hi' & Hio' & Hk & Hob).
  exists objs', h', d'. split; [exact E|]. split; [exact Hd'|]. split; [exact Hi'|].
  split.
  { apply (keys_same N d' o h' h' Hi' Hio'). intros x. rewrite Hk, <- Ed0. cbn [root].
    rewrite keys_ext. clear -x. set_solver. }
  split; [rewrite Hob by congruence; exact Ho1|]. split; [exact Hio'|].
  intros j Hj. rewrite Hob by exact Hj. unfold objs1. apply lookup_insert_ne. congruence.
Qed.

(** X14: copy assignment [s = o] between two different valid containers
    with disjoint leaves replaces the keys of [s] by exactly those of [o];
    [o] stays as it was and valid, and no other container changes. *)
Theorem assign_copies N fuel objs h this other d o :
  1 <= N -> this <> other -> objs !! this = Some d -> objs !! other = Some o ->
  inv N d h -> inv N o h ->
  (forall j o', objs !! j = Some o' -> j <> other ->
     forall n, n ∈ ids (root o) -> n ∉ ids (root o')) ->
  sz o <= fuel ->
  exists objs' h' d',
    ADS.assign N fuel objs h this other = Some (objs', h') /\
    objs' !! this = Some d' /\ inv N d' h' /\ keys (root d') = keys (root o) /\
    objs' !! other = Some o /\ inv N o h' /\
    (forall j, j <> this -> objs' !! j = objs !! j).
Proof.
  intros HN Hne Hd Ho Hi Hio Hdis Hf.
  unfold ADS.assign. rewrite Hd, bind_Some.
  pose proof (inv_construct N (free_tree (root d) h)) as Hi0.
  unfold ADS.clear. destruct (ADS.construct (free_tree (root d) h)) as [d0 h1] eqn:E0.
  cbn [fst snd] in Hi0.
  unfold ADS.construct in E0. injection E0 as Ed0 Eh1.
  set (hf := free_tree (root d) h) in *.
  assert (Hhf : forall n, n ∈ ids (root o) -> hf !! n = h !! n).
  { intros n Hn. unfold hf. rewrite free_tree_lookup.
    destruct (decide (n ∈ ids (root d))) as [Hn0|]; [|reflexivity].
    exfalso. exact (Hdis this d Hd Hne n Hn Hn0). }
  assert (Hlive : forall n, n ∈ ids (root o) -> is_Some (hf !! n)).
  { intros n Hn. rewrite Hhf by exact Hn. exact (inv_ids_live N o h n Hio Hn). }
  set (objs1 := <[this := d0]> objs).
  assert (Ho1 : objs1 !! other = Some o).
  { unfold objs1. rewrite lookup_insert_ne by congruence. exact Ho. }
  rewrite Ho1, bind_Some.
  assert (Hio1 : inv N o h1).
  { apply (inv_frame N o h h1 Hio). intros n Hn. rewrite <- Eh1.
    rewrite lookup_insert_ne by (apply fresh_not_some, Hlive, Hn). apply Hhf, Hn. }
  assert (Hdis1 : forall j o', objs1 !! j = Some o' -> j <> other ->
            forall n, n ∈ ids (root o) -> n ∉ ids (root o')).
  { intros j o' Hj Hjn n Hn. unfold objs1 in Hj.
    destruct (decide (j = this)) as [->|Hjt].
    - rewrite lookup_insert_eq in Hj. injection Hj as <-. rewrite <- Ed0. cbn [root].
      rewrite ids_ext. intros Hn0. apply list_elem_of_singleton in Hn0.
      apply (fresh_not_some hf n); [exact (Hlive n Hn)|congruence].
    - rewrite lookup_insert_ne in Hj by congruence. exact (Hdis j o' Hj Hjn n Hn). }
  destruct (insert_range_all N HN this other o Hne fuel objs1 h1 d0 Ho1
              ltac:(unfold objs1; apply lookup_insert_eq) Hi0 Hio1 Hdis1 Hf)
    as (objs' & h' & d' & E & Hd' & Hi' & Hio' & Hk & Hob).
  exists objs', h', d'. split; [exact E|]. split; [exact Hd'|]. split; [exact Hi'|].
  split.
  { apply (keys_same N d' o h' h' Hi' Hio'). intros x. rewrite Hk, <- Ed0. cbn [root].
    rewrite keys_ext. clear -x. set_solver. }
  split; [rewrite Hob by congruence; exact Ho1|]. split; [exact Hio'|].
  intros j Hj. rewrite Hob by exact Hj. unfold objs1. apply lookup_insert_ne. congruence.
Qed.

(** X15: [clear()] leaves an empty valid container whose [begin()] is
    [end()]; every leaf of the old tree is freed unless it is reused as the
    new leaf, and every other heap cell is left as it was. *)
Theorem clear_frees N s h :
  let '(s', h') := ADS.clear s h in
  inv N s' h' /\ keys (root s') = [] /\ ADS.begin s' = end_iterator /\
  (forall n, n ∈ ids (root s) -> n ∉ ids (root s') -> h' !! n = None) /\
  (forall n, n ∉ ids (root s) -> n ∉ ids (root s') -> h' !! n = h !! n).
Proof.
  pose proof (inv_construct N (free_tree (root s) h)) as Hi0.
  unfold ADS.clear. destruct (ADS.construct (free_tree (root s) h)) as [d0 h1] eqn:E0.
  cbn [fst snd] in Hi0.
  unfold ADS.construct in E0. injection E0 as Ed0 Eh1.
  subst d0 h1. cbn [root sz]. rewrite keys_ext, ids_ext.
  split; [exact Hi0|]. split; [reflexivity|]. split; [reflexivity|].
  split; intros n Hn Hn1; rewrite lookup_insert_ne by set_solver;
    rewrite free_tree_lookup; destruct (decide (n ∈ ids (root s))); tauto.
Qed.

Lemma chain_app_inv p L1 x L2 h :
  chain p (L1 ++ x :: L2) h ->
  exists q, h !! x = Some (mkLinks q (head L2)) /\ chain (Some x) L2 h.
Proof.
  revert p; induction L1 as [|y L1 IH]; intros p; cbn [app chain].
  - intros [Hx Hc]. exists p. cbn [head] in Hx. auto.
  - intros [_ Hc]. exact (IH (Some y) Hc).
Qed.

Lemma filter_from_sorted (k : Z) A B :
  StronglySorted Z.lt (A ++ k :: B) ->
  filter (fun x => (k <= x)%Z) (A ++ k :: B) = k :: B.
Proof.
  induction A as [|a A IH]; cbn [app]; intros HS.
  - apply StronglySorted_inv in HS as [_ HF].
    rewrite filter_cons_True by lia. f_equal.
    induction B as [|b B IHB]; [reflexivity|].
    apply Forall_cons in HF as [Hb HF].
    rewrite filter_cons_True by lia. f_equal. apply IHB, HF.
  - apply StronglySorted_inv in HS as [HS HF].
    assert (Hak : (a < k)%Z).
    { eapply Forall_forall in HF; [exact HF|]. set_solver. }
    rewrite filter_cons_False by lia. apply IH, HS.
Qed.

(** X16: on a reachable container, iterating from [find(k)] to [end()]
    visits exactly the stored keys [>= k], in increasing order, when [k] is
    stored, and nothing when it is not. *)
Theorem iterate_from_find N s h k :
  1 <= N -> reachable N s h ->
  exists it, ADS.find s k = Some it /\
    walk (sz s) (leaf_of (root s)) h it =
      Some (if bool_decide (k ∈ keys (root s))
            then filter (fun x => (k <= x)%Z) (keys (root s)) else []).
Proof.
  intros HN Hr. pose proof (reachable_inv N HN s h Hr) as [[d Hb] Hok HR Hnd Hch Hleft Hsz].
  destruct (lookup_node_spec d (root s) None None k Hb HR ltac:(split; exact I))
    as (_ & Hhit & Hmiss).
  unfold ADS.find. case_bool_decide as Hk.
  - destruct (Hhit Hk) as (id & v & i & E & Hl & Hv). exists (mkIterator (Some id) i).
    split; [exact E|].
    assert (Hkne : keys (root s) <> []) by (intros E'; rewrite E' in Hk; set_solver).
    pose proof (root_leaves_nonempty N HN d (root s) Hb Hok Hkne) as Hne.
    pose proof (proj2 (routed_keys None None (root s) HR)) as HS.
    assert (Hlv : forall j w, In (j, w) (leaves (root s)) -> leaf_of (root s) j = Some w).
    { intros j w Hin. apply assoc_leaf_in; [exact Hnd|exact Hin]. }
    assert (Hv0 : leaf_of (root s) id = Some v) by (apply Hlv, Hl).
    apply in_split in Hl as (P & R & EL).
    set (A := concat (map snd P) ++ take i v).
    set (B := drop (S i) v ++ concat (map snd R)).
    assert (Ekeys : keys (root s) = A ++ k :: B).
    { unfold keys, A, B. rewrite EL, map_app, concat_app. cbn [map concat snd].
      rewrite <- app_assoc. f_equal.
      rewrite app_comm_cons, app_assoc, (take_drop_middle v i k Hv). reflexivity. }
    unfold ids in Hch. rewrite EL, map_app in Hch. cbn [map fst] in Hch.
    destruct (chain_app_inv None (map fst P) id (map fst R) h Hch) as (q & Hq & HchR).
    rewrite EL in Hne. apply Forall_app in Hne as [_ Hne].
    apply Forall_cons in Hne as [_ Hne].
    rewrite (walk_spec (leaf_of (root s)) h (sz s) id v i R q Hv0).
    + f_equal. rewrite Ekeys. rewrite Ekeys in HS. rewrite (filter_from_sorted k A B HS).
      unfold B. rewrite (drop_S v k i Hv). reflexivity.
    + apply lookup_lt_Some in Hv. exact Hv.
    + apply Forall_forall. intros [j w] Hin. cbn [fst snd].
      split; [apply Hlv; rewrite EL; apply in_or_app; right; right; apply list_elem_of_In, Hin|].
      eapply Forall_forall in Hne; [|exact Hin]. exact Hne.
    + exact Hq.
    + exact HchR.
    + rewrite Hsz, Ekeys, length_app. cbn [length]. unfold B.
      rewrite (drop_S v k i Hv), length_app. cbn [length]. lia.
  - exists end_iterator. split; [exact (Hmiss Hk)|].
    destruct (sz s); reflexivity.
Qed.

Lemma count_correct_witness :
  exists s h, insert_all 2 [5; 3; 8]%Z (fst (ADS.construct ∅)) (snd (ADS.construct ∅)) = Some (s, h) /\
    ADS.count s 3 = Some 1 /\ ADS.count s 4 = Some 0.
Proof.
  destruct (insert_all 2 [5; 3; 8]%Z (fst (ADS.construct ∅)) (snd (ADS.construct ∅)))
    as [[s h]|] eqn:E; [|vm_compute in E; discriminate E].
  assert (Hr : reachable 2 s h) by (eapply insert_all_reachable; [apply reach_construct|exact E]).
  exists s, h. split; [reflexivity|].
  rewrite (count_correct 2 s h 3 ltac:(lia) Hr), (count_correct 2 s h 4 ltac:(lia) Hr).
  vm_compute in E. injection E as <- <-. vm_compute. split; reflexivity.
Defined.

Lemma find_correct_witness :
  exists s h it, insert_all 2 [5; 3; 8]%Z (fst (ADS.construct ∅)) (snd (ADS.construct ∅)) = Some (s, h) /\
    ADS.find s 3 = Some it /\ deref (leaf_of (root s)) it = Some 3%Z /\
    ADS.find s 4 = Some end_iterator.
Proof.
  destruct (insert_all 2 [5; 3; 8]%Z (fst (ADS.construct ∅)) (snd (ADS.construct ∅)))
    as [[s h]|] eqn:E; [|vm_compute in E; discriminate E].
  assert (Hr : reachable 2 s h) by (eapply insert_all_reachable; [apply reach_construct|exact E]).
  assert (Hin : (3 ∈ keys (root s))%Z).
  { vm_compute in E. injection E as <- <-. match goal with |- ?P => apply (bool_decide_eq_true_1 P) end. vm_compute. reflexivity. }
  assert (Hout : (4 ∉ keys (root s))%Z).
  { vm_compute in E. injection E as <- <-. match goal with |- ¬ ?P => apply (bool_decide_eq_false_1 P) end. vm_compute. reflexivity. }
  destruct (find_correct 2 s h 3 ltac:(lia) Hr) as [Hhit _].
  destruct (Hhit Hin) as (it & Hf & Hd).
  exists s, h, it. split; [reflexivity|]. split; [exact Hf|]. split; [exact Hd|].
  exact (proj2 (find_correct 2 s h 4 ltac:(lia) Hr) Hout).
Defined.

Lemma insert_result_witness :
  exists s h it b s' h', insert_all 2 [1; 2]%Z (fst (ADS.construct ∅)) (snd (ADS.construct ∅)) = Some (s, h) /\
    ADS.insert 2 s h 2 = Some ((it, b), (s', h')) /\ deref (leaf_of (root s')) it = Some 2%Z /\
    b = false.
Proof.
  destruct (insert_all 2 [1; 2]%Z (fst (ADS.construct ∅)) (snd (ADS.construct ∅)))
    as [[s h]|] eqn:E; [|vm_compute in E; discriminate E].
  assert (Hr : reachable 2 s h) by (eapply insert_all_reachable; [apply reach_construct|exact E]).
  assert (Hin : (2 ∈ keys (root s))%Z).
  { vm_compute in E. injection E as <- <-. match goal with |- ?P => apply (bool_decide_eq_true_1 P) end. vm_compute. reflexivity. }
  destruct (insert_result 2 s h 2 ltac:(lia) Hr) as (it & b & s' & h' & Ei & Hd & Hb).
  exists s, h, it, b, s', h'. split; [reflexivity|]. split; [exact Ei|]. split; [exact Hd|].
  destruct b; [|reflexivity]. exfalso. exact (proj1 Hb eq_refl Hin).
Defined.

Lemma insert_count_witness :
  exists s h r s' h', insert_all 2 [1; 2]%Z (fst (ADS.construct ∅)) (snd (ADS.construct ∅)) = Some (s, h) /\
    ADS.insert 2 s h 7 = Some (r, (s', h')) /\
    ADS.count s' 7 = Some 1 /\ ADS.count s' 1 = ADS.count s 1.
Proof.
  destruct (insert_all 2 [1; 2]%Z (fst (ADS.construct ∅)) (snd (ADS.construct ∅)))
    as [[s h]|] eqn:E; [|vm_compute in E; discriminate E].
  assert (Hr : reachable 2 s h) by (eapply insert_all_reachable; [apply reach_construct|exact E]).
  destruct (insert_spec 2 ltac:(lia) s h 7 (reachable_inv 2 ltac:(lia) s h Hr))
    as (it & b & s' & h' & Ei & _).
  exists s, h, (it, b), s', h'. split; [reflexivity|]. split; [exact Ei|].
  rewrite (insert_count 2 s h 7 (it, b) s' h' 7 ltac:(lia) Hr Ei),
          (insert_count 2 s h 7 (it, b) s' h' 1 ltac:(lia) Hr Ei).
  split; case_bool_decide; first [reflexivity|lia].
Defined.

Lemma erase_count_witness :
  exists s h n s' h', insert_all 2 [1; 2]%Z (fst (ADS.construct ∅)) (snd (ADS.construct ∅)) = Some (s, h) /\
    ADS.erase 2 s h 1 = Some (n, (s', h')) /\
    ADS.count s' 1 = Some 0 /\ ADS.count s' 2 = ADS.count s 2.
Proof.
  destruct (insert_all 2 [1; 2]%Z (fst (ADS.construct ∅)) (snd (ADS.construct ∅)))
    as [[s h]|] eqn:E; [|vm_compute in E; discriminate E].
  assert (Hr : reachable 2 s h) by (eapply insert_all_reachable; [apply reach_construct|exact E]).
  destruct (erase_spec 2 ltac:(lia) s h 1 (reachable_inv 2 ltac:(lia) s h Hr))
    as (n & s' & h' & Ee & _).
  exists s, h, n, s', h'. split; [reflexivity|]. split; [exact Ee|].
  rewrite (erase_count 2 s h 1 n s' h' 1 ltac:(lia) Hr Ee),
          (erase_count 2 s h 1 n s' h' 2 ltac:(lia) Hr Ee).
  split; case_bool_decide; first [reflexivity|lia].
Defined.

Lemma empty_correct_witness :
  exists s h, insert_all 2 [4]%Z (fst (ADS.construct ∅)) (snd (ADS.construct ∅)) = Some (s, h) /\
    ADS.size s = 1 /\ ADS.empty s = false.
Proof.
  destruct (insert_all 2 [4]%Z (fst (ADS.construct ∅)) (snd (ADS.construct ∅)))
    as [[s h]|] eqn:E; [|vm_compute in E; discriminate E].
  assert (Hr : reachable 2 s h) by (eapply insert_all_reachable; [apply reach_construct|exact E]).
  destruct (empty_correct 2 s h ltac:(lia) Hr) as [Hs He].
  exists s, h. split; [reflexivity|].
  vm_compute in E. injection E as <- <-.
  split; [rewrite Hs; vm_compute; reflexivity|].
  destruct (ADS.empty _) eqn:Ee; [|reflexivity].
  pose proof (proj1 He eq_refl) as Hk. vm_compute in Hk. discriminate Hk.
Defined.

Lemma insert_list_correct_witness :
  exists s h, insert_all 2 [5; 1]%Z (fst (ADS.construct ∅)) (snd (ADS.construct ∅)) = Some (s, h) /\
    exists s' h' l, ADS.insert_list 2 s h [3; 9; 1]%Z = Some (s', h') /\ ADS.iterate s' h' = Some l /\
      StronglySorted Z.lt l /\ (forall x, x ∈ l <-> x ∈ [3; 9; 1]%Z \/ x ∈ keys (root s)).
Proof.
  destruct (insert_all 2 [5; 1]%Z (fst (ADS.construct ∅)) (snd (ADS.construct ∅)))
    as [[s h]|] eqn:E; [|vm_compute in E; discriminate E].
  assert (Hr : reachable 2 s h) by (eapply insert_all_reachable; [apply reach_construct|exact E]).
  exists s, h. split; [reflexivity|].
  exact (insert_list_correct 2 s h [3; 9; 1]%Z ltac:(lia) Hr).
Defined.

Lemma from_list_correct_witness :
  1 <= 2 /\
  exists s h' l, ADS.from_list 2 [3; 1; 2; 1]%Z ∅ = Some (s, h') /\ ADS.iterate s h' = Some l /\
    StronglySorted Z.lt l /\ (forall x, x ∈ l <-> x ∈ [3; 1; 2; 1]%Z) /\ ADS.size s = length l.
Proof. split; [lia|]. apply (from_list_correct 2 [3; 1; 2; 1]%Z ∅). lia. Defined.

Lemma from_list_order_independent_witness :
  exists s1 h1 s2 h2,
    ADS.from_list 2 [3; 1; 2]%Z ∅ = Some (s1, h1) /\ ADS.from_list 2 [2; 3; 1; 3]%Z ∅ = Some (s2, h2) /\
    ADS.iterate s1 h1 = ADS.iterate s2 h2 /\ ADS.size s1 = ADS.size s2.
Proof.
  destruct (ADS.from_list 2 [3; 1; 2]%Z ∅) as [[s1 h1]|] eqn:E1; [|vm_compute in E1; discriminate E1].
  destruct (ADS.from_list 2 [2; 3; 1; 3]%Z ∅) as [[s2 h2]|] eqn:E2; [|vm_compute in E2; discriminate E2].
  exists s1, h1, s2, h2. split; [reflexivity|]. split; [reflexivity|].
  apply (from_list_order_independent 2 [3; 1; 2]%Z [2; 3; 1; 3]%Z ∅ ∅ s1 s2 h1 h2 ltac:(lia));
    [set_solver|exact E1|exact E2].
Defined.

Lemma assign_list_correct_witness :
  exists s h, insert_all 2 [5; 1]%Z (fst (ADS.construct ∅)) (snd (ADS.construct ∅)) = Some (s, h) /\
    exists s' h' l, ADS.assign_list 2 s h [7; 3]%Z = Some (s', h') /\ ADS.iterate s' h' = Some l /\
      StronglySorted Z.lt l /\ (forall x, x ∈ l <-> x ∈ [7; 3]%Z).
Proof.
  destruct (insert_all 2 [5; 1]%Z (fst (ADS.construct ∅)) (snd (ADS.construct ∅)))
    as [[s h]|] eqn:E; [|vm_compute in E; discriminate E].
  assert (Hr : reachable 2 s h) by (eapply insert_all_reachable; [apply reach_construct|exact E]).
  exists s, h. split; [reflexivity|].
  exact (assign_list_correct 2 s h [7; 3]%Z ltac:(lia) Hr).
Defined.

Lemma equal_correct_witness :
  exists s h, insert_all 2 [5; 1]%Z (fst (ADS.construct ∅)) (snd (ADS.construct ∅)) = Some (s, h) /\
    exists b, ADS.equal s (fst (ADS.construct h)) (snd (ADS.construct h)) = Some b /\
      ADS.not_equal s (fst (ADS.construct h)) (snd (ADS.construct h)) = Some (negb b) /\
      (b = true <-> forall x, x ∈ keys (root s) <-> x ∈ keys (root (fst (ADS.construct h)))).
Proof.
  destruct (insert_all 2 [5; 1]%Z (fst (ADS.construct ∅)) (snd (ADS.construct ∅)))
    as [[s h]|] eqn:E; [|vm_compute in E; discriminate E].
  assert (Hr : reachable 2 s h) by (eapply insert_all_reachable; [apply reach_construct|exact E]).
  pose proof (reachable_inv 2 ltac:(lia) s h Hr) as Hi.
  exists s, h. split; [reflexivity|].
  exact (equal_correct 2 s (fst (ADS.construct h)) (snd (ADS.construct h)) ltac:(lia)
           (proj1 (construct_frame 2 s h Hi)) (inv_construct 2 h)).
Defined.

Lemma range_insert_correct_witness :
  exists s h, insert_all 2 [5; 1]%Z (fst (ADS.construct ∅)) (snd (ADS.construct ∅)) = Some (s, h) /\
    exists objs' h' d',
      ADS.insert_range 2 (sz s) {[0 := s; 1 := fst (ADS.construct h)]} (snd (ADS.construct h)) 1
        (ADS.begin s) end_iterator = Some (objs', h') /\
      objs' !! 1 = Some d' /\ inv 2 d' h' /\
      (forall x, x ∈ keys (root d') <-> x ∈ keys (root (fst (ADS.construct h))) \/ x ∈ keys (root s)) /\
      objs' !! 0 = Some s /\ inv 2 s h' /\
      (forall j, j <> 1 -> objs' !! j = ({[0 := s; 1 := fst (ADS.construct h)]} : gmap nat ADS_set) !! j).
Proof.
  destruct (insert_all 2 [5; 1]%Z (fst (ADS.construct ∅)) (snd (ADS.construct ∅)))
    as [[s h]|] eqn:E; [|vm_compute in E; discriminate E].
  assert (Hr : reachable 2 s h) by (eapply insert_all_reachable; [apply reach_construct|exact E]).
  pose proof (reachable_inv 2 ltac:(lia) s h Hr) as Hi.
  exists s, h. split; [reflexivity|].
  apply (range_insert_correct 2 (sz s) {[0 := s; 1 := fst (ADS.construct h)]} (snd (ADS.construct h))
           1 0 (fst (ADS.construct h)) s ltac:(lia) ltac:(lia)).
  - rewrite lookup_insert_ne by lia. apply lookup_singleton_eq.
  - apply lookup_insert_eq.
  - apply inv_construct.
  - exact (proj1 (construct_frame 2 s h Hi)).
  - intros j o' Hj Hjn n Hn. rewrite lookup_insert_ne in Hj by congruence.
    apply lookup_singleton_Some in Hj as [<- <-].
    exact (proj2 (construct_frame 2 s h Hi) n Hn).
  - lia.
Defined.

Lemma copy_correct_witness :
  exists s h, insert_all 2 [5; 1; 4; 2; 3]%Z (fst (ADS.construct ∅)) (snd (ADS.construct ∅)) = Some (s, h) /\
    exists objs' h' d,
      ADS.copy 2 (sz s) {[0 := s]} h 1 0 = Some (objs', h') /\
      objs' !! 1 = Some d /\ inv 2 d h' /\ keys (root d) = keys (root s) /\
      objs' !! 0 = Some s /\ inv 2 s h' /\
      (forall j, j <> 1 -> objs' !! j = ({[0 := s]} : gmap nat ADS_set) !! j).
Proof.
  destruct (insert_all 2 [5; 1; 4; 2; 3]%Z (fst (ADS.construct ∅)) (snd (ADS.construct ∅)))
    as [[s h]|] eqn:E; [|vm_compute in E; discriminate E].
  assert (Hr : reachable 2 s h) by (eapply insert_all_reachable; [apply reach_construct|exact E]).
  pose proof (reachable_inv 2 ltac:(lia) s h Hr) as Hi.
  exists s, h. split; [reflexivity|].
  apply (copy_correct 2 (sz s) {[0 := s]} h 1 0 s ltac:(lia) ltac:(lia)).
  - apply lookup_singleton_eq.
  - exact Hi.
  - intros j o' Hj Hjn. apply lookup_singleton_Some in Hj as [<- _]. congruence.
  - lia.
Defined.

Lemma assign_copies_witness :
  exists s h, insert_all 2 [5; 1; 4; 2; 3]%Z (fst (ADS.construct ∅)) (snd (ADS.construct ∅)) = Some (s, h) /\
    exists objs' h' d',
      ADS.assign 2 (sz s) {[0 := s; 1 := fst (ADS.construct h)]} (snd (ADS.construct h)) 1 0 = Some (objs', h') /\
      objs' !! 1 = Some d' /\ inv 2 d' h' /\ keys (root d') = keys (root s) /\
      objs' !! 0 = Some s /\ inv 2 s h' /\
      (forall j, j <> 1 -> objs' !! j = ({[0 := s; 1 := fst (ADS.construct h)]} : gmap nat ADS_set) !! j).
Proof.
  destruct (insert_all 2 [5; 1; 4; 2; 3]%Z (fst (ADS.construct ∅)) (snd (ADS.construct ∅)))
    as [[s h]|] eqn:E; [|vm_compute in E; discriminate E].
  assert (Hr : reachable 2 s h) by (eapply insert_all_reachable; [apply reach_construct|exact E]).
  pose proof (reachable_inv 2 ltac:(lia) s h Hr) as Hi.
  exists s, h. split; [reflexivity|].
  apply (assign_copies 2 (sz s) {[0 := s; 1 := fst (ADS.construct h)]} (snd (ADS.construct h))
           1 0 (fst (ADS.construct h)) s ltac:(lia) ltac:(lia)).
  - rewrite lookup_insert_ne by lia. apply lookup_singleton_eq.
  - apply lookup_insert_eq.
  - apply inv_construct.
  - exact (proj1 (construct_frame 2 s h Hi)).
  - intros j o' Hj Hjn n Hn. rewrite lookup_insert_ne in Hj by congruence.
    apply lookup_singleton_Some in Hj as [<- <-].
    exact (proj2 (construct_frame 2 s h Hi) n Hn).
  - lia.
Defined.

Lemma iterate_from_find_witness :
  exists s h, insert_all 2 [5; 3; 8; 1; 9]%Z (fst (ADS.construct ∅)) (snd (ADS.construct ∅)) = Some (s, h) /\
    exists it, ADS.find s 3 = Some it /\ walk (sz s) (leaf_of (root s)) h it = Some [3; 5; 8; 9]%Z.
Proof.
  destruct (insert_all 2 [5; 3; 8; 1; 9]%Z (fst (ADS.construct ∅)) (snd (ADS.construct ∅)))
    as [[s h]|] eqn:E; [|vm_compute in E; discriminate E].
  assert (Hr : reachable 2 s h) by (eapply insert_all_reachable; [apply reach_construct|exact E]).
  destruct (iterate_from_find 2 s h 3 ltac:(lia) Hr) as (it & Hf & Hw).
  exists s, h. split; [reflexivity|]. exists it. split; [exact Hf|].
  rewrite Hw. vm_compute in E. injection E as <- <-. vm_compute. reflexivity.
Defined.
